(** * gideon-ai: capture pipeline and perceptual-hash deduplication

    A shallow embedding of the capture-and-reduce core of the repository:
    - [src/legacy/dedup.py]        (class [ImageDeduplicator]),
    - [src/legacy/record_photo.py] (class [ScreenCapture]),
    - [src/gideon/mechanisms/save.py] ([add_recordings]),
    - [src/gideon/client.py]       ([GideonCapture._dedup_and_update_db],
                                    [GideonCapture.query]),
    - [src/legacy/model.py]        (the conversation with the model).

    Python [int] is [Z], [str] is [string], a [set] of paths is a
    [gset string], and the insertion-ordered [dict] [image_hashes] is an
    association list with distinct keys. *)

From Stdlib Require Import ZArith QArith Qabs Ascii String DecimalString DecimalN.
From stdpp Require Import gmap strings list sorting.

#[local] Set Warnings "-clear-no-such-hyp".

Local Open Scope string_scope.
Local Open Scope Z_scope.

(** ** Python built-ins used by the sources *)

Module Py.

(** [sum(...)] over integers. *)
Definition sum (l : list Z) : Z := foldr Z.add 0 l.

(** [int(b)] for a boolean, also the value of a [bool] under [sum]. *)
Definition int_of_bool (b : bool) : Z := if b then 1 else 0.

(** The characters of a [str]. *)
Definition chars (s : string) : list ascii := list_ascii_of_string s.

(** [max(l, key=key)]: [None] stands for the [ValueError] on an empty
    sequence. The running maximum is replaced only by a strictly
    greater key, so the first maximal element is returned. *)
Fixpoint max_from (key : string -> Z) (best : string) (l : list string) : string :=
  match l with
  | [] => best
  | x :: l' => if key best <? key x then max_from key x l' else max_from key best l'
  end.

Definition max_by (key : string -> Z) (l : list string) : option string :=
  match l with
  | [] => None
  | x :: l' => Some (max_from key x l')
  end.

(** [s.split(sep)] for a one-character separator: the pieces between
    the separators, never an empty list. *)
Fixpoint split_chars (sep : ascii) (l : list ascii) : list (list ascii) :=
  match l with
  | [] => [[]]
  | c :: l' =>
      if Ascii.eqb c sep then [] :: split_chars sep l'
      else match split_chars sep l' with
           | [] => [[c]]
           | piece :: pieces => (c :: piece) :: pieces
           end
  end.

Definition split (sep : ascii) (s : string) : list string :=
  map string_of_list_ascii (split_chars sep (chars s)).

(** [s.rfind(c)]: the last index of [c], [None] for Python's [-1]. *)
Fixpoint rfind_from (c : ascii) (l : list ascii) (i : nat) (found : option nat) : option nat :=
  match l with
  | [] => found
  | x :: l' => rfind_from c l' (S i) (if Ascii.eqb x c then Some i else found)
  end.

Definition rfind (c : ascii) (s : string) : option nat := rfind_from c (chars s) 0%nat None.

(** [s.lower()] on ASCII text. *)
Definition lower_char (c : ascii) : ascii :=
  let n := nat_of_ascii c in
  if (65 <=? n)%nat && (n <=? 90)%nat then ascii_of_nat (n + 32) else c.

Definition lower (s : string) : string :=
  string_of_list_ascii (map lower_char (chars s)).

(** [s.endswith(suffix)]. *)
Definition endswith (s suffix : string) : bool :=
  bool_decide (drop (String.length s - String.length suffix) (chars s) = chars suffix).

End Py.

(** ** [src/legacy/dedup.py] *)

Module Dedup.

(** [c1 != c2] for a pair [(c1, c2)] of [zip], as the integer [sum] adds. *)
Definition differ (p : ascii * ascii) : Z := Py.int_of_bool (bool_decide (p.1 ≠ p.2)).

(** [hamming_distance]:
    [sum(c1 != c2 for c1, c2 in zip(hash1, hash2))]. *)
Definition hamming_distance (hash1 hash2 : string) : Z :=
  Py.sum (map differ (zip (Py.chars hash1) (Py.chars hash2))).

(** The number of positions [i] below both lengths at which the two
    strings differ: the differing positions of the common prefix. *)
Definition differing_positions (hash1 hash2 : string) : Z :=
  Z.of_nat (length (filter
    (fun i => Py.chars hash1 !! i ≠ Py.chars hash2 !! i)
    (seq 0 (Nat.min (String.length hash1) (String.length hash2))))).

(** The numpy step of [calculate_dhash] on the resized grey-level grid
    ([pixels] has one list per row):
    [diff = pixels[:, 1:] > pixels[:, :-1]], then
    [''.join(str(int(d)) for d in diff.flatten())]. *)
Definition diff_row (row : list Z) : list bool :=
  zip_with (fun right left => bool_decide (left < right)) (tail row) (removelast row).

Definition str_of_bit (d : bool) : string := if d then "1" else "0".

Definition dhash_of_pixels (pixels : list (list Z)) : string :=
  String.concat "" (map str_of_bit (mjoin (map diff_row pixels))).

(** The same hash with the comparison read the other way round, a bit
    being set when the pixel is strictly greater than its right
    neighbour: the wording of the specification. *)
Definition diff_row_left_greater (row : list Z) : list bool :=
  zip_with (fun right left => bool_decide (right < left)) (tail row) (removelast row).

Definition dhash_left_greater (pixels : list (list Z)) : string :=
  String.concat "" (map str_of_bit (mjoin (map diff_row_left_greater pixels))).

(** The state of an [ImageDeduplicator] object. [groups] is the
    [defaultdict] whose keys are [0 .. len-1] in insertion order: the
    group with id [i] is the [i]-th element. *)
Record ImageDeduplicator := {
  threshold : Z;
  image_hashes : list (string * string);
  groups : list (list string);
  representatives : gset string
}.

Definition init (threshold : Z) : ImageDeduplicator :=
  {| threshold := threshold; image_hashes := []; groups := []; representatives := ∅ |}.

(** [d[key] = value] on an insertion-ordered dict: an existing key keeps
    its position, a new key goes last. *)
Fixpoint dict_set (d : list (string * string)) (key value : string) : list (string * string) :=
  match d with
  | [] => [(key, value)]
  | (k, v) :: d' => if bool_decide (k = key) then (k, value) :: d' else (k, v) :: dict_set d' key value
  end.

(** [Path.suffix] of the final path component: the text from the last
    dot on, unless that dot is the first or the last character. *)
Definition path_suffix (path : string) : string :=
  let name := List.last (Py.split "/" path) "" in
  match Py.rfind "." name with
  | Some i =>
      if (0 <? i)%nat && (i <? String.length name - 1)%nat
      then string_of_list_ascii (drop i (Py.chars name))
      else ""
  | None => ""
  end.

Definition valid_extensions : list string := [".jpg"; ".jpeg"; ".png"; ".bmp"; ".gif"].

Section WithFiles.

(** What the image library reads from a file:
    [Image.open(path).convert('L').resize((width, height))] as rows of
    grey levels, and [Image.open(path).size]; [None] is a raised
    exception (unreadable or corrupt file). *)
Variable open_grey_resized : string -> Z -> Z -> option (list (list Z)).
Variable image_size : string -> option (Z * Z).

(** The draws of [random.choice]: an index into the group. *)
Variable randbelow : list string -> nat.

Definition calculate_dhash (image_path : string) (hash_size : Z) : option string :=
  match open_grey_resized image_path (hash_size + 1) hash_size with
  | Some pixels => Some (dhash_of_pixels pixels)
  | None => None
  end.

Definition get_image_resolution (image_path : string) : Z :=
  match image_size image_path with
  | Some (width, height) => width * height
  | None => 0
  end.

(** [process_directory]; [listing] is what [rglob('*')] yields. An
    empty hash string is falsy and is skipped like [None]. *)
Fixpoint process_paths (listing : list string) (hashes : list (string * string))
  : list (string * string) :=
  match listing with
  | [] => hashes
  | path :: rest =>
      if bool_decide (Py.lower (path_suffix path) ∈ valid_extensions) then
        match calculate_dhash path 8 with
        | Some hash_value =>
            if bool_decide (hash_value ≠ "")
            then process_paths rest (dict_set hashes path hash_value)
            else process_paths rest hashes
        | None => process_paths rest hashes
        end
      else process_paths rest hashes
  end.

Definition process_directory (listing : list string) (self : ImageDeduplicator)
  : ImageDeduplicator :=
  {| threshold := threshold self;
     image_hashes := process_paths listing [];
     groups := groups self;
     representatives := representatives self |}.

(** A path that [process_directory] records: an image extension, a
    file the hasher can read, a hash that is not the empty string. *)
Definition readable (path : string) : Prop :=
  Py.lower (path_suffix path) ∈ valid_extensions /\
  exists hash_value, calculate_dhash path 8 = Some hash_value /\ hash_value <> "".

(** The inner loop of [group_similar_images] over [items]. *)
Fixpoint scan_group (T : Z) (hash1 : string) (items : list (string * string))
    (processed : gset string) (current_group : list string)
  : list string * gset string :=
  match items with
  | [] => (current_group, processed)
  | (path2, hash2) :: rest =>
      if bool_decide (path2 ∉ processed) && (hamming_distance hash1 hash2 <=? T)
      then scan_group T hash1 rest ({[path2]} ∪ processed) (current_group ++ [path2])
      else scan_group T hash1 rest processed current_group
  end.

(** The outer loop: [all] is the whole dict, [items] what is left to
    visit. A non-empty [current_group] gets the id [len(groups)]. *)
Fixpoint group_loop (T : Z) (all items : list (string * string))
    (processed : gset string) (groups : list (list string)) : list (list string) :=
  match items with
  | [] => groups
  | (path1, hash1) :: rest =>
      if bool_decide (path1 ∈ processed) then group_loop T all rest processed groups
      else
        let '(current_group, processed') := scan_group T hash1 all processed [] in
        group_loop T all rest processed'
          (match current_group with
           | [] => groups
           | _ :: _ => groups ++ [current_group]
           end)
  end.

Definition group_similar_images (self : ImageDeduplicator) : ImageDeduplicator :=
  {| threshold := threshold self;
     image_hashes := image_hashes self;
     groups := group_loop (threshold self) (image_hashes self) (image_hashes self) ∅ [];
     representatives := representatives self |}.

(** The representative of one group; [None] is the exception raised
    on an empty group. *)
Definition select_one (method : string) (group : list string) : option string :=
  if String.eqb method "random" then group !! (randbelow group `mod` length group)%nat
  else if String.eqb method "highest_res" then Py.max_by get_image_resolution group
  else head group.

Fixpoint select_loop (method : string) (groups : list (list string))
    (reps : gset string) : option (gset string) :=
  match groups with
  | [] => Some reps
  | group :: rest =>
      match select_one method group with
      | Some representative => select_loop method rest ({[representative]} ∪ reps)
      | None => None
      end
  end.

Definition select_representatives (method : string) (self : ImageDeduplicator)
  : option ImageDeduplicator :=
  match select_loop method (groups self) ∅ with
  | Some reps =>
      Some {| threshold := threshold self;
              image_hashes := image_hashes self;
              groups := groups self;
              representatives := reps |}
  | None => None
  end.

(** The dictionary returned by [get_group_statistics]. *)
Record Statistics := {
  total_images : Z;
  unique_groups : Z;
  total_duplicates : Z;
  group_sizes : list Z;
  largest_group_size : Z;
  average_group_size : Q;
  size_distribution : gmap Z Z
}.

Definition len {A} (l : list A) : Z := Z.of_nat (length l).

Definition count_size (dist : gmap Z Z) (size : Z) : gmap Z Z :=
  <[size := default 0 (dist !! size) + 1]> dist.

Definition get_group_statistics (self : ImageDeduplicator) : Statistics :=
  let sizes := map len (groups self) in
  {| total_images := len (image_hashes self);
     unique_groups := len (groups self);
     total_duplicates := len (image_hashes self) - Z.of_nat (size (representatives self));
     group_sizes := sizes;
     largest_group_size := foldr Z.max 0 sizes;
     average_group_size :=
       match groups self with
       | [] => 0%Q
       | _ :: _ => Qmake (Py.sum sizes) (Pos.of_nat (length (groups self)))
       end;
     size_distribution := foldl count_size ∅ sizes |}.

Definition deduplicate (listing : list string) (method : string) (self : ImageDeduplicator)
  : option (ImageDeduplicator * (gset string * Statistics)) :=
  let self1 := group_similar_images (process_directory listing self) in
  match select_representatives method self1 with
  | Some self2 => Some (self2, (representatives self2, get_group_statistics self2))
  | None => None
  end.

(** A second run on the directory once only the representatives of a
    first run are left in it: the paths kept, the object after the
    second run and its statistics. *)
Definition rerun_on_representatives (listing : list string) (method : string)
    (self : ImageDeduplicator) : option (list string * ImageDeduplicator * Statistics) :=
  match deduplicate listing method self with
  | Some (self1, (representatives1, _)) =>
      let kept := filter (fun p => p ∈ representatives1) listing in
      match deduplicate kept method self1 with
      | Some (self2, (_, statistics2)) => Some (kept, self2, statistics2)
      | None => None
      end
  | None => None
  end.

(** What [process_directory] holds after part of the listing: distinct
    keys, each a listed readable path with the hash of its file. *)
Definition recorded_ok (listing : list string) (hashes : list (string * string)) : Prop :=
  NoDup hashes.*1 /\
  (forall p h, (p, h) ∈ hashes ->
     p ∈ listing /\ readable p /\ calculate_dhash p 8 = Some h).


End WithFiles.

(** Entries that are pairwise farther apart than the threshold. *)
Definition pairwise_far (T : Z) (all : list (string * string)) : Prop :=
  forall p1 h1 p2 h2, (p1, h1) ∈ all -> (p2, h2) ∈ all -> p1 <> p2 ->
                      T < hamming_distance h1 h2.

(** The first member of every group. *)
Definition heads (groups : list (list string)) : list string := omap head groups.

(** The invariant of the outer loop: every group is non-empty, its
    seed is a processed key of the dict, every seed is farther than
    the threshold from every entry still unprocessed, and from every
    other seed. *)
Definition seeds_ok (T : Z) (all : list (string * string))
    (processed : gset string) (groups : list (list string)) : Prop :=
  Forall (fun g => g <> []) groups /\
  (forall s, s ∈ heads groups -> s ∈ processed /\ s ∈ all.*1) /\
  (forall s hs q hq, s ∈ heads groups -> (s, hs) ∈ all -> (q, hq) ∈ all ->
                     q ∉ processed -> T < hamming_distance hs hq) /\
  (forall s1 h1 s2 h2, s1 ∈ heads groups -> s2 ∈ heads groups -> s1 <> s2 ->
                       (s1, h1) ∈ all -> (s2, h2) ∈ all -> T < hamming_distance h1 h2).

(** The loop of [get_group_members] over [self.groups.values()]: the
    first group that holds [representative], without it. *)
Fixpoint members_in (groups : list (list string)) (representative : string)
  : list string :=
  match groups with
  | [] => []
  | group :: rest =>
      if bool_decide (representative ∈ group)
      then filter (fun path => path ≠ representative) group
      else members_in rest representative
  end.

(** [get_group_members]; the empty list when no group holds
    [representative]. *)
Definition get_group_members (self : ImageDeduplicator) (representative : string)
  : list string :=
  members_in (groups self) representative.

(** A group led by its seed: every member is within the threshold of
    the seed's hash. *)
Definition seeded (T : Z) (all : list (string * string)) (g : list string) : Prop :=
  exists seed rest hs,
    g = seed :: rest /\ (seed, hs) ∈ all /\
    forall m, m ∈ g -> exists hm, (m, hm) ∈ all /\ hamming_distance hs hm <= T.

(** The groups built so far are seeded and disjoint, and their members
    are the processed paths. *)
Definition groups_ok (T : Z) (all : list (string * string))
    (processed : gset string) (groups : list (list string)) : Prop :=
  Forall (seeded T all) groups /\
  NoDup (mjoin groups) /\
  forall p, p ∈ processed <-> p ∈ mjoin groups.


End Dedup.

(** ** Frame file names: written by [save_frames], read by [add_recordings] *)

Module FrameName.

(** The characters ["0"] to ["9"]. *)
Definition is_digit (c : ascii) : Prop :=
  (48 <= nat_of_ascii c <= 57)%nat.

(** Decimal text of a natural number, as [str(n)] prints it. *)
Definition str_of_N (n : N) : string := NilZero.string_of_uint (N.to_uint n).

(** [round(q)] to the nearest integer, ties to even, for [0 <= q]: the
    rounding of the [.3f] conversion. *)
Definition round_half_even (q : Q) : N :=
  let n := Z.to_N (Qnum q) in
  let d := Npos (Qden q) in
  let fl := (n / d)%N in
  let r := (n mod d)%N in
  match (2 * r ?= d)%N with
  | Lt => fl
  | Gt => (fl + 1)%N
  | Eq => if N.even fl then fl else (fl + 1)%N
  end.

Definition pad3 (s : string) : string :=
  match String.length s with
  | 1%nat => "00" ++ s
  | 2%nat => "0" ++ s
  | _ => s
  end.

(** [f"{timestamp:.3f}"]; [timestamp] is the exact value of the float.
    A negative value keeps its sign even when it rounds to zero. *)
Definition format_3f (timestamp : Q) : string :=
  let ms := round_half_even (Qabs timestamp * 1000) in
  (if Qlt_le_dec timestamp 0 then "-" else "")
    ++ str_of_N (ms / 1000) ++ "." ++ pad3 (str_of_N (ms mod 1000)).

(** [filename = f"frame_{timestamp:.3f}.jpg"] in [save_frames]. *)
Definition frame_filename (timestamp : Q) : string :=
  "frame_" ++ format_3f timestamp ++ ".jpg".

(** What [float(s)] returns. A finite value is the exact value of the
    decimal text: the rounding to a double, and with it overflow and
    underflow, is left out. *)
Inductive float_value :=
  | Finite (value : Q)
  | Infinity (negative : bool)
  | NaN.

(** A run of decimal digits as a number; [None] for the empty text and
    for a text with any other character. *)
Definition digits_value (s : string) : option N :=
  match s with
  | "" => None
  | _ => option_map N.of_uint (NilEmpty.uint_of_string s)
  end.

Definition is_digit_b (c : ascii) : bool :=
  (48 <=? nat_of_ascii c)%nat && (nat_of_ascii c <=? 57)%nat.

(** The blanks [float] strips from both ends: tab, line feed, vertical
    tab, form feed, carriage return and space and, a character being
    a code point below 256, the next-line and no-break space
    characters. *)
Definition is_space (c : ascii) : bool :=
  bool_decide (nat_of_ascii c ∈ [9; 10; 11; 12; 13; 32; 133; 160]%nat).

Fixpoint lstrip (l : list ascii) : list ascii :=
  match l with
  | [] => []
  | c :: l' => if is_space c then lstrip l' else l
  end.

Definition strip (l : list ascii) : list ascii :=
  reverse (lstrip (reverse (lstrip l))).

(** Underscores are dropped when they stand between two digits; any
    other underscore is an error. [prev] is the character before. *)
Fixpoint without_underscores (prev : option ascii) (l : list ascii)
  : option (list ascii) :=
  match l with
  | [] => if bool_decide (prev = Some "_"%char) then None else Some []
  | c :: l' =>
      if Ascii.eqb c "_" then
        match prev with
        | Some d => if is_digit_b d then without_underscores (Some c) l' else None
        | None => None
        end
      else if bool_decide (prev = Some "_"%char) && negb (is_digit_b c) then None
      else option_map (cons c) (without_underscores (Some c) l')
  end.

(** The mantissa: digits, with at most one dot, and at least one digit. *)
Definition unsigned_float (s : string) : option Q :=
  match Py.split "." s with
  | [whole] => option_map (fun n => inject_Z (Z.of_N n)) (digits_value whole)
  | [whole; frac] =>
      match (if bool_decide (whole = "") then Some 0%N else digits_value whole),
            (if bool_decide (frac = "") then Some 0%N else digits_value frac) with
      | Some w, Some f =>
          if bool_decide (whole = "") && bool_decide (frac = "") then None
          else Some (inject_Z (Z.of_N w)
                     + Qmake (Z.of_N f) (Pos.pow 10 (Pos.of_nat (String.length frac))))%Q
      | _, _ => None
      end
  | _ => None
  end.

(** The text before the first [e] or [E], and the text after it. *)
Fixpoint split_exponent (l : list ascii) : list ascii * option (list ascii) :=
  match l with
  | [] => ([], None)
  | c :: l' =>
      if Ascii.eqb c "e" || Ascii.eqb c "E" then ([], Some l')
      else let '(mantissa, exponent) := split_exponent l' in (c :: mantissa, exponent)
  end.

(** The exponent: an optional sign and at least one digit. *)
Definition exponent_value (l : list ascii) : option Z :=
  match l with
  | "-"%char :: digits =>
      option_map (fun n => - Z.of_N n) (digits_value (string_of_list_ascii digits))
  | "+"%char :: digits =>
      option_map Z.of_N (digits_value (string_of_list_ascii digits))
  | digits => option_map Z.of_N (digits_value (string_of_list_ascii digits))
  end.

Definition decimal (l : list ascii) : option Q :=
  let '(mantissa, exponent) := split_exponent l in
  match unsigned_float (string_of_list_ascii mantissa), exponent with
  | Some m, None => Some m
  | Some m, Some e =>
      match exponent_value e with
      | Some z => Some (m * (10 # 1) ^ z)%Q
      | None => None
      end
  | None, _ => None
  end.

(** A text without blanks and underscores: an optional sign, then
    [inf], [infinity] or [nan] in any case, or a decimal number. *)
Definition signed (l : list ascii) : option float_value :=
  let '(negative, body) :=
    match l with
    | "-"%char :: body => (true, body)
    | "+"%char :: body => (false, body)
    | _ => (false, l)
    end in
  let word := map Py.lower_char body in
  if bool_decide (word = Py.chars "inf" \/ word = Py.chars "infinity")
  then Some (Infinity negative)
  else if bool_decide (word = Py.chars "nan") then Some NaN
  else match decimal body with
       | Some q => Some (Finite (if negative then - q else q)%Q)
       | None => None
       end.

(** [float(s)]; [None] is [ValueError]. *)
Definition float (s : string) : option float_value :=
  match without_underscores None (Py.chars s) with
  | Some l => signed (strip l)
  | None => None
  end.

(** The [timestamp] field built in [add_recordings]:
    [float(path.split('/')[-1].split('_')[1].split('.')[0])].
    [None] is the [IndexError] or [ValueError] the expression raises. *)
Definition timestamp_of_path (path : string) : option float_value :=
  let name := List.last (Py.split "/" path) "" in
  match Py.split "_" name !! 1%nat with
  | Some rest => float (List.hd "" (Py.split "." rest))
  | None => None
  end.

End FrameName.

(** ** [src/legacy/record_photo.py]: producer, writer and stop sequence *)

Module Capture.

(** Exceptions that reach the handlers of [save_frames]. *)
Inductive exn :=
  | QueueEmpty      (* [queue.Empty], raised by [get(timeout=1)] *)
  | AttributeError
  | OtherError.     (* an encode or write failure of [cv2.imwrite] *)

(** The module imports the class with [from queue import Queue]; these
    are the public attributes of that class. [Empty] belongs to the
    module [queue], not to the class. *)
Definition Queue_attributes : list string :=
  ["qsize"; "empty"; "full"; "put"; "get"; "put_nowait"; "get_nowait";
   "task_done"; "join"; "maxsize"; "queue"].

Inductive handled :=
  | Continue              (* the handler ran; the loop goes on *)
  | Propagate (e : exn).  (* the exception leaves [save_frames] *)

(** The handlers of the [try] in [save_frames], tried in order. The
    expression of the first clause, [Queue.Empty], is evaluated before
    any matching; an attribute the class lacks raises [AttributeError],
    which replaces the exception being handled and is not caught by the
    later clauses of the same [try]. *)
Definition save_frames_handlers (e : exn) : handled :=
  if bool_decide ("Empty" ∈ Queue_attributes) then
    match e with
    | QueueEmpty => Continue        (* [except Queue.Empty: continue] *)
    | _ => Continue                 (* [except Exception as e: print] *)
    end
  else Propagate AttributeError.

Section WithPixels.

(** A captured screen: the array [np.array(screenshot)]. *)
Variable Pixels : Type.

(** A queue item [(frame, rel_timestamp)]. *)
Definition Frame : Type := Pixels * Q.

(** [Queue(maxsize=30)]. *)
Definition maxsize : nat := 30.

(** Where [capture_screen] is. *)
Inductive capture_pc :=
  | CTest                 (* at [while not self.stop_event.is_set()] *)
  | CBody                 (* inside the loop body, before the grab *)
  | CPut (item : Frame)   (* [full()] was false; about to [put] *)
  | CReturned.

(** Where [save_frames] is. *)
Inductive save_pc :=
  | STest                 (* at the [while] condition *)
  | SGet                  (* inside [get(timeout=1)] *)
  | SReturned
  | SRaised (e : exn).    (* the thread died with an uncaught exception *)

(** Where [stop_capture] is. *)
Inductive stop_pc :=
  | XIdle                 (* not called yet *)
  | XJoinCapture          (* at [self.capture_thread.join()] *)
  | XSaveAlive            (* at [if ... self.save_thread.is_alive()] *)
  | XDrainTest            (* at [while not self.frame_queue.empty()] *)
  | XDrainGet             (* at [self.frame_queue.get()] *)
  | XJoinSave             (* at [self.save_thread.join()] *)
  | XClosed.

(** The shared state. [written] lists the frames [cv2.imwrite] has
    put in the output folder; [enqueued], [discarded] (frames taken
    from the queue and never written) and [enqueued_at_stop] (what had
    been enqueued when the stop event was set) are history variables
    that only record what happened. *)
Record state := {
  stop_event : bool;
  frame_queue : list Frame;
  capture : capture_pc;
  save : save_pc;
  stopper : stop_pc;
  written : list Frame;
  enqueued : list Frame;
  discarded : list Frame;
  enqueued_at_stop : option (list Frame)
}.

(** The files of the output folder, oldest first: name and content. *)
Definition file_of (item : Frame) : string * Pixels :=
  (FrameName.frame_filename item.2, item.1).

Definition saved (s : state) : list (string * Pixels) := map file_of (written s).

(** The queue respects its capacity, and a producer that has passed
    the [full()] test still finds room. *)
Definition queue_ok (s : state) : Prop :=
  (length (frame_queue s) <= maxsize)%nat /\
  forall item, capture s = CPut item -> (length (frame_queue s) < maxsize)%nat.

(** What was enqueued is what was taken, in order, followed by what is
    still queued; what was taken was written or discarded. *)
Definition fifo_ok (s : state) : Prop :=
  exists taken,
    enqueued s = (taken ++ frame_queue s)%list /\
    sublist (written s) taken /\
    forall f, f ∈ taken -> f ∈ written s \/ f ∈ discarded s.

(** Once [save_frames] has returned, the stop event is set and every
    frame enqueued before it was set has left the queue. *)
Definition drained_ok (s : state) : Prop :=
  save s = SReturned ->
  stop_event s = true /\
  exists l, enqueued_at_stop s = Some l /\
            forall f, f ∈ l -> f ∈ written s \/ f ∈ discarded s.

(** Until the stop event is set [stop_capture] has not started; once it
    is set, the frames enqueued before are on record, and they are among
    the frames enqueued. *)
Definition stop_ok (s : state) : Prop :=
  (stop_event s = false -> stopper s = XIdle /\ enqueued_at_stop s = None) /\
  (stop_event s = true -> exists l, enqueued_at_stop s = Some l) /\
  forall l, enqueued_at_stop s = Some l -> forall f, f ∈ l -> f ∈ enqueued s.

(** Right after [start_capture]. *)
Definition started : state :=
  {| stop_event := false; frame_queue := []; capture := CTest; save := STest;
     stopper := XIdle; written := []; enqueued := []; discarded := [];
     enqueued_at_stop := None |}.

Definition full (q : list Frame) : bool := (maxsize <=? length q)%nat.
Definition empty (q : list Frame) : bool := bool_decide (q = []).

Definition thread_alive_capture (s : state) : bool :=
  match capture s with CReturned => false | _ => true end.

Definition thread_alive_save (s : state) : bool :=
  match save s with SReturned | SRaised _ => false | _ => true end.

(** One scheduling step of one thread, with what the environment
    answers where it has a say. *)
Inductive event :=
  | CaptureTest                       (* evaluate the [while] condition *)
  | CaptureSleep                      (* the interval has not elapsed *)
  | CaptureGrab (r : option Frame)    (* the grab: a frame, or an exception *)
  | CapturePut                        (* [self.frame_queue.put(...)] *)
  | SaveTest                          (* evaluate the [while] condition *)
  | SaveGet (write_ok : bool)         (* [get] returns an item; [imwrite] result *)
  | SaveTimeout                       (* [get] waited one second in vain *)
  | StopCall                          (* enter [stop_capture] *)
  | StopJoinCapture
  | StopSaveAlive
  | StopDrainTest
  | StopDrainGet
  | StopJoinSave.

Definition set_capture (pc : capture_pc) (s : state) : state :=
  {| stop_event := stop_event s; frame_queue := frame_queue s; capture := pc;
     save := save s; stopper := stopper s; written := written s;
     enqueued := enqueued s; discarded := discarded s;
     enqueued_at_stop := enqueued_at_stop s |}.

Definition set_save (pc : save_pc) (s : state) : state :=
  {| stop_event := stop_event s; frame_queue := frame_queue s; capture := capture s;
     save := pc; stopper := stopper s; written := written s;
     enqueued := enqueued s; discarded := discarded s;
     enqueued_at_stop := enqueued_at_stop s |}.

Definition set_stopper (pc : stop_pc) (s : state) : state :=
  {| stop_event := stop_event s; frame_queue := frame_queue s; capture := capture s;
     save := save s; stopper := pc; written := written s;
     enqueued := enqueued s; discarded := discarded s;
     enqueued_at_stop := enqueued_at_stop s |}.

(** [step ev s] is [None] when the thread is not at that point, or
    when the call it stands for cannot return yet (a blocking [put] on
    a full queue, a blocking [get] on an empty one, a [join] on a live
    thread). *)
Definition step (ev : event) (s : state) : option state :=
  match ev, capture s, save s, stopper s with
  (* capture_screen *)
  | CaptureTest, CTest, _, _ =>
      Some (set_capture (if stop_event s then CReturned else CBody) s)
  | CaptureSleep, CBody, _, _ => Some (set_capture CTest s)
  | CaptureGrab None, CBody, _, _ => Some (set_capture CTest s)
  | CaptureGrab (Some item), CBody, _, _ =>
      if full (frame_queue s) then Some (set_capture CTest s)
      else Some (set_capture (CPut item) s)
  | CapturePut, CPut item, _, _ =>
      if full (frame_queue s) then None
      else Some {| stop_event := stop_event s;
                   frame_queue := frame_queue s ++ [item];
                   capture := CTest; save := save s; stopper := stopper s;
                   written := written s; enqueued := enqueued s ++ [item];
                   discarded := discarded s;
                   enqueued_at_stop := enqueued_at_stop s |}
  (* save_frames *)
  | SaveTest, _, STest, _ =>
      Some (set_save (if stop_event s && empty (frame_queue s) then SReturned else SGet) s)
  | SaveGet write_ok, _, SGet, _ =>
      match frame_queue s with
      | [] => None
      | (frame, timestamp) :: rest =>
          if write_ok then
            Some {| stop_event := stop_event s; frame_queue := rest;
                    capture := capture s; save := STest; stopper := stopper s;
                    written := written s ++ [(frame, timestamp)];
                    enqueued := enqueued s; discarded := discarded s;
                    enqueued_at_stop := enqueued_at_stop s |}
          else
            Some {| stop_event := stop_event s; frame_queue := rest;
                    capture := capture s;
                    save := match save_frames_handlers OtherError with
                            | Continue => STest
                            | Propagate e => SRaised e
                            end;
                    stopper := stopper s; written := written s;
                    enqueued := enqueued s;
                    discarded := discarded s ++ [(frame, timestamp)];
                    enqueued_at_stop := enqueued_at_stop s |}
      end
  | SaveTimeout, _, SGet, _ =>
      match frame_queue s with
      | [] => Some (set_save (match save_frames_handlers QueueEmpty with
                              | Continue => STest
                              | Propagate e => SRaised e
                              end) s)
      | _ :: _ => None
      end
  (* stop_capture *)
  | StopCall, _, _, XIdle =>
      if stop_event s then Some (set_stopper XClosed s)
      else Some {| stop_event := true; frame_queue := frame_queue s;
                   capture := capture s; save := save s; stopper := XJoinCapture;
                   written := written s; enqueued := enqueued s;
                   discarded := discarded s;
                   enqueued_at_stop := Some (enqueued s) |}
  | StopJoinCapture, _, _, XJoinCapture =>
      if thread_alive_capture s then None else Some (set_stopper XSaveAlive s)
  | StopSaveAlive, _, _, XSaveAlive =>
      Some (set_stopper (if thread_alive_save s then XDrainTest else XClosed) s)
  | StopDrainTest, _, _, XDrainTest =>
      Some (set_stopper (if empty (frame_queue s) then XJoinSave else XDrainGet) s)
  | StopDrainGet, _, _, XDrainGet =>
      match frame_queue s with
      | [] => None
      | item :: rest =>
          Some {| stop_event := stop_event s; frame_queue := rest;
                  capture := capture s; save := save s; stopper := XDrainTest;
                  written := written s; enqueued := enqueued s;
                  discarded := discarded s ++ [item];
                  enqueued_at_stop := enqueued_at_stop s |}
      end
  | StopJoinSave, _, _, XJoinSave =>
      if thread_alive_save s then None else Some (set_stopper XClosed s)
  | _, _, _, _ => None
  end.

(** A schedule, run from left to right. *)
Fixpoint run (evs : list event) (s : state) : option state :=
  match evs with
  | [] => Some s
  | ev :: evs' =>
      match step ev s with
      | Some s' => run evs' s'
      | None => None
      end
  end.

(** Every frame enqueued is in exactly one place: written, discarded,
    or still in the queue. *)
Definition conserved (s : state) : Prop :=
  enqueued s ≡ₚ (written s ++ discarded s ++ frame_queue s)%list.

(** After the stop event the producer enqueues at most one frame: the
    one it had grabbed, or was about to grab, when the event was set. *)
Definition late_ok (s : state) : Prop :=
  forall l, enqueued_at_stop s = Some l ->
    exists extra,
      enqueued s = (l ++ extra)%list /\
      (extra = [] \/
       (exists f, extra = [f]) /\ (capture s = CTest \/ capture s = CReturned)).

(** [stop_capture] goes past its first [join] only once the producer
    has returned. *)
Definition joined_ok (s : state) : Prop :=
  match stopper s with
  | XIdle | XJoinCapture | XClosed => True
  | XSaveAlive | XDrainTest | XDrainGet | XJoinSave => capture s = CReturned
  end.


End WithPixels.

Arguments CTest {Pixels}.
Arguments CBody {Pixels}.
Arguments CPut {Pixels} item.
Arguments CReturned {Pixels}.
Arguments stop_event {Pixels} s.
Arguments frame_queue {Pixels} s.
Arguments capture {Pixels} s.
Arguments save {Pixels} s.
Arguments stopper {Pixels} s.
Arguments written {Pixels} s.
Arguments enqueued {Pixels} s.
Arguments discarded {Pixels} s.
Arguments enqueued_at_stop {Pixels} s.
Arguments saved {Pixels} s.
Arguments queue_ok {Pixels} s.
Arguments fifo_ok {Pixels} s.
Arguments drained_ok {Pixels} s.
Arguments stop_ok {Pixels} s.
Arguments full {Pixels} q.
Arguments empty {Pixels} q.
Arguments thread_alive_capture {Pixels} s.
Arguments thread_alive_save {Pixels} s.
Arguments CaptureTest {Pixels}.
Arguments CaptureSleep {Pixels}.
Arguments CaptureGrab {Pixels} r.
Arguments CapturePut {Pixels}.
Arguments SaveTest {Pixels}.
Arguments SaveGet {Pixels} write_ok.
Arguments SaveTimeout {Pixels}.
Arguments StopCall {Pixels}.
Arguments StopJoinCapture {Pixels}.
Arguments StopSaveAlive {Pixels}.
Arguments StopDrainTest {Pixels}.
Arguments StopDrainGet {Pixels}.
Arguments StopJoinSave {Pixels}.
Arguments set_capture {Pixels} pc s.
Arguments set_save {Pixels} pc s.
Arguments set_stopper {Pixels} pc s.
Arguments step {Pixels} ev s.
Arguments run {Pixels} evs s.
Arguments started {Pixels}.
Arguments conserved {Pixels} s.
Arguments late_ok {Pixels} s.
Arguments joined_ok {Pixels} s.

End Capture.

(** ** [src/gideon/mechanisms/save.py] and the cycle of [src/gideon/client.py] *)

Module Session.

(** The storage collaborator, as far as the core can observe it: which
    objects end up in [batch.failed_objects], for which object
    [batch.add_object] raises, and whether leaving the [with] block
    raises. *)
Record collaborator := {
  rejects : string -> bool;
  add_raises : string -> bool;
  exit_raises : bool
}.

(** How a call ends: it returns (with the failed objects it logged), or
    an exception leaves it. *)
Inductive outcome :=
  | Returned (failed_objects : list string)
  | Raised.

(** [os.remove(path)] on the folder content; [None] is
    [FileNotFoundError]. *)
Definition os_remove (path : string) (folder : list string) : option (list string) :=
  if bool_decide (path ∈ folder) then Some (filter (fun p => p ≠ path) folder) else None.

(** The folder an entry lies in, for a path as [rglob] writes it: the
    text before the last slash, [.] for a bare name and [/] for an
    entry of the root. *)
Definition parent (path : string) : string :=
  match Py.rfind "/" path with
  | None => "."
  | Some O => "/"
  | Some i => string_of_list_ascii (take i (Py.chars path))
  end.

(** [file.endswith('.jpg')] on the name of an entry. *)
Definition is_jpg (path : string) : bool :=
  Py.endswith (List.last (Py.split "/" path) "") ".jpg".

Section WithStorage.

Variable store : collaborator.

(** [os.path.isfile]: whether an entry of the folder is a regular
    file. [rglob] and [os.listdir] list directories as well; on a
    directory [open] raises. *)
Variable isfile : string -> bool.

(** The order in which Python iterates a set is that of the slots of
    its hash table; [slot] gives the slot of a path in the set of
    representatives. Every order of the members of one set is the
    order of some [slot]. *)
Variable slot : string -> nat.

(** The loop of [add_recordings] over [source]; [added] are the
    objects handed to the batch so far. [toBase64] opens the file, so
    a missing file and a directory raise; the timestamp expression may
    raise; then [batch.add_object]; then [os.remove]. *)
Fixpoint add_loop (source : list string) (folder : list string) (added : list string)
  : list string * option (list string) :=
  match source with
  | [] => (folder, Some added)
  | path :: rest =>
      if bool_decide (path ∈ folder) && isfile path then
        match FrameName.timestamp_of_path path with
        | Some _ =>
            if add_raises store path then (folder, None)
            else match os_remove path folder with
                 | Some folder' => add_loop rest folder' (added ++ [path])
                 | None => (folder, None)
                 end
        | None => (folder, None)
        end
      else (folder, None)
  end.

Definition add_recordings (source : list string) (folder : list string)
  : list string * outcome :=
  match add_loop source folder [] with
  | (folder', Some added) =>
      if exit_raises store then (folder', Raised)
      else (folder', Returned (filter (fun p => rejects store p = true) added))
  | (folder', None) => (folder', Raised)
  end.

Variable open_grey_resized : string -> Z -> Z -> option (list (list Z)).
Variable image_size : string -> option (Z * Z).
Variable randbelow : list string -> nat.

(** [list(representatives)]. *)
Definition list_of_set (s : gset string) : list string :=
  @merge_sort string (fun a b => (slot a <= slot b)%nat)
    (fun a b => decide (slot a <= slot b)%nat) (elements s).

(** What the clean-up loop removes: [os.listdir] lists the entries that
    lie directly in the output folder, and the loop removes those that
    are regular files with a name ending in [.jpg]. [output_folder] is
    the folder as [rglob] writes it, the text of
    [Path(self.output_folder)]. *)
Definition cleaned (output_folder : string) (path : string) : bool :=
  bool_decide (parent path = output_folder) && isfile path && is_jpg path.

Definition clean_up (output_folder : string) (folder : list string) : list string :=
  filter (fun p => cleaned output_folder p = false) folder.

(** One pass of the [while] body of [_dedup_and_update_db], after the
    sleep. [folder] lists what [rglob('*')] yields when [deduplicate]
    scans: every file and directory under the output folder, at any
    depth. [arrived] lists the entries added to the folder after that
    scan and before the listing of the clean-up: the writer thread
    goes on writing frames during the pass. The result lists the
    folder after the pass. Any exception is caught by the [except] of
    the loop, which logs it and goes to the next pass. *)
Definition dedup_cycle (output_folder : string) (self : Dedup.ImageDeduplicator)
    (folder arrived : list string)
  : Dedup.ImageDeduplicator * list string * outcome :=
  match Dedup.deduplicate open_grey_resized image_size randbelow folder "highest_res" self with
  | None => (self, (folder ++ arrived)%list, Raised)
  | Some (self', (representatives, _)) =>
      if bool_decide (representatives ≠ ∅) then
        match add_recordings (list_of_set representatives) folder with
        | (folder', Returned failed) =>
            (self', clean_up output_folder (folder' ++ arrived)%list, Returned failed)
        | (folder', Raised) => (self', (folder' ++ arrived)%list, Raised)
        end
      else (self', (folder ++ arrived)%list, Returned [])
  end.

End WithStorage.

End Session.

(** ** Concrete directories used below *)

Module Examples.

(** Pixel counts 100, 400, 250 and 400 again. *)
Definition sizes_100_400_250_400 (path : string) : option (Z * Z) :=
  if String.eqb path "a.jpg" then Some (10, 10)
  else if String.eqb path "b.jpg" then Some (20, 20)
  else if String.eqb path "c.jpg" then Some (25, 10)
  else if String.eqb path "d.jpg" then Some (40, 10)
  else None.

(** Rows of nine grey levels: a flat one (eight bits 0) and a rising
    one (eight bits 1). *)
Definition flat_row : list Z := [0; 0; 0; 0; 0; 0; 0; 0; 0].
Definition rising_row : list Z := [0; 1; 2; 3; 4; 5; 6; 7; 8].

(** Three 8 x 9 grids whose hashes are at distances 8, 8 and 16. *)
Definition grid_a : list (list Z) := replicate 8 flat_row.
Definition grid_b : list (list Z) := rising_row :: replicate 7 flat_row.
Definition grid_c : list (list Z) := rising_row :: rising_row :: replicate 6 flat_row.

Definition frame_a : string := "temp_photo/frame_0.000.jpg".
Definition frame_b : string := "temp_photo/frame_0.050.jpg".
Definition frame_c : string := "temp_photo/frame_0.100.jpg".

(** A folder with three frames: [a] is within 10 of [b], [b] within 10
    of [c], and [a] is not within 10 of [c]. *)
Definition three_frames (path : string) (width height : Z) : option (list (list Z)) :=
  if String.eqb path frame_a then Some grid_a
  else if String.eqb path frame_b then Some grid_b
  else if String.eqb path frame_c then Some grid_c
  else None.

(** Frame [b] has the most pixels. *)
Definition three_sizes (path : string) : option (Z * Z) :=
  if String.eqb path frame_a then Some (10, 10)
  else if String.eqb path frame_b then Some (20, 20)
  else if String.eqb path frame_c then Some (25, 10)
  else None.

(** A folder in which every image has the same content. *)
Definition same_frames (path : string) (width height : Z) : option (list (list Z)) :=
  Some grid_b.

Definition no_random (group : list string) : nat := 0%nat.

(** A fourth frame, written while a pass of the cycle is under way,
    and a frame kept in a sub-folder of the output folder. *)
Definition frame_d : string := "temp_photo/frame_0.150.jpg".
Definition kept_frame : string := "temp_photo/kept/frame_9.000.jpg".

(** Every entry is a regular file; the slots give no order of their
    own. *)
Definition all_files (path : string) : bool := true.
Definition one_slot (path : string) : nat := 0%nat.

(** A storage collaborator that accepts the batch and reports every
    object as failed. *)
Definition rejecting_store : Session.collaborator :=
  {| Session.rejects := fun _ => true;
     Session.add_raises := fun _ => false;
     Session.exit_raises := false |}.

(** States and schedules of the capture pipeline; a screen is
    represented by a number. *)
Definition one_frame_queued : Capture.state nat :=
  {| Capture.stop_event := false;
     Capture.frame_queue := [(7%nat, 0.05%Q)];
     Capture.capture := Capture.CTest;
     Capture.save := Capture.STest;
     Capture.stopper := Capture.XIdle;
     Capture.written := [];
     Capture.enqueued := [(7%nat, 0.05%Q)];
     Capture.discarded := [];
     Capture.enqueued_at_stop := None |}.

(** A burst of frames, one every 50 ms, while the writer is not
    scheduled: the producer tests, grabs and puts, again and again. *)
Definition burst_frame (i : nat) : nat * Q := (i, Z.of_nat i # 20).

Definition burst_frames (n : nat) : list (nat * Q) := map burst_frame (seq 0 n).

Definition burst (n : nat) : list (Capture.event nat) :=
  flat_map (fun item => [Capture.CaptureTest; Capture.CaptureGrab (Some item);
                         Capture.CapturePut])
           (burst_frames n).

(** After thirty frames the queue is full, and the producer has passed
    the test of its loop once more. *)
Definition full_queue_at_body : Capture.state nat :=
  {| Capture.stop_event := false;
     Capture.frame_queue := burst_frames 30;
     Capture.capture := Capture.CBody;
     Capture.save := Capture.STest;
     Capture.stopper := Capture.XIdle;
     Capture.written := [];
     Capture.enqueued := burst_frames 30;
     Capture.discarded := [];
     Capture.enqueued_at_stop := None |}.

(** After twenty-nine frames the producer grabs the thirtieth and
    finds room for it. *)
Definition room_found : Capture.state nat :=
  {| Capture.stop_event := false;
     Capture.frame_queue := burst_frames 29;
     Capture.capture := Capture.CPut (burst_frame 29);
     Capture.save := Capture.STest;
     Capture.stopper := Capture.XIdle;
     Capture.written := [];
     Capture.enqueued := burst_frames 29;
     Capture.discarded := [];
     Capture.enqueued_at_stop := None |}.

Definition write_then_stop : list (Capture.event nat) :=
  [Capture.CaptureTest; Capture.CaptureGrab (Some (7%nat, 0.05%Q)); Capture.CapturePut;
   Capture.SaveTest; Capture.SaveGet true;
   Capture.StopCall; Capture.CaptureTest; Capture.StopJoinCapture;
   Capture.StopSaveAlive; Capture.StopDrainTest; Capture.SaveTest; Capture.StopJoinSave].

Definition written_and_stopped : Capture.state nat :=
  {| Capture.stop_event := true;
     Capture.frame_queue := [];
     Capture.capture := Capture.CReturned;
     Capture.save := Capture.SReturned;
     Capture.stopper := Capture.XClosed;
     Capture.written := [(7%nat, 0.05%Q)];
     Capture.enqueued := [(7%nat, 0.05%Q)];
     Capture.discarded := [];
     Capture.enqueued_at_stop := Some [(7%nat, 0.05%Q)] |}.

Definition stop_drains_queue : list (Capture.event nat) :=
  [Capture.CaptureTest; Capture.CaptureGrab (Some (7%nat, 0.05%Q)); Capture.CapturePut;
   Capture.StopCall; Capture.CaptureTest; Capture.StopJoinCapture;
   Capture.StopSaveAlive; Capture.StopDrainTest; Capture.StopDrainGet;
   Capture.StopDrainTest; Capture.SaveTest; Capture.StopJoinSave].

Definition drained_unwritten : Capture.state nat :=
  {| Capture.stop_event := true;
     Capture.frame_queue := [];
     Capture.capture := Capture.CReturned;
     Capture.save := Capture.SReturned;
     Capture.stopper := Capture.XClosed;
     Capture.written := [];
     Capture.enqueued := [(7%nat, 0.05%Q)];
     Capture.discarded := [(7%nat, 0.05%Q)];
     Capture.enqueued_at_stop := Some [(7%nat, 0.05%Q)] |}.

(** The producer grabs a frame, [stop_capture] sets the event, and the
    producer still enqueues the frame. *)
Definition put_after_stop : list (Capture.event nat) :=
  [Capture.CaptureTest; Capture.CaptureGrab (Some (7%nat, 0.05%Q));
   Capture.StopCall; Capture.CapturePut].

Definition enqueued_after_stop : Capture.state nat :=
  {| Capture.stop_event := true;
     Capture.frame_queue := [(7%nat, 0.05%Q)];
     Capture.capture := Capture.CTest;
     Capture.save := Capture.STest;
     Capture.stopper := Capture.XJoinCapture;
     Capture.written := [];
     Capture.enqueued := [(7%nat, 0.05%Q)];
     Capture.discarded := [];
     Capture.enqueued_at_stop := Some [] |}.

(** One frame is queued when [stop_capture] is called. Its drain loop
    finds the queue non-empty; before it calls [get], the writer takes
    the frame and writes it. *)
Definition writer_empties_queue_under_drain : list (Capture.event nat) :=
  [Capture.CaptureTest; Capture.CaptureGrab (Some (7%nat, 0.05%Q)); Capture.CapturePut;
   Capture.StopCall; Capture.CaptureTest; Capture.StopJoinCapture;
   Capture.StopSaveAlive; Capture.StopDrainTest;
   Capture.SaveTest; Capture.SaveGet true].

Definition drain_waits : Capture.state nat :=
  {| Capture.stop_event := true;
     Capture.frame_queue := [];
     Capture.capture := Capture.CReturned;
     Capture.save := Capture.STest;
     Capture.stopper := Capture.XDrainGet;
     Capture.written := [(7%nat, 0.05%Q)];
     Capture.enqueued := [(7%nat, 0.05%Q)];
     Capture.discarded := [];
     Capture.enqueued_at_stop := Some [(7%nat, 0.05%Q)] |}.

(** The writer has returned; [stop_capture] is still in its [get]. *)
Definition drain_waits_writer_returned : Capture.state nat :=
  {| Capture.stop_event := true;
     Capture.frame_queue := [];
     Capture.capture := Capture.CReturned;
     Capture.save := Capture.SReturned;
     Capture.stopper := Capture.XDrainGet;
     Capture.written := [(7%nat, 0.05%Q)];
     Capture.enqueued := [(7%nat, 0.05%Q)];
     Capture.discarded := [];
     Capture.enqueued_at_stop := Some [(7%nat, 0.05%Q)] |}.

(** The writer waits on the empty queue of a session that has just
    started. *)
Definition writer_waiting : Capture.state nat :=
  {| Capture.stop_event := false;
     Capture.frame_queue := [];
     Capture.capture := Capture.CTest;
     Capture.save := Capture.SGet;
     Capture.stopper := Capture.XIdle;
     Capture.written := [];
     Capture.enqueued := [];
     Capture.discarded := [];
     Capture.enqueued_at_stop := None |}.

(** The wait has timed out; a frame enqueued afterwards stays queued. *)
Definition frame_without_writer : Capture.state nat :=
  {| Capture.stop_event := false;
     Capture.frame_queue := [(7%nat, 0.05%Q)];
     Capture.capture := Capture.CTest;
     Capture.save := Capture.SRaised Capture.AttributeError;
     Capture.stopper := Capture.XIdle;
     Capture.written := [];
     Capture.enqueued := [(7%nat, 0.05%Q)];
     Capture.discarded := [];
     Capture.enqueued_at_stop := None |}.

(** Two files that are not frames: a picture without a timestamp in its
    name, and a text file. *)
Definition picture : string := "temp_photo/cover.jpg".
Definition notes : string := "temp_photo/notes.txt".


End Examples.

(** ** [src/legacy/model.py] and [GideonCapture.query] of [src/gideon/client.py] *)

Module Chat.

(** The content dicts of a message: [{"type": "text", "text": ...}]
    and [{"type": "image_url", "image_url": {"url": ...}}]. *)
Inductive part :=
  | Text (text : string)
  | ImageUrl (url : string).

(** A [Message] object. Its [timestamp] is read by [save_conversation]
    only and is left out. *)
Record Message := {
  role : string;
  content : list part
}.

(** What [to_dict] puts under ["content"]. *)
Inductive api_content :=
  | Flat (text : string)
  | Parts (parts : list part).

(** [Message.to_dict]: a message that is one text is flattened. *)
Definition to_dict (self : Message) : string * api_content :=
  match content self with
  | [Text text] => (role self, Flat text)
  | parts => (role self, Parts parts)
  end.

(** An [LLMMessageBuilder] with its [Conversation]. A [Message] is a
    mutable object that the conversation and [current_message] share:
    [heap] holds the objects in the order they were created, a
    reference is an index into it, and [messages] is
    [self.conversation.messages]. *)
Record LLMMessageBuilder := {
  heap : list Message;
  messages : list nat;
  model : string;
  current_message : option nat
}.

(** [LLMMessageBuilder(api_key)] with a key. *)
Definition init : LLMMessageBuilder :=
  {| heap := []; messages := []; model := "gpt-4o"; current_message := None |}.

(** The objects a list of references stands for. *)
Definition resolve (objects : list Message) (references : list nat) : list Message :=
  omap (fun reference => objects !! reference) references.

(** [get_conversation_history], as the messages it lists. *)
Definition get_conversation_history (self : LLMMessageBuilder) : list Message :=
  resolve (heap self) (messages self).

(** [self.content.append(p)] on the message [message]. *)
Definition append_content (message : nat) (p : part) (self : LLMMessageBuilder)
  : LLMMessageBuilder :=
  {| heap := alter (fun m => {| role := role m; content := content m ++ [p] |})
                   message (heap self);
     messages := messages self;
     model := model self;
     current_message := current_message self |}.

Definition add_text (message : nat) (text : string) : LLMMessageBuilder -> LLMMessageBuilder :=
  append_content message (Text text).

Definition image_url (base64_image : string) : string :=
  "data:image/jpeg;base64," ++ base64_image.

Definition add_image_base64 (message : nat) (base64_image : string)
  : LLMMessageBuilder -> LLMMessageBuilder :=
  append_content message (ImageUrl (image_url base64_image)).

(** [create_message]: a new object, which becomes the current message. *)
Definition create_message (role : string) (self : LLMMessageBuilder)
  : LLMMessageBuilder * nat :=
  ({| heap := heap self ++ [{| role := role; content := [] |}];
      messages := messages self;
      model := model self;
      current_message := Some (length (heap self)) |},
   length (heap self)).

Definition set_model (model : string) (self : LLMMessageBuilder) : LLMMessageBuilder :=
  {| heap := heap self; messages := messages self; model := model;
     current_message := current_message self |}.

Definition clear_conversation (self : LLMMessageBuilder) : LLMMessageBuilder :=
  {| heap := heap self; messages := []; model := model self; current_message := None |}.

(** [Conversation.add_message]. *)
Definition add_message (message : nat) (self : LLMMessageBuilder) : LLMMessageBuilder :=
  {| heap := heap self; messages := messages self ++ [message]; model := model self;
     current_message := current_message self |}.

(** [Conversation.get_messages_for_api]. *)
Definition get_messages_for_api (self : LLMMessageBuilder) : list (string * api_content) :=
  map to_dict (get_conversation_history self).

(** [get_last_n_messages]: [self.messages[-n:] if n > 0 else []]. *)
Definition get_last_n_messages (n : Z) (self : LLMMessageBuilder) : list nat :=
  if 0 <? n then drop (length (messages self) - Z.to_nat n) (messages self) else [].

Inductive exn :=
  | ValueError (message : string)
  | Exception (message : string).

(** [str(e)]. *)
Definition str (e : exn) : string :=
  match e with
  | ValueError message => message
  | Exception message => message
  end.

Inductive result :=
  | Return (answer : string)
  | Raise (e : exn).

(** What [self.client.chat.completions.create] does: it raises, or it
    returns a response; [response.choices[0]] then raises [IndexError]
    on a response without choices, or the first choice has a text. *)
Inductive reply :=
  | CreateRaises (message : string)
  | NoChoice
  | Answer (content : string).

(** [send]. The check of [current_message] is outside the [try]; any
    exception inside it is raised again as [Exception]. *)
Definition send (create : string -> list (string * api_content) -> Z -> reply)
    (max_tokens : Z) (include_history : bool) (self : LLMMessageBuilder)
  : LLMMessageBuilder * result :=
  match current_message self with
  | None => (self, Raise (ValueError "No current message to send"))
  | Some current =>
      let self1 := add_message current self in
      let messages_for_api :=
        if include_history then get_messages_for_api self1
        else map to_dict (resolve (heap self1) [current]) in
      match create (model self1) messages_for_api max_tokens with
      | CreateRaises message =>
          (self1, Raise (Exception ("Error sending message to API: " ++ message)))
      | NoChoice =>
          ({| heap := heap self1 ++ [{| role := "assistant"; content := [] |}];
              messages := messages self1; model := model self1;
              current_message := current_message self1 |},
           Raise (Exception ("Error sending message to API: " ++ "list index out of range")))
      | Answer content =>
          let assistant_message := length (heap self1) in
          let self2 :=
            add_text assistant_message content
              {| heap := heap self1 ++ [{| role := "assistant"; content := [] |}];
                 messages := messages self1; model := model self1;
                 current_message := current_message self1 |} in
          ({| heap := heap self2; messages := messages self2 ++ [assistant_message];
              model := model self2; current_message := None |},
           Return content)
      end
  end.

(** [GideonCapture.query]. [near_text] is the vector search: it raises
    (with the text of the exception), or it returns the base64 images
    of the objects found. The result is the string returned. *)
Definition query (near_text : string -> string + list string)
    (create : string -> list (string * api_content) -> Z -> reply)
    (question : string) (self : LLMMessageBuilder) : LLMMessageBuilder * string :=
  let '(self1, message) := create_message "user" self in
  let self2 := add_text message question self1 in
  match near_text question with
  | inl e => (self2, "Error processing query: " ++ e)
  | inr objects =>
      let self3 := foldl (fun s image_base64 => add_image_base64 message image_base64 s)
                         self2 objects in
      match send create 500 true self3 with
      | (self4, Return answer) => (self4, answer)
      | (self4, Raise e) => (self4, "Error processing query: " ++ str e)
      end
  end.

(** One call of [query] with what the two services do during it. *)
Record call := {
  question : string;
  near_text : string -> string + list string;
  create : string -> list (string * api_content) -> Z -> reply
}.

(** The question loop of a session: the calls in order, from a given
    builder; the strings returned are collected. *)
Definition queries (calls : list call) (self : LLMMessageBuilder)
  : LLMMessageBuilder * list string :=
  foldl (fun acc c =>
           let '(self', answer) := query (near_text c) (create c) (question c) acc.1 in
           (self', (acc.2 ++ [answer])%list))
        (self, []) calls.

(** The message [query] builds for a question and the images found. *)
Definition user_message (question : string) (objects : list string) : Message :=
  {| role := "user";
     content := Text question :: map (fun b => ImageUrl (image_url b)) objects |}.

Definition assistant_message (answer : string) : Message :=
  {| role := "assistant"; content := [Text answer] |}.

(** Every reference of the builder is to an object that exists. *)
Definition refs_ok (self : LLMMessageBuilder) : Prop :=
  Forall (fun reference => (reference < length (heap self))%nat) (messages self) /\
  forall current, current_message self = Some current ->
                  (current < length (heap self))%nat.

(** The shape of a conversation that [query] alone has built: a user
    message is a question followed by images, an assistant message is
    one text and comes right after a user message. *)
Definition user_shaped (m : Message) : Prop :=
  role m = "user" /\
  exists question images, content m = Text question :: map ImageUrl images.

Definition assistant_shaped (m : Message) : Prop :=
  role m = "assistant" /\ exists answer, content m = [Text answer].

Fixpoint well_formed (after_user : bool) (history : list Message) : Prop :=
  match history with
  | [] => True
  | m :: rest =>
      (user_shaped m /\ well_formed true rest) \/
      (after_user = true /\ assistant_shaped m /\ well_formed false rest)
  end.

End Chat.

(** ** A session of three questions *)

Module ChatExamples.
Import Chat.

(** The vector search finds one image; the completion service answers. *)
Definition answered : call :=
  {| question := "what was on screen?";
     near_text := fun _ => inr ["aGVsbG8="];
     create := fun _ _ _ => Answer "a terminal" |}.

(** The completion service is down. *)
Definition refused : call :=
  {| question := "and then?";
     near_text := fun _ => inr [];
     create := fun _ _ _ => CreateRaises "Connection error." |}.

(** The vector search is down. *)
Definition not_searched : call :=
  {| question := "anything else?";
     near_text := fun _ => inl "connection refused";
     create := fun _ _ _ => Answer "no" |}.

(** A builder with one message under way. *)
Definition drafting : LLMMessageBuilder :=
  add_text 0 "hello" (create_message "user" init).1.

End ChatExamples.


(** * Properties *)

(** ** Hamming distance *)

Module HammingFacts.
Import Dedup.

Lemma chars_length (s : string) : length (Py.chars s) = String.length s.
Proof. induction s as [|c s IH]; simpl; [reflexivity | now rewrite IH]. Qed.

Lemma filter_shift (P : nat -> Prop) `{!∀ i, Decision (P i)} (a n : nat) :
  length (filter P (seq (S a) n)) = length (filter (fun i => P (S i)) (seq a n)).
Proof.
  revert a. induction n as [|n IH]; intros a; [reflexivity|].
  cbn [seq]. rewrite !filter_cons.
  destruct (decide (P (S a))); cbn [length]; now rewrite IH.
Qed.

Lemma differ_count (l1 l2 : list ascii) :
  Py.sum (map differ (zip l1 l2)) =
  Z.of_nat (length (filter (fun i => l1 !! i ≠ l2 !! i)
                           (seq 0 (Nat.min (length l1) (length l2))))).
Proof.
  revert l2. induction l1 as [|c1 l1 IH]; intros [|c2 l2]; try reflexivity.
  cbn [zip zip_with map Py.sum foldr length Nat.min seq].
  change (foldr Z.add 0 (map differ (zip l1 l2))) with (Py.sum (map differ (zip l1 l2))).
  rewrite IH, filter_cons. unfold differ at 1. cbn [fst snd].
  destruct (decide ((c1 :: l1) !! 0%nat ≠ (c2 :: l2) !! 0%nat)) as [Hne|Heq];
    cbn [length]; rewrite filter_shift; cbn [lookup list_lookup] in *.
  - rewrite bool_decide_true by congruence. cbn [Py.int_of_bool].
    rewrite Nat2Z.inj_succ. unfold Z.succ. rewrite Z.add_comm. reflexivity.
  - rewrite bool_decide_false by (intros ?; apply Heq; congruence).
    cbn [Py.int_of_bool]. rewrite Z.add_0_l. reflexivity.
Qed.

Lemma hamming_distance_nonneg (hash1 hash2 : string) : 0 <= hamming_distance hash1 hash2.
Proof. unfold hamming_distance. rewrite differ_count. lia. Qed.

Lemma hamming_distance_self (h : string) : hamming_distance h h = 0.
Proof.
  unfold hamming_distance. induction (Py.chars h) as [|c l IH]; [reflexivity|].
  cbn [zip zip_with map Py.sum foldr]. unfold differ at 1. cbn [fst snd].
  rewrite bool_decide_false by congruence. exact IH.
Qed.

Lemma hamming_distance_sym (hash1 hash2 : string) :
  hamming_distance hash1 hash2 = hamming_distance hash2 hash1.
Proof.
  unfold hamming_distance. generalize (Py.chars hash2).
  induction (Py.chars hash1) as [|c1 l1 IH]; intros [|c2 l2]; try reflexivity.
  cbn [zip zip_with map Py.sum foldr]. f_equal.
  - unfold differ. cbn [fst snd].
    destruct (decide (c1 = c2)) as [->|Hne]; [reflexivity|].
    now rewrite !bool_decide_true by congruence.
  - apply IH.
Qed.

(** C10. [hamming_distance] is defined on every pair of strings, of
    equal length or not: its value is the number of positions inside the
    common prefix at which the two strings differ, hence between 0 and
    the length of the shorter string. *)
Theorem hamming_distance_total_on_common_prefix (hash1 hash2 : string) :
  hamming_distance hash1 hash2 = differing_positions hash1 hash2 ∧
  0 <= hamming_distance hash1 hash2
    <= Z.of_nat (Nat.min (String.length hash1) (String.length hash2)).
Proof.
  assert (E : hamming_distance hash1 hash2 = differing_positions hash1 hash2).
  { unfold hamming_distance, differing_positions.
    rewrite <- !chars_length. apply differ_count. }
  split; [exact E|]. rewrite E. unfold differing_positions. split; [lia|].
  apply inj_le.
  etransitivity; [apply length_filter|]. now rewrite length_seq.
Qed.

End HammingFacts.

(** ** The perceptual hasher *)

Module HasherFacts.
Import Dedup.

Lemma chars_append (s1 s2 : string) :
  Py.chars (s1 ++ s2)%string = (Py.chars s1 ++ Py.chars s2)%list.
Proof. induction s1 as [|c s1 IH]; simpl; [reflexivity | now rewrite IH]. Qed.

Lemma chars_join_bits (bits : list bool) :
  Py.chars (String.concat "" (map str_of_bit bits)) =
  map (fun d : bool => if d then "1"%char else "0"%char) bits.
Proof.
  induction bits as [|d bits IH]; [reflexivity|].
  destruct bits as [|d' bits].
  - destruct d; reflexivity.
  - change (String.concat "" (map str_of_bit (d :: d' :: bits)))
      with (str_of_bit d ++ "" ++ String.concat "" (map str_of_bit (d' :: bits)))%string.
    rewrite !chars_append, IH. destruct d; reflexivity.
Qed.

Lemma diff_row_length (row : list Z) (n : nat) :
  length row = S n -> length (diff_row row) = n.
Proof.
  intros Hlen. unfold diff_row. rewrite length_zip_with, removelast_firstn_len. change (tail row) with (tl row). rewrite length_tl.
  rewrite length_take. lia.
Qed.

Lemma diff_row_lookup (row : list Z) (c : nat) (left right : Z) :
  row !! c = Some left -> row !! S c = Some right ->
  diff_row row !! c = Some (bool_decide (left < right)).
Proof.
  intros Hl Hr. unfold diff_row. rewrite lookup_zip_with, lookup_tail, Hr.
  rewrite removelast_firstn_len. cbn [mbind option_bind].
  apply lookup_lt_Some in Hr.
  rewrite lookup_take_lt by lia. now rewrite Hl.
Qed.

Lemma diff_rows_same_length (pixels : list (list Z)) (n : nat) :
  Forall (fun row => length row = S n) pixels ->
  Forall (fun l => length l = n) (map diff_row pixels).
Proof.
  intros Hcols. apply Forall_fmap. eapply Forall_impl; [exact Hcols|].
  intros row Hrow. now apply diff_row_length.
Qed.

Lemma dhash_of_pixels_length (pixels : list (list Z)) (n : nat) :
  length pixels = n ->
  Forall (fun row => length row = S n) pixels ->
  String.length (dhash_of_pixels pixels) = (n * n)%nat.
Proof.
  intros Hrows Hcols.
  rewrite <- HammingFacts.chars_length. unfold dhash_of_pixels.
  rewrite chars_join_bits, length_map, length_join.
  rewrite (sum_list_fmap_same n) by now apply diff_rows_same_length.
  now rewrite length_map, Hrows.
Qed.

(** C4, as the code has it. For a readable image whose resized grid has
    [hash_size] rows of [hash_size + 1] grey levels, [calculate_dhash]
    returns a string of exactly [hash_size * hash_size] characters, one
    per pair of horizontal neighbours in row-major order; the character
    for a pixel is ["1"] when its right neighbour is strictly greater
    than the pixel itself, and ["0"] otherwise. *)
Theorem dhash_bits_right_neighbour_greater
    (open_grey_resized : string -> Z -> Z -> option (list (list Z)))
    (path : string) (hash_size : Z) (pixels : list (list Z)) :
  0 <= hash_size ->
  open_grey_resized path (hash_size + 1) hash_size = Some pixels ->
  length pixels = Z.to_nat hash_size ->
  Forall (fun row => length row = S (Z.to_nat hash_size)) pixels ->
  exists h,
    calculate_dhash open_grey_resized path hash_size = Some h /\
    Z.of_nat (String.length h) = hash_size * hash_size /\
    forall (r c : nat) (row : list Z) (left right : Z),
      pixels !! r = Some row -> row !! c = Some left -> row !! S c = Some right ->
      Py.chars h !! (r * Z.to_nat hash_size + c)%nat =
        Some (if bool_decide (left < right) then "1"%char else "0"%char).
Proof.
  intros Hpos Hopen Hrows Hcols.
  exists (dhash_of_pixels pixels). unfold calculate_dhash. rewrite Hopen.
  split; [reflexivity|].
  set (n := Z.to_nat hash_size) in *.
  assert (Hdiff : Forall (fun l => length l = n) (map diff_row pixels))
    by now apply diff_rows_same_length.
  split.
  - rewrite (dhash_of_pixels_length pixels n Hrows Hcols). unfold n. lia.
  - intros r c row left right Hr Hl Hrt.
    unfold dhash_of_pixels. rewrite chars_join_bits.
    change (map ?f ?l) with (f <$> l). rewrite list_lookup_fmap.
    assert (Hc : (c < n)%nat).
    { apply lookup_lt_Some in Hrt. rewrite Forall_forall in Hcols.
      specialize (Hcols row (list_elem_of_lookup_2 _ _ _ Hr)). lia. }
    assert (Hbit : mjoin (map diff_row pixels) !! (r * n + c)%nat
                   = Some (bool_decide (left < right))).
    { apply (join_lookup_Some_same_length' n); [exact Hdiff | exact Hc |].
      exists (diff_row row). split.
      - change (map diff_row pixels) with (diff_row <$> pixels).
        now rewrite list_lookup_fmap, Hr.
      - now apply diff_row_lookup. }
    rewrite Hbit. reflexivity.
Qed.

(** The theorem above at a grid of one row, [5 3]. *)
Lemma dhash_bits_right_neighbour_greater_witness :
  exists h,
    calculate_dhash (fun _ _ _ => Some [[5; 3]]) "frame_0.000.jpg" 1 = Some h /\
    Z.of_nat (String.length h) = 1 * 1 /\
    forall (r c : nat) (row : list Z) (left right : Z),
      [[5; 3]] !! r = Some row -> row !! c = Some left -> row !! S c = Some right ->
      Py.chars h !! (r * Z.to_nat 1 + c)%nat =
        Some (if bool_decide (left < right) then "1"%char else "0"%char).
Proof.
  apply (dhash_bits_right_neighbour_greater
           (fun _ _ _ => Some [[5; 3]]) "frame_0.000.jpg" 1 [[5; 3]]).
  - lia.
  - reflexivity.
  - reflexivity.
  - repeat constructor.
Defined.

(** C4, as the specification words it, fails: on the one-row grid
    [5 3] the pixel is strictly greater than its right neighbour, yet
    the code emits ["0"]. *)
Lemma dhash_left_greater_counterexample :
  dhash_of_pixels [[5; 3]] = "0" /\
  dhash_left_greater [[5; 3]] = "1" /\
  dhash_of_pixels [[5; 3]] <> dhash_left_greater [[5; 3]].
Proof. repeat split; vm_compute; congruence. Qed.

End HasherFacts.

(** ** Representative selection *)

Module SelectFacts.
Import Dedup.

(** The running maximum of [max]: everything before the result is
    strictly smaller, everything after it is not greater. *)
Lemma max_from_first_greatest (key : string -> Z) (l pre mid : list string) (best : string) :
  (forall x, x ∈ pre -> key x < key best) ->
  (forall x, x ∈ mid -> key x <= key best) ->
  exists pre' post,
    (pre ++ best :: mid ++ l)%list = (pre' ++ Py.max_from key best l :: post)%list /\
    (forall x, x ∈ pre' -> key x < key (Py.max_from key best l)) /\
    (forall x, x ∈ post -> key x <= key (Py.max_from key best l)).
Proof.
  revert pre mid best. induction l as [|x l IH]; intros pre mid best Hpre Hmid.
  - exists pre, mid. cbn [Py.max_from]. rewrite app_nil_r. auto.
  - cbn [Py.max_from]. destruct (Z.ltb_spec (key best) (key x)) as [Hlt|Hge].
    + destruct (IH (pre ++ best :: mid)%list [] x) as (pre' & post & E & H1 & H2).
      * intros y Hy. rewrite elem_of_app, elem_of_cons in Hy.
        destruct Hy as [Hy|[->|Hy]]; [apply Hpre in Hy | | apply Hmid in Hy]; lia.
      * intros y Hy. now apply elem_of_nil in Hy.
      * exists pre', post. split; [|auto].
        rewrite <- E. cbn [app]. now rewrite <- app_assoc.
    + destruct (IH pre (mid ++ [x])%list best) as (pre' & post & E & H1 & H2).
      * exact Hpre.
      * intros y Hy. rewrite elem_of_app, list_elem_of_singleton in Hy.
        destruct Hy as [Hy| ->]; [now apply Hmid | exact Hge].
      * exists pre', post. split; [|auto].
        rewrite <- E. now rewrite <- app_assoc.
Qed.

(** The pixel count is the product of the two sizes [image.size]
    gives, and 0 for a file that cannot be opened. *)
Lemma get_image_resolution_spec (image_size : string -> option (Z * Z)) (x : string) :
  match image_size x with
  | Some (width, height) => get_image_resolution image_size x = width * height
  | None => get_image_resolution image_size x = 0
  end.
Proof. unfold get_image_resolution. now destruct (image_size x) as [[width height]|]. Qed.

(** C9. Under [highest_res], the representative of a non-empty group is
    the member with the greatest pixel count, and the pixel count of a
    member is [width * height] of its image (0 when the image cannot
    be opened); among members that tie for the greatest count, the one
    admitted earliest wins: every member before the representative has
    a strictly smaller count, every member after it a count that is
    not greater. *)
Theorem highest_res_selects_first_greatest
    (image_size : string -> option (Z * Z)) (randbelow : list string -> nat)
    (group : list string) :
  group <> [] ->
  (forall x width height,
     image_size x = Some (width, height) ->
     get_image_resolution image_size x = width * height) /\
  (forall x, image_size x = None -> get_image_resolution image_size x = 0) /\
  exists representative pre post,
    select_one image_size randbelow "highest_res" group = Some representative /\
    group = (pre ++ representative :: post)%list /\
    (forall x, x ∈ pre ->
       get_image_resolution image_size x < get_image_resolution image_size representative) /\
    (forall x, x ∈ post ->
       get_image_resolution image_size x <= get_image_resolution image_size representative).
Proof.
  intros Hne. split; [|split].
  - intros x width height E.
    pose proof (get_image_resolution_spec image_size x) as H. now rewrite E in H.
  - intros x E.
    pose proof (get_image_resolution_spec image_size x) as H. now rewrite E in H.
  - destruct group as [|first rest]; [congruence|].
    destruct (max_from_first_greatest (get_image_resolution image_size) rest [] [] first)
      as (pre & post & E & H1 & H2).
    + intros y Hy. now apply elem_of_nil in Hy.
    + intros y Hy. now apply elem_of_nil in Hy.
    + exists (Py.max_from (get_image_resolution image_size) first rest), pre, post.
      split; [reflexivity|]. split; [exact E|]. split; assumption.
Qed.

(** Pixel counts 100, 400, 250 and 400 again: the second image is
    selected, the first of the two with 400 pixels, although the
    fourth is the widest. *)
Lemma highest_res_selects_first_greatest_witness :
  select_one Examples.sizes_100_400_250_400 (fun _ => 0%nat) "highest_res"
    ["a.jpg"; "b.jpg"; "c.jpg"; "d.jpg"] = Some "b.jpg" /\
  get_image_resolution Examples.sizes_100_400_250_400 "b.jpg" = 20 * 20 /\
  get_image_resolution Examples.sizes_100_400_250_400 "d.jpg" = 40 * 10 /\
  (forall x width height,
     Examples.sizes_100_400_250_400 x = Some (width, height) ->
     get_image_resolution Examples.sizes_100_400_250_400 x = width * height) /\
  (forall x, Examples.sizes_100_400_250_400 x = None ->
     get_image_resolution Examples.sizes_100_400_250_400 x = 0) /\
  exists representative pre post,
    select_one Examples.sizes_100_400_250_400 (fun _ => 0%nat) "highest_res"
      ["a.jpg"; "b.jpg"; "c.jpg"; "d.jpg"] = Some representative /\
    ["a.jpg"; "b.jpg"; "c.jpg"; "d.jpg"] = (pre ++ representative :: post)%list /\
    (forall x, x ∈ pre ->
       get_image_resolution Examples.sizes_100_400_250_400 x
         < get_image_resolution Examples.sizes_100_400_250_400 representative) /\
    (forall x, x ∈ post ->
       get_image_resolution Examples.sizes_100_400_250_400 x
         <= get_image_resolution Examples.sizes_100_400_250_400 representative).
Proof.
  split; [reflexivity|].
  destruct (highest_res_selects_first_greatest Examples.sizes_100_400_250_400
              (fun _ => 0%nat) ["a.jpg"; "b.jpg"; "c.jpg"; "d.jpg"])
    as (Hsome & Hnone & Hsel); [discriminate|].
  split; [apply Hsome; reflexivity|]. split; [apply Hsome; reflexivity|].
  split; [exact Hsome|]. split; [exact Hnone|]. exact Hsel.
Defined.

End SelectFacts.

(** ** Grouping *)

Module GroupFacts.
Import Dedup.

Section WithFiles.

Variable open_grey_resized : string -> Z -> Z -> option (list (list Z)).
Variable image_size : string -> option (Z * Z).
Variable randbelow : list string -> nat.

Abbreviation calculate_dhash := (calculate_dhash open_grey_resized).
Abbreviation readable := (readable open_grey_resized).
Abbreviation process_paths := (process_paths open_grey_resized).
Abbreviation select_one := (select_one image_size randbelow).
Abbreviation select_loop := (select_loop image_size randbelow).
Abbreviation deduplicate := (deduplicate open_grey_resized image_size randbelow).

(** *** [process_directory] *)

Lemma dict_set_fresh (d : list (string * string)) (key value : string) :
  key ∉ d.*1 -> dict_set d key value = (d ++ [(key, value)])%list.
Proof.
  induction d as [|[k v] d IH]; intros Hfresh; [reflexivity|].
  cbn [dict_set]. rewrite fmap_cons, not_elem_of_cons in Hfresh.
  destruct Hfresh as [Hne Hfresh]. cbn [fst] in Hne.
  rewrite bool_decide_false by congruence. cbn [app]. now rewrite IH.
Qed.

(** Distinct readable paths are recorded one by one, in listing order. *)
Lemma process_paths_readable (listing : list string) (acc : list (string * string)) :
  NoDup listing ->
  (forall p, p ∈ listing -> p ∉ acc.*1) ->
  (forall p, p ∈ listing -> readable p) ->
  exists hs,
    process_paths listing acc = (acc ++ hs)%list /\
    hs.*1 = listing /\
    forall p h, (p, h) ∈ hs -> calculate_dhash p 8 = Some h.
Proof.
  revert acc. induction listing as [|path rest IH]; intros acc Hnd Hfresh Hread.
  - exists []. rewrite app_nil_r. split; [reflexivity|]. split; [reflexivity|].
    intros p h Hin. now apply elem_of_nil in Hin.
  - apply NoDup_cons in Hnd as [Hnotin Hnd].
    destruct (Hread path) as (Hext & h & Hh & Hne); [left|].
    cbn [Dedup.process_paths]. rewrite bool_decide_true by exact Hext.
    rewrite Hh, bool_decide_true by exact Hne.
    rewrite dict_set_fresh by (apply Hfresh; left).
    destruct (IH (acc ++ [(path, h)])%list Hnd) as (hs & E & Hkeys & Hhs).
    + intros p Hp. rewrite fmap_app, elem_of_app. intros [Hin|Hin].
      * now apply (Hfresh p); [right|].
      * cbn in Hin. apply list_elem_of_singleton in Hin. subst p. contradiction.
    + intros p Hp. apply Hread. now right.
    + exists ((path, h) :: hs). rewrite E, <- app_assoc. split; [reflexivity|].
      split; [cbn; now rewrite Hkeys|].
      intros p h' Hin. apply elem_of_cons in Hin as [Heq|Hin]; [|now apply Hhs].
      now inversion Heq; subst.
Qed.

(** *** The inner loop *)

(** When every entry is within the threshold of the seed and none is
    processed yet, the scan admits all of them in order. *)
Lemma scan_group_all_close (T : Z) (hash1 : string) (items : list (string * string))
    (processed : gset string) (current_group : list string) :
  NoDup items.*1 ->
  (forall p, p ∈ items.*1 -> p ∉ processed) ->
  (forall p h, (p, h) ∈ items -> hamming_distance hash1 h <= T) ->
  scan_group T hash1 items processed current_group =
    ((current_group ++ items.*1)%list, list_to_set items.*1 ∪ processed).
Proof.
  revert processed current_group.
  induction items as [|[path2 hash2] rest IH]; intros processed current_group Hnd Hfresh Hclose.
  - cbn. rewrite app_nil_r. f_equal. set_solver.
  - cbn [scan_group]. rewrite fmap_cons in Hnd. apply NoDup_cons in Hnd as [Hnotin Hnd].
    rewrite bool_decide_true by (apply Hfresh; left).
    assert (Hle : hamming_distance hash1 hash2 <= T) by (apply (Hclose path2); left).
    apply Z.leb_le in Hle. rewrite Hle. cbn [andb].
    rewrite IH.
    + rewrite fmap_cons. cbn [fst list_to_set]. rewrite <- app_assoc. cbn [app].
      f_equal. set_solver.
    + exact Hnd.
    + intros p Hp. specialize (Hfresh p). rewrite fmap_cons in Hfresh.
      cbn [fst] in *. set_solver.
    + intros p h Hin. apply (Hclose p). now right.
Qed.

(** When the seed is the only unprocessed entry within the threshold,
    the scan admits the seed alone. *)
Lemma scan_group_only_seed (T : Z) (path1 hash1 : string) (items : list (string * string))
    (processed : gset string) (current_group : list string) :
  (forall p h, (p, h) ∈ items -> p ∉ processed -> p <> path1 ->
               T < hamming_distance hash1 h) ->
  (forall h, (path1, h) ∈ items -> hamming_distance hash1 h <= T) ->
  scan_group T hash1 items processed current_group =
    if bool_decide (path1 ∈ items.*1 /\ path1 ∉ processed)
    then ((current_group ++ [path1])%list, {[path1]} ∪ processed)
    else (current_group, processed).
Proof.
  revert processed current_group.
  induction items as [|[path2 hash2] rest IH]; intros processed current_group Hfar Hseed.
  - cbn [scan_group]. rewrite bool_decide_false; [reflexivity|].
    intros [Hin _]. now apply elem_of_nil in Hin.
  - cbn [scan_group]. rewrite fmap_cons. cbn [fst].
    destruct (decide (path2 ∉ processed)) as [Hnew|Hold];
      [rewrite (bool_decide_true _ Hnew) | rewrite (bool_decide_false _ Hold)].
    + destruct (Z.leb_spec (hamming_distance hash1 hash2) T) as [Hle|Hgt]; cbn [andb].
      * assert (path2 = path1) as ->.
        { destruct (decide (path2 = path1)) as [|Hne]; [assumption|].
          specialize (Hfar path2 hash2 ltac:(left) Hnew Hne). lia. }
        rewrite IH.
        -- rewrite bool_decide_false by set_solver.
           rewrite bool_decide_true by (split; [left | exact Hnew]). reflexivity.
        -- intros p h Hin Hp Hne. apply (Hfar p h); [now right | set_solver | exact Hne].
        -- intros h Hin. apply Hseed. now right.
      * rewrite IH.
        -- assert (path2 <> path1) as Hne.
           { intros ->. specialize (Hseed hash2 ltac:(left)). lia. }
           rewrite (bool_decide_ext (path1 ∈ rest.*1 /\ path1 ∉ processed)
                      (path1 ∈ path2 :: rest.*1 /\ path1 ∉ processed)); [reflexivity|].
           rewrite elem_of_cons. naive_solver.
        -- intros p h Hin. apply (Hfar p h). now right.
        -- intros h Hin. apply Hseed. now right.
    + cbn [andb]. rewrite IH.
      * rewrite (bool_decide_ext (path1 ∈ rest.*1 /\ path1 ∉ processed)
                   (path1 ∈ path2 :: rest.*1 /\ path1 ∉ processed)); [reflexivity|].
        rewrite elem_of_cons.
        apply dec_stable in Hold. split; [naive_solver|].
        intros [[->|Hin] Hnp]; [contradiction | auto].
      * intros p h Hin. apply (Hfar p h). now right.
      * intros h Hin. apply Hseed. now right.
Qed.

(** *** The outer loop *)

Lemma group_loop_all_processed (T : Z) (all items : list (string * string))
    (processed : gset string) (groups : list (list string)) :
  (forall p, p ∈ items.*1 -> p ∈ processed) ->
  group_loop T all items processed groups = groups.
Proof.
  induction items as [|[path1 hash1] rest IH]; intros Hdone; [reflexivity|].
  cbn [group_loop]. rewrite bool_decide_true by (apply Hdone; left).
  apply IH. intros p Hp. apply Hdone. now right.
Qed.

Lemma assoc_unique (l : list (string * string)) (k v1 v2 : string) :
  NoDup l.*1 -> (k, v1) ∈ l -> (k, v2) ∈ l -> v1 = v2.
Proof.
  induction l as [|[k' v'] l IH]; intros Hnd H1 H2; [now apply elem_of_nil in H1|].
  rewrite fmap_cons in Hnd. apply NoDup_cons in Hnd as [Hnotin Hnd]. cbn [fst] in Hnotin.
  apply elem_of_cons in H1 as [E1|H1]; apply elem_of_cons in H2 as [E2|H2].
  - congruence.
  - inversion E1; subst. exfalso. apply Hnotin.
    now apply (list_elem_of_fmap_2 fst) in H2.
  - inversion E2; subst. exfalso. apply Hnotin.
    now apply (list_elem_of_fmap_2 fst) in H1.
  - now apply IH.
Qed.

Lemma group_loop_far (T : Z) (all pre items : list (string * string))
    (processed : gset string) (groups : list (list string)) :
  all = (pre ++ items)%list ->
  NoDup all.*1 ->
  0 <= T ->
  pairwise_far T all ->
  (forall p, p ∈ processed <-> p ∈ pre.*1) ->
  group_loop T all items processed groups
    = (groups ++ map (fun p => [p]) items.*1)%list.
Proof.
  intros Hall Hnd HT Hfar. revert pre processed groups Hall.
  induction items as [|[path1 hash1] rest IH]; intros pre processed groups Hall Hproc.
  - cbn. now rewrite app_nil_r.
  - assert (Hin1 : (path1, hash1) ∈ all).
    { rewrite Hall, elem_of_app. right. left. }
    assert (Hnew : path1 ∉ processed).
    { rewrite Hproc. rewrite Hall, fmap_app, fmap_cons in Hnd.
      apply NoDup_app in Hnd as (_ & Hdisj & _).
      intros Hin. apply (Hdisj _ Hin). left. }
    cbn [group_loop]. rewrite bool_decide_false by exact Hnew.
    rewrite (scan_group_only_seed T path1 hash1).
    + rewrite bool_decide_true.
      2:{ split; [|exact Hnew]. now apply (list_elem_of_fmap_2 fst) in Hin1. }
      cbn [app]. rewrite (IH (pre ++ [(path1, hash1)])%list).
      * rewrite fmap_cons. cbn [fst map]. now rewrite <- app_assoc.
      * now rewrite <- app_assoc.
      * intros p. rewrite fmap_app, elem_of_app, elem_of_union, elem_of_singleton, Hproc.
        cbn. rewrite list_elem_of_singleton. tauto.
    + intros p h Hin _ Hne. apply (Hfar path1 hash1 p h); auto.
    + intros h Hin. rewrite (assoc_unique all path1 h hash1 Hnd Hin Hin1).
      now rewrite HammingFacts.hamming_distance_self.
Qed.

Lemma group_loop_all_close (T : Z) (all : list (string * string)) :
  all <> [] ->
  NoDup all.*1 ->
  (forall p1 h1 p2 h2, (p1, h1) ∈ all -> (p2, h2) ∈ all -> hamming_distance h1 h2 <= T) ->
  group_loop T all all ∅ [] = [all.*1].
Proof.
  intros Hne Hnd Hclose. destruct all as [|[path1 hash1] rest]; [congruence|].
  cbn [group_loop]. rewrite bool_decide_false by set_solver.
  rewrite scan_group_all_close.
  - rewrite fmap_cons. cbn [app fst].
    rewrite group_loop_all_processed; [reflexivity|].
    intros p Hp. rewrite elem_of_union, elem_of_list_to_set. left. now right.
  - exact Hnd.
  - intros p _. set_solver.
  - intros p h Hin. apply (Hclose path1 hash1 p h); [left | exact Hin].
Qed.

(** *** Seeds of the greedy clustering *)

(** What any scan guarantees: [processed] only grows, the group only
    grows by processed paths, and whatever stays unprocessed is
    farther than the threshold from the seed. *)
Lemma scan_group_spec (T : Z) (hash1 : string) (items : list (string * string))
    (processed : gset string) (current_group : list string) :
  exists added,
    (scan_group T hash1 items processed current_group).1 = (current_group ++ added)%list /\
    processed ⊆ (scan_group T hash1 items processed current_group).2 /\
    (forall q, q ∈ added -> q ∈ (scan_group T hash1 items processed current_group).2) /\
    (forall q hq, (q, hq) ∈ items ->
       q ∉ (scan_group T hash1 items processed current_group).2 ->
       T < hamming_distance hash1 hq).
Proof.
  revert processed current_group.
  induction items as [|[path2 hash2] rest IH]; intros processed current_group.
  - exists []. cbn. rewrite app_nil_r. repeat split; [set_solver..|].
    intros q hq Hin. now apply elem_of_nil in Hin.
  - cbn [scan_group].
    destruct (bool_decide (path2 ∉ processed) && (hamming_distance hash1 hash2 <=? T))
      eqn:Etest.
    + destruct (IH ({[path2]} ∪ processed) (current_group ++ [path2])%list)
        as (added & E & Hsub & Hadded & Hfar).
      exists (path2 :: added). rewrite E, <- app_assoc. split; [reflexivity|].
      split; [set_solver|]. split.
      * intros q Hq. apply elem_of_cons in Hq as [->|Hq]; [set_solver | now apply Hadded].
      * intros q hq Hin Hq. apply elem_of_cons in Hin as [Heq|Hin]; [|exact (Hfar q hq Hin Hq)].
        inversion Heq; subst. set_solver.
    + destruct (IH processed current_group) as (added & E & Hsub & Hadded & Hfar).
      exists added. split; [exact E|]. split; [exact Hsub|]. split; [exact Hadded|].
      intros q hq Hin Hq. apply elem_of_cons in Hin as [Heq|Hin]; [|exact (Hfar q hq Hin Hq)].
      inversion Heq; subst.
      apply andb_false_iff in Etest as [Eold|Egt].
      * apply bool_decide_eq_false in Eold. apply dec_stable in Eold. set_solver.
      * apply Z.leb_gt in Egt. exact Egt.
Qed.

Lemma scan_group_skips_processed (T : Z) (hash1 : string) (pre items : list (string * string))
    (processed : gset string) (current_group : list string) :
  (forall p, p ∈ pre.*1 -> p ∈ processed) ->
  scan_group T hash1 (pre ++ items) processed current_group
    = scan_group T hash1 items processed current_group.
Proof.
  induction pre as [|[path2 hash2] pre IH]; intros Hdone; [reflexivity|].
  cbn [app scan_group].
  rewrite bool_decide_false.
  - cbn [andb]. apply IH. intros p Hp. apply Hdone. now right.
  - intros Hnot. apply Hnot, Hdone. left.
Qed.

(** With a threshold that is a distance, the seed itself opens its
    group: everything listed before it is already processed. *)
Lemma scan_group_seed_first (T : Z) (path1 hash1 : string)
    (pre rest : list (string * string)) (processed : gset string) :
  0 <= T ->
  (forall p, p ∈ pre.*1 -> p ∈ processed) ->
  path1 ∉ processed ->
  exists more,
    (scan_group T hash1 (pre ++ (path1, hash1) :: rest) processed []).1 = path1 :: more /\
    path1 ∈ (scan_group T hash1 (pre ++ (path1, hash1) :: rest) processed []).2.
Proof.
  intros HT Hdone Hnew. rewrite scan_group_skips_processed by exact Hdone.
  cbn [scan_group]. rewrite bool_decide_true by exact Hnew.
  rewrite HammingFacts.hamming_distance_self.
  apply Z.leb_le in HT. rewrite HT. cbn [andb app].
  destruct (scan_group_spec T hash1 rest ({[path1]} ∪ processed) [path1])
    as (added & E & Hsub & _).
  exists added. split; [exact E | set_solver].
Qed.

(** Below zero no distance passes: nothing is ever grouped. *)
Lemma scan_group_negative (T : Z) (hash1 : string) (items : list (string * string))
    (processed : gset string) (current_group : list string) :
  T < 0 -> scan_group T hash1 items processed current_group = (current_group, processed).
Proof.
  intros HT. induction items as [|[path2 hash2] rest IH]; [reflexivity|].
  cbn [scan_group].
  pose proof (HammingFacts.hamming_distance_nonneg hash1 hash2) as Hd.
  assert (E : (hamming_distance hash1 hash2 <=? T) = false) by (apply Z.leb_gt; lia).
  rewrite E, andb_false_r. exact IH.
Qed.

Lemma group_loop_negative (T : Z) (all items : list (string * string))
    (processed : gset string) (groups : list (list string)) :
  T < 0 -> group_loop T all items processed groups = groups.
Proof.
  intros HT. revert processed.
  induction items as [|[path1 hash1] rest IH]; intros processed; [reflexivity|].
  cbn [group_loop]. destruct (bool_decide (path1 ∈ processed)); [apply IH|].
  rewrite scan_group_negative by exact HT. apply IH.
Qed.

Lemma heads_snoc (groups : list (list string)) (s : string) (more : list string) :
  heads (groups ++ [s :: more]) = (heads groups ++ [s])%list.
Proof. unfold heads. now rewrite omap_app. Qed.

Lemma group_loop_seeds (T : Z) (all : list (string * string)) :
  0 <= T ->
  NoDup all.*1 ->
  forall (items pre : list (string * string)) (processed : gset string)
         (groups : list (list string)),
    all = (pre ++ items)%list ->
    (forall p, p ∈ pre.*1 -> p ∈ processed) ->
    seeds_ok T all processed groups ->
    exists processed', seeds_ok T all processed' (group_loop T all items processed groups).
Proof.
  intros HT Hnd. induction items as [|[path1 hash1] rest IH];
    intros pre processed groups Hall Hdone Hok.
  - exists processed. exact Hok.
  - assert (Hin1 : (path1, hash1) ∈ all).
    { rewrite Hall, elem_of_app. right. left. }
    assert (Hall' : all = ((pre ++ [(path1, hash1)]) ++ rest)%list)
      by now rewrite <- app_assoc.
    cbn [group_loop]. destruct (decide (path1 ∈ processed)) as [Hold|Hnew].
    + rewrite bool_decide_true by exact Hold.
      apply (IH (pre ++ [(path1, hash1)])%list); [exact Hall' | | exact Hok].
      intros p. rewrite fmap_app, elem_of_app. cbn. rewrite list_elem_of_singleton.
      intros [Hp| ->]; auto.
    + rewrite bool_decide_false by exact Hnew.
      destruct (scan_group_seed_first T path1 hash1 pre rest processed HT Hdone Hnew)
        as (more & Ehead & Hseed).
      destruct (scan_group_spec T hash1 all processed []) as (added & _ & Hsub & _ & Hfar).
      rewrite <- Hall in Ehead, Hseed.
      destruct (scan_group T hash1 all processed []) as [current_group processed1].
      cbn [fst snd] in *. subst current_group.
      destruct Hok as (Hne & Hheads & Hunproc & Hpair).
      apply (IH (pre ++ [(path1, hash1)])%list); [exact Hall' | |].
      * intros p. rewrite fmap_app, elem_of_app. cbn. rewrite list_elem_of_singleton.
        intros [Hp| ->]; [apply Hsub, Hdone, Hp | exact Hseed].
      * unfold seeds_ok. rewrite heads_snoc. split; [|split; [|split]].
        -- apply Forall_app. split; [exact Hne|]. repeat constructor. discriminate.
        -- intros s Hs. apply elem_of_app in Hs as [Hs|Hs].
           ++ destruct (Hheads s Hs). split; [set_solver | assumption].
           ++ apply list_elem_of_singleton in Hs. subst s. split; [exact Hseed|].
              now apply (list_elem_of_fmap_2 fst) in Hin1.
        -- intros s hs q hq Hs Hsin Hqin Hq. apply elem_of_app in Hs as [Hs|Hs].
           ++ apply (Hunproc s hs q hq Hs Hsin Hqin). set_solver.
           ++ apply list_elem_of_singleton in Hs. subst s.
              rewrite (assoc_unique all path1 hs hash1 Hnd Hsin Hin1).
              exact (Hfar q hq Hqin Hq).
        -- intros s1 h1 s2 h2 Hs1 Hs2 Hdiff Hin_1 Hin_2.
           apply elem_of_app in Hs1 as [Hs1|Hs1]; apply elem_of_app in Hs2 as [Hs2|Hs2].
           ++ exact (Hpair s1 h1 s2 h2 Hs1 Hs2 Hdiff Hin_1 Hin_2).
           ++ apply list_elem_of_singleton in Hs2. subst s2.
              exact (Hunproc s1 h1 path1 h2 Hs1 Hin_1 Hin_2 Hnew).
           ++ apply list_elem_of_singleton in Hs1. subst s1.
              rewrite HammingFacts.hamming_distance_sym.
              exact (Hunproc s2 h2 path1 h1 Hs2 Hin_2 Hin_1 Hnew).
           ++ apply list_elem_of_singleton in Hs1, Hs2. congruence.
Qed.

(** *** Selection and statistics *)

Lemma select_one_member (method : string) (group : list string) :
  group <> [] -> exists r, select_one method group = Some r /\ r ∈ group.
Proof.
  intros Hne. unfold Dedup.select_one.
  destruct (String.eqb method "random").
  - destruct (lookup_lt_is_Some_2 group (randbelow group `mod` length group)) as [r Hr].
    + apply Nat.mod_upper_bound. destruct group; [congruence | cbn; lia].
    + exists r. split; [exact Hr | now apply list_elem_of_lookup_2 in Hr].
  - destruct (String.eqb method "highest_res").
    + destruct group as [|first rest]; [congruence|].
      destruct (SelectFacts.max_from_first_greatest
                  (get_image_resolution image_size) rest [] [] first)
        as (pre & post & E & _); try (intros y Hy; now apply elem_of_nil in Hy).
      eexists. split; [reflexivity|]. cbn [app] in E. rewrite E.
      rewrite elem_of_app. right. left.
    + destruct group as [|first rest]; [congruence|].
      exists first. split; [reflexivity | left].
Qed.

Lemma select_loop_singletons (method : string) (paths : list string) (reps : gset string) :
  select_loop method (map (fun p => [p]) paths) reps = Some (list_to_set paths ∪ reps).
Proof.
  revert reps. induction paths as [|p paths IH]; intros reps.
  - cbn. f_equal. set_solver.
  - cbn [map Dedup.select_loop].
    destruct (select_one_member method [p]) as (r & Hr & Hin); [discriminate|].
    apply list_elem_of_singleton in Hin. subst r. rewrite Hr, IH.
    f_equal. set_solver.
Qed.

Lemma singleton_groups_of_distant_images
    (listing : list string) (method : string) (self : ImageDeduplicator) :
  0 <= threshold self ->
  NoDup listing ->
  (forall p, p ∈ listing -> readable p) ->
  (forall p1 p2 h1 h2, p1 ∈ listing -> p2 ∈ listing -> p1 <> p2 ->
     calculate_dhash p1 8 = Some h1 -> calculate_dhash p2 8 = Some h2 ->
     threshold self < hamming_distance h1 h2) ->
  exists self' stats,
    deduplicate listing method self = Some (self', (list_to_set listing, stats)) /\
    groups self' = map (fun p => [p]) listing /\
    representatives self' = list_to_set listing /\
    unique_groups stats = len listing /\
    total_duplicates stats = 0.
Proof.
  intros HT Hnd Hread Hfar.
  destruct (process_paths_readable listing [] Hnd) as (hs & Ehs & Hkeys & Hhash).
  { intros p _ Hin. now apply elem_of_nil in Hin. }
  { exact Hread. }
  cbn [app] in Ehs.
  assert (Hgroups : group_loop (threshold self) hs hs ∅ [] = map (fun p => [p]) listing).
  { rewrite (group_loop_far (threshold self) hs [] hs); [now rewrite Hkeys | reflexivity | | exact HT | |].
    - now rewrite Hkeys.
    - intros p1 h1 p2 h2 H1 H2 Hne.
      apply (Hfar p1 p2 h1 h2); auto.
      + rewrite <- Hkeys. now apply (list_elem_of_fmap_2 fst) in H1.
      + rewrite <- Hkeys. now apply (list_elem_of_fmap_2 fst) in H2.
    - intros p. cbn. set_solver. }
  unfold Dedup.deduplicate, Dedup.select_representatives.
  cbn [Dedup.group_similar_images Dedup.process_directory Dedup.groups
       Dedup.threshold Dedup.image_hashes].
  rewrite Ehs, Hgroups, select_loop_singletons.
  assert (Hreps : list_to_set listing ∪ (∅ : gset string) = list_to_set listing)
    by set_solver.
  rewrite Hreps.
  eexists _, _. split; [reflexivity|].
  cbn [Dedup.groups get_group_statistics Dedup.unique_groups Dedup.total_duplicates
       Dedup.image_hashes Dedup.representatives].
  split; [reflexivity|]. split; [reflexivity|]. split.
  - unfold len. now rewrite length_map.
  - unfold len. rewrite size_list_to_set by exact Hnd.
    rewrite <- Hkeys, length_fmap. lia.
Qed.

Lemma process_paths_sound (listing : list string) (acc : list (string * string)) :
  NoDup listing ->
  (forall p, p ∈ listing -> p ∉ acc.*1) ->
  exists hs,
    process_paths listing acc = (acc ++ hs)%list /\
    NoDup hs.*1 /\
    (forall p, p ∈ hs.*1 -> p ∈ listing /\ readable p) /\
    (forall p h, (p, h) ∈ hs -> calculate_dhash p 8 = Some h).
Proof.
  revert acc. induction listing as [|path rest IH]; intros acc Hnd Hfresh.
  - exists []. rewrite app_nil_r. split; [reflexivity|]. split; [constructor|].
    split; intros *; intros Hin; now apply elem_of_nil in Hin.
  - apply NoDup_cons in Hnd as [Hnotin Hnd].
    assert (Hskip : exists hs,
               process_paths rest acc = (acc ++ hs)%list /\
               NoDup hs.*1 /\
               (forall p, p ∈ hs.*1 -> p ∈ path :: rest /\ readable p) /\
               (forall p h, (p, h) ∈ hs -> calculate_dhash p 8 = Some h)).
    { destruct (IH acc Hnd) as (hs & E & Hnd' & Hin & Hh).
      - intros p Hp. apply Hfresh. now right.
      - exists hs. split; [exact E|]. split; [exact Hnd'|]. split; [|exact Hh].
        intros p Hp. destruct (Hin p Hp). split; [now right | assumption]. }
    cbn [Dedup.process_paths].
    destruct (decide (Py.lower (path_suffix path) ∈ valid_extensions)) as [Hext|Hext];
      [rewrite (bool_decide_true _ Hext) | now rewrite (bool_decide_false _ Hext)].
    destruct (calculate_dhash path 8) as [h|] eqn:Hh; [|exact Hskip].
    destruct (decide (h <> "")) as [Hne|He];
      [rewrite (bool_decide_true _ Hne) | now rewrite (bool_decide_false _ He)].
    rewrite dict_set_fresh by (apply Hfresh; left).
    destruct (IH (acc ++ [(path, h)])%list Hnd) as (hs & E & Hnd' & Hin & Hhs).
    + intros p Hp. rewrite fmap_app, elem_of_app. intros [Hin|Hin].
      * now apply (Hfresh p); [right|].
      * cbn in Hin. apply list_elem_of_singleton in Hin. subst p. contradiction.
    + exists ((path, h) :: hs). rewrite E, <- app_assoc. split; [reflexivity|].
      rewrite fmap_cons. cbn [fst]. split; [|split].
      * apply NoDup_cons. split; [|exact Hnd'].
        intros Hp. destruct (Hin path Hp). contradiction.
      * intros p Hp. apply elem_of_cons in Hp as [->|Hp].
        -- split; [left|]. split; [exact Hext|]. exists h. auto.
        -- destruct (Hin p Hp). split; [now right | assumption].
      * intros p h' Hp. apply elem_of_cons in Hp as [Heq|Hp]; [|now apply Hhs].
        now inversion Heq; subst.
Qed.

Lemma select_loop_first (method : string) (groups : list (list string)) (reps : gset string) :
  method <> "random" -> method <> "highest_res" ->
  Forall (fun g => g <> []) groups ->
  select_loop method groups reps = Some (list_to_set (heads groups) ∪ reps).
Proof.
  intros Hr Hh Hne. revert reps.
  induction Hne as [|g groups Hg Hne IH]; intros reps.
  - cbn. f_equal. set_solver.
  - cbn [Dedup.select_loop]. unfold Dedup.select_one.
    apply String.eqb_neq in Hr, Hh. rewrite Hr, Hh.
    destruct g as [|s more]; [congruence|]. cbn [head].
    rewrite IH. unfold heads. cbn [omap list_omap head]. f_equal.
    unfold heads. cbn [list_to_set]. set_solver.
Qed.

(** C6, as the code has it. When representatives are chosen by the
    [first] policy (any [method] other than ['random'] and
    ['highest_res']), a second run on a directory that holds only the
    representatives of a first run yields one group per image, each
    the singleton of that image, and counts no duplicate. *)
Theorem regrouping_first_representatives_gives_singletons
    (listing : list string) (method : string) (self : ImageDeduplicator) :
  method <> "random" -> method <> "highest_res" ->
  NoDup listing ->
  exists kept self2 stats2,
    rerun_on_representatives open_grey_resized image_size randbelow listing method self
      = Some (kept, self2, stats2) /\
    groups self2 = map (fun p => [p]) kept /\
    representatives self2 = list_to_set kept /\
    unique_groups stats2 = len kept /\
    total_duplicates stats2 = 0.
Proof.
  intros Hr Hh Hnd. unfold Dedup.rerun_on_representatives.
  destruct (process_paths_sound listing [] Hnd) as (hs & Ehs & Hnd1 & Hin1 & Hhash1).
  { intros p _ Hin. now apply elem_of_nil in Hin. }
  cbn [app] in Ehs.
  set (T := threshold self).
  set (groups1 := group_loop T hs hs ∅ []).
  assert (Hseeds : Forall (fun g => g <> []) groups1 /\
                   (forall s, s ∈ heads groups1 -> s ∈ hs.*1) /\
                   (forall s1 h1 s2 h2, s1 ∈ heads groups1 -> s2 ∈ heads groups1 ->
                      s1 <> s2 -> (s1, h1) ∈ hs -> (s2, h2) ∈ hs ->
                      T < hamming_distance h1 h2) /\
                   (heads groups1 <> [] -> 0 <= T)).
  { destruct (Z.le_gt_cases 0 T) as [HT|HT].
    - destruct (group_loop_seeds T hs HT Hnd1 hs [] ∅ []) as (P & Hne & Hheads & _ & Hpair).
      + reflexivity.
      + intros p Hp. now apply elem_of_nil in Hp.
      + unfold seeds_ok. split; [constructor|].
        split; [|split]; intros *; intros Hs; now apply elem_of_nil in Hs.
      + split; [exact Hne|]. split; [apply Hheads|]. split; [exact Hpair | auto].
    - unfold groups1. rewrite group_loop_negative by exact HT.
      split; [constructor|].
      split; [|split]; try (intros *; intros Hs; now apply elem_of_nil in Hs).
      intros Habs. now contradiction Habs. }
  destruct Hseeds as (Hne1 & Hheads1 & Hpair1 & HT).
  unfold Dedup.deduplicate at 1, Dedup.select_representatives.
  cbn [Dedup.group_similar_images Dedup.process_directory Dedup.groups
       Dedup.threshold Dedup.image_hashes].
  rewrite Ehs. fold T. fold groups1.
  rewrite (select_loop_first method groups1 ∅ Hr Hh Hne1).
  cbn [Dedup.representatives].
  set (reps1 := list_to_set (heads groups1) ∪ (∅ : gset string)).
  set (kept := filter (fun p => p ∈ reps1) listing).
  assert (Hkept : forall p, p ∈ kept -> p ∈ heads groups1).
  { intros p Hp. apply list_elem_of_filter in Hp as [Hp _]. unfold reps1 in Hp. set_solver. }
  assert (Hndk : NoDup kept) by now apply NoDup_filter.
  destruct (Z.le_gt_cases 0 T) as [HT0|HTneg].
  - destruct (singleton_groups_of_distant_images kept method
                {| threshold := T; image_hashes := hs; groups := groups1;
                   representatives := reps1 |})
      as (self2 & stats2 & E2 & Hg2 & Hr2 & Hu2 & Hd2).
    + exact HT0.
    + exact Hndk.
    + intros p Hp. apply Hin1, Hheads1, Hkept, Hp.
    + intros p1 p2 h1 h2 Hp1 Hp2 Hdiff E1 E2. cbn [Dedup.threshold].
      apply Hkept in Hp1, Hp2.
      assert (Hmem : forall p h, p ∈ heads groups1 -> calculate_dhash p 8 = Some h ->
                                 (p, h) ∈ hs).
      { intros p h Hp E. apply Hheads1 in Hp.
        apply list_elem_of_fmap in Hp as ([p' h'] & -> & Hin). cbn [fst] in *.
        pose proof (Hhash1 p' h' Hin). now replace h with h' by congruence. }
      apply (Hpair1 p1 h1 p2 h2); auto.
    + exists kept, self2, stats2. rewrite E2. auto.
  - assert (Hnil : kept = []).
    { destruct kept as [|p l] eqn:Ek; [reflexivity|].
      assert (Hp : p ∈ heads groups1) by (apply Hkept; left).
      assert (0 <= T); [|lia].
      apply HT. intros Eh. rewrite Eh in Hp. now apply elem_of_nil in Hp. }
    rewrite Hnil. eexists _, _, _. split; [reflexivity|].
    cbn. repeat split; reflexivity.
Qed.

(** C8. For a directory of [N] readable images whose hashes are
    pairwise farther apart than the threshold [T] (a distance bound,
    [0 <= T]), [deduplicate] yields exactly [N] groups, the [i]-th being
    the singleton of the [i]-th image; every image is its own
    representative and no duplicate is counted. *)
Theorem distant_images_form_singleton_groups
    (listing : list string) (method : string) (self : ImageDeduplicator) :
  0 <= threshold self ->
  NoDup listing ->
  (forall p, p ∈ listing -> readable p) ->
  (forall p1 p2 h1 h2, p1 ∈ listing -> p2 ∈ listing -> p1 <> p2 ->
     calculate_dhash p1 8 = Some h1 -> calculate_dhash p2 8 = Some h2 ->
     threshold self < hamming_distance h1 h2) ->
  exists self' stats,
    deduplicate listing method self = Some (self', (list_to_set listing, stats)) /\
    groups self' = map (fun p => [p]) listing /\
    length (groups self') = length listing /\
    Forall (fun g => length g = 1%nat) (groups self') /\
    unique_groups stats = len listing /\
    total_duplicates stats = 0.
Proof.
  intros HT Hnd Hread Hfar.
  destruct (singleton_groups_of_distant_images listing method self HT Hnd Hread Hfar)
    as (self' & stats & E & Hg & _ & Hu & Hd).
  exists self', stats. split; [exact E|]. split; [exact Hg|].
  rewrite Hg, length_map. split; [reflexivity|]. split; [|auto].
  apply Forall_fmap, Forall_forall. intros p _. reflexivity.
Qed.

(** C7. For a directory of [N >= 1] readable images with the same
    pixel content, hence the same hash, and a distance bound
    [0 <= T], [deduplicate] yields exactly one group, holding all [N]
    images in listing order, one representative taken from it, and
    [total_duplicates = total_images - len(representatives) = N - 1]. *)
Theorem identical_images_form_one_group
    (listing : list string) (method : string) (self : ImageDeduplicator)
    (pixels : list (list Z)) :
  0 <= threshold self ->
  listing <> [] ->
  NoDup listing ->
  (forall p, p ∈ listing ->
     Py.lower (path_suffix p) ∈ valid_extensions /\
     open_grey_resized p 9 8 = Some pixels) ->
  length pixels = 8%nat ->
  Forall (fun row => length row = 9%nat) pixels ->
  exists self' representative stats,
    deduplicate listing method self = Some (self', ({[representative]}, stats)) /\
    representative ∈ listing /\
    groups self' = [listing] /\
    total_images stats = len listing /\
    unique_groups stats = 1 /\
    total_duplicates stats
      = total_images stats - Z.of_nat (size (representatives self')) /\
    total_duplicates stats = len listing - 1.
Proof.
  intros HT Hne Hnd Hsame Hrows Hcols.
  set (h := dhash_of_pixels pixels).
  assert (Hh : forall p, p ∈ listing -> calculate_dhash p 8 = Some h).
  { intros p Hp. unfold Dedup.calculate_dhash. change (8 + 1) with 9.
    now rewrite (proj2 (Hsame p Hp)). }
  assert (Hnonempty : h <> "").
  { intros E.
    pose proof (HasherFacts.dhash_of_pixels_length pixels 8 Hrows Hcols) as Hlen.
    fold h in Hlen. rewrite E in Hlen. discriminate. }
  destruct (process_paths_readable listing [] Hnd) as (hs & Ehs & Hkeys & Hhash).
  { intros p _ Hin. now apply elem_of_nil in Hin. }
  { intros p Hp. split; [apply (Hsame p Hp)|]. exists h. auto. }
  cbn [app] in Ehs.
  assert (Hall : forall p h', (p, h') ∈ hs -> h' = h).
  { intros p h' Hin. pose proof (Hhash p h' Hin) as E.
    rewrite Hh in E; [congruence|].
    rewrite <- Hkeys. now apply (list_elem_of_fmap_2 fst) in Hin. }
  assert (Hgroups : group_loop (threshold self) hs hs ∅ [] = [listing]).
  { rewrite <- Hkeys. apply group_loop_all_close.
    - intros ->. cbn in Hkeys. congruence.
    - now rewrite Hkeys.
    - intros p1 h1 p2 h2 H1 H2. rewrite (Hall p1 h1 H1), (Hall p2 h2 H2).
      now rewrite HammingFacts.hamming_distance_self. }
  unfold Dedup.deduplicate, Dedup.select_representatives.
  cbn [Dedup.group_similar_images Dedup.process_directory Dedup.groups
       Dedup.threshold Dedup.image_hashes].
  rewrite Ehs, Hgroups. cbn [Dedup.select_loop].
  destruct (select_one_member method listing Hne) as (r & Hr & Hin).
  rewrite Hr.
  assert (Hreps : {[r]} ∪ (∅ : gset string) = {[r]}) by set_solver.
  rewrite Hreps.
  exists {| threshold := threshold self; image_hashes := hs;
            groups := [listing]; representatives := {[r]} |}, r.
  eexists. split; [reflexivity|]. split; [exact Hin|].
  cbn [Dedup.groups get_group_statistics Dedup.unique_groups Dedup.total_duplicates
       Dedup.total_images Dedup.image_hashes Dedup.representatives].
  assert (Hlen : len hs = len listing).
  { unfold len. now rewrite <- Hkeys, length_fmap. }
  rewrite size_singleton, Hlen. repeat split; reflexivity.
Qed.

End WithFiles.

Import Examples.

Lemma three_frames_listing :
  NoDup [frame_a; frame_b; frame_c] /\
  forall p, p ∈ [frame_a; frame_b; frame_c] -> p = frame_a \/ p = frame_b \/ p = frame_c.
Proof.
  split.
  - refine (bool_decide_unpack (NoDup [frame_a; frame_b; frame_c]) _). vm_compute. exact I.
  - intros p Hp. rewrite !elem_of_cons in Hp.
    destruct Hp as [?|[?|[?|Hp]]]; auto. now apply elem_of_nil in Hp.
Qed.

Lemma valid_jpg (p : string) :
  p = frame_a \/ p = frame_b \/ p = frame_c ->
  Py.lower (path_suffix p) ∈ valid_extensions.
Proof. intros [-> | [-> | ->]]; vm_compute; left. Qed.

(** The C8 theorem at the three frames with threshold 5: all pairwise
    distances (8, 16, 8) exceed it. *)
Lemma distant_images_form_singleton_groups_witness :
  0 <= threshold (init 5) /\
  NoDup [frame_a; frame_b; frame_c] /\
  exists self' stats,
    deduplicate three_frames three_sizes no_random
      [frame_a; frame_b; frame_c] "highest_res" (init 5)
      = Some (self', (list_to_set [frame_a; frame_b; frame_c], stats)) /\
    groups self' = map (fun p => [p]) [frame_a; frame_b; frame_c] /\
    length (groups self') = length [frame_a; frame_b; frame_c] /\
    Forall (fun g => length g = 1%nat) (groups self') /\
    unique_groups stats = len [frame_a; frame_b; frame_c] /\
    total_duplicates stats = 0.
Proof.
  split; [vm_compute; discriminate|]. split; [apply three_frames_listing|].
  apply (distant_images_form_singleton_groups three_frames three_sizes no_random
           [frame_a; frame_b; frame_c] "highest_res" (init 5)).
  - vm_compute; discriminate.
  - apply three_frames_listing.
  - intros p Hp. apply three_frames_listing in Hp. split; [now apply valid_jpg|].
    destruct Hp as [-> | [-> | ->]]; eexists; (split; [vm_compute; reflexivity | discriminate]).
  - intros p1 p2 h1 h2 Hp1 Hp2 Hne E1 E2.
    apply three_frames_listing in Hp1, Hp2.
    destruct Hp1 as [-> | [-> | ->]]; destruct Hp2 as [-> | [-> | ->]]; try congruence;
      vm_compute in E1, E2; inversion E1; inversion E2; subst; vm_compute; reflexivity.
Defined.

(** The C7 theorem at three files with the same content. *)
Lemma identical_images_form_one_group_witness :
  0 <= threshold (init 10) /\
  [frame_a; frame_b; frame_c] <> [] /\
  NoDup [frame_a; frame_b; frame_c] /\
  exists self' representative stats,
    deduplicate same_frames three_sizes no_random
      [frame_a; frame_b; frame_c] "highest_res" (init 10)
      = Some (self', ({[representative]}, stats)) /\
    representative ∈ [frame_a; frame_b; frame_c] /\
    groups self' = [[frame_a; frame_b; frame_c]] /\
    total_images stats = len [frame_a; frame_b; frame_c] /\
    unique_groups stats = 1 /\
    total_duplicates stats
      = total_images stats - Z.of_nat (size (representatives self')) /\
    total_duplicates stats = len [frame_a; frame_b; frame_c] - 1.
Proof.
  split; [vm_compute; discriminate|]. split; [discriminate|].
  split; [apply three_frames_listing|].
  apply (identical_images_form_one_group same_frames three_sizes no_random
           [frame_a; frame_b; frame_c] "highest_res" (init 10) grid_b).
  - vm_compute; discriminate.
  - discriminate.
  - apply three_frames_listing.
  - intros p Hp. apply three_frames_listing in Hp. split; [now apply valid_jpg | reflexivity].
  - reflexivity.
  - repeat constructor.
Defined.

(** The C6 theorem, for the [first] policy, at the three frames with
    threshold 10. *)
Lemma regrouping_first_representatives_gives_singletons_witness :
  "first" <> "random" /\ "first" <> "highest_res" /\
  NoDup [frame_a; frame_b; frame_c] /\
  exists kept self2 stats2,
    rerun_on_representatives three_frames three_sizes no_random
      [frame_a; frame_b; frame_c] "first" (init 10) = Some (kept, self2, stats2) /\
    groups self2 = map (fun p => [p]) kept /\
    representatives self2 = list_to_set kept /\
    unique_groups stats2 = len kept /\
    total_duplicates stats2 = 0.
Proof.
  split; [discriminate|]. split; [discriminate|]. split; [apply three_frames_listing|].
  apply (regrouping_first_representatives_gives_singletons three_frames three_sizes no_random
           [frame_a; frame_b; frame_c] "first" (init 10)).
  - discriminate.
  - discriminate.
  - apply three_frames_listing.
Defined.

(** C6 as stated fails under [highest_res], the policy the session
    uses. The first run groups [a] with [b] and keeps [b] (more pixels)
    and [c]; [b] and [c] are within the threshold of each other, so the
    second run puts them in one group and counts one duplicate. *)
Lemma regrouping_highest_res_counterexample :
  exists self2 stats2,
    rerun_on_representatives three_frames three_sizes no_random
      [frame_a; frame_b; frame_c] "highest_res" (init 10)
      = Some ([frame_b; frame_c], self2, stats2) /\
    groups self2 = [[frame_b; frame_c]] /\
    groups self2 <> map (fun p => [p]) [frame_b; frame_c] /\
    unique_groups stats2 = 1 /\
    total_duplicates stats2 = 1.
Proof.
  eexists _, _. split; [vm_compute; reflexivity|].
  split; [reflexivity|]. split; [discriminate|]. split; vm_compute; reflexivity.
Qed.

End GroupFacts.

(** ** The capture pipeline *)

Module CaptureFacts.
Import Capture.

Section WithPixels.

Variable Pixels : Type.

Abbreviation state := (state Pixels).
Abbreviation started := (@started Pixels).

(** Case analysis on one step: what the thread was at, and what it did. *)
Ltac step_cases H :=
  unfold Capture.step in H;
  repeat match type of H with
         | context [match ?x with _ => _ end] => destruct x eqn:?
         | context [if ?b then _ else _] => destruct b eqn:?
         end;
  try discriminate H;
  injection H as <-.

(** An invariant of every step holds after every schedule. *)
Lemma run_invariant (Inv : state -> Prop) :
  (forall ev s s', Inv s -> step ev s = Some s' -> Inv s') ->
  forall evs s s', Inv s -> run evs s = Some s' -> Inv s'.
Proof.
  intros Hstep. induction evs as [|ev evs IH]; intros s s' Hs Hrun.
  - cbn in Hrun. congruence.
  - cbn [Capture.run] in Hrun. destruct (step ev s) as [s1|] eqn:E; [|discriminate].
    exact (IH s1 s' (Hstep ev s s1 Hs E) Hrun).
Qed.

Lemma step_queue_ok (ev : event Pixels) (s s' : state) :
  queue_ok s -> step ev s = Some s' -> queue_ok s'.
Proof.
  intros [Hlen Hput] Hstep. unfold queue_ok.
  step_cases Hstep; unfold full in *;
    cbn [frame_queue capture set_capture set_save set_stopper] in *;
    repeat match goal with
           | H : (_ <=? _)%nat = true |- _ => apply Nat.leb_le in H
           | H : (_ <=? _)%nat = false |- _ => apply Nat.leb_gt in H
           | H : frame_queue _ = _ |- _ => rewrite H in *
           end;
    cbn [length] in *;
    (split; [try rewrite length_app; cbn [length]; try lia
            | intros item' Hc; try discriminate Hc; try (pose proof (Hput _ Hc)); try lia]).
Qed.

Lemma step_fifo_ok (ev : event Pixels) (s s' : state) :
  fifo_ok s -> step ev s = Some s' -> fifo_ok s'.
Proof.
  intros (taken & E & Hsub & Hmem) Hstep. unfold fifo_ok.
  step_cases Hstep;
    cbn [frame_queue enqueued written discarded set_capture set_save set_stopper];
    try (exists taken; split; [congruence|]; split; [exact Hsub | exact Hmem]).
  (* put: the queue and the history grow together *)
  { exists taken. rewrite E, <- app_assoc. auto. }
  (* a frame leaves the queue: written, dropped by a failed write, or
     drained by stop_capture *)
  all: match type of E with
       | _ = (_ ++ ?x :: _)%list => exists (taken ++ [x])%list
       end;
    (split; [now rewrite E, <- app_assoc|]);
    (split; [first [now apply sublist_app | now apply sublist_inserts_r]|]);
    intros g Hg; rewrite elem_of_app in Hg; destruct Hg as [Hg|Hg];
    [destruct (Hmem g Hg); rewrite ?elem_of_app; auto | rewrite ?elem_of_app; auto].
Qed.

Lemma fifo_enqueued (s : state) (f : Frame Pixels) :
  fifo_ok s -> f ∈ enqueued s ->
  f ∈ written s \/ f ∈ discarded s \/ f ∈ frame_queue s.
Proof.
  intros (taken & E & _ & Hmem) Hf. rewrite E, elem_of_app in Hf.
  destruct Hf as [Hf|Hf]; [|auto]. destruct (Hmem f Hf); auto.
Qed.

Lemma step_stop_ok (ev : event Pixels) (s s' : state) :
  stop_ok s -> step ev s = Some s' -> stop_ok s'.
Proof.
  intros (Hidle & Hset & Hsub) Hstep. unfold stop_ok.
  step_cases Hstep;
    cbn [stop_event stopper enqueued enqueued_at_stop set_capture set_save set_stopper];
    (split; [|split];
     [ intros Hf;
       first [ congruence
             | destruct (Hidle ltac:(congruence)); first [congruence | split; congruence] ]
     | first [ exact Hset | intros _; apply Hset; congruence | eauto ]
     | try exact Hsub ]).
  - intros l Hl f Hf. rewrite elem_of_app. left. eauto.
  - intros l Hl f Hf. now inversion Hl; subst.
Qed.

Lemma step_drained_ok (ev : event Pixels) (s s' : state) :
  fifo_ok s -> stop_ok s -> drained_ok s -> step ev s = Some s' -> drained_ok s'.
Proof.
  intros Hfifo (Hidle & Hset & Hsub) Hdrained Hstep. unfold drained_ok in *.
  step_cases Hstep;
    cbn [save stop_event written discarded enqueued_at_stop
         set_capture set_save set_stopper];
    intros Hret; try discriminate Hret;
    try (destruct (Hdrained ltac:(congruence)) as (Hstop & l' & Hl' & Hall);
         first [ discriminate Hstop
               | split; [congruence|]; exists l'; split; [exact Hl'|];
                 intros g Hg; destruct (Hall g Hg);
                 rewrite ?elem_of_app; auto; fail ]).
  (* the test of save_frames succeeds: the queue is empty, so whatever
     was enqueued has been taken *)
  match goal with
  | H : _ && _ = true |- _ => apply andb_true_iff in H as [Hstop Hempty]
  end.
  apply bool_decide_eq_true in Hempty.
  split; [exact Hstop|]. destruct (Hset Hstop) as [l Hl]. exists l. split; [exact Hl|].
  intros f Hf.
  destruct (fifo_enqueued s f Hfifo (Hsub l Hl f Hf)) as [?|[?|Hq]]; auto.
  rewrite Hempty in Hq. now apply elem_of_nil in Hq.
Qed.

(** *** The timeout of the queue wait *)

(** The class [Queue] has no attribute [Empty]: whatever is raised
    inside the [try] of [save_frames], an [AttributeError] leaves the
    function. *)
Lemma save_frames_handlers_raise (e : exn) :
  save_frames_handlers e = Propagate AttributeError.
Proof. reflexivity. Qed.

(** A wait that times out on an empty queue ends the writer thread. *)
Lemma save_frames_timeout_ends_thread :
  exists s : state,
    run [SaveTest; SaveTimeout] started = Some s /\
    save s = SRaised AttributeError /\
    stop_event s = false.
Proof. eexists. split; [reflexivity|]. split; reflexivity. Qed.

Lemma started_ok : queue_ok started /\ fifo_ok started /\ stop_ok started /\ drained_ok started.
Proof.
  split; [|split; [|split]].
  - split; [cbn; lia | discriminate].
  - exists []. split; [reflexivity|]. split; [constructor|].
    intros f Hf. now apply elem_of_nil in Hf.
  - split; [auto|]. split; discriminate.
  - discriminate.
Qed.

Lemma run_ok (evs : list (event Pixels)) (s : state) :
  run evs started = Some s ->
  queue_ok s /\ fifo_ok s /\ stop_ok s /\ drained_ok s.
Proof.
  apply (run_invariant (fun s => queue_ok s /\ fifo_ok s /\ stop_ok s /\ drained_ok s));
    [|exact started_ok].
  intros ev s0 s1 (Hq & Hf & Hs & Hd) Hstep.
  split; [|split; [|split]];
    eauto using step_queue_ok, step_fifo_ok, step_stop_ok, step_drained_ok.
Qed.

(** C5. Whatever the schedule, the queue never holds more than
    [maxsize] items. A frame grabbed while the queue is full is
    dropped: the step is taken at once, the queue and the history of
    enqueued frames are unchanged, and the producer is back at the
    test of its loop. A producer that found room is never blocked in
    [put]: the step is enabled and appends the frame. *)
Theorem queue_bounded_full_queue_drops (evs : list (event Pixels)) (s : state) :
  run evs started = Some s ->
  (length (frame_queue s) <= maxsize)%nat /\
  (forall item, capture s = CBody -> full (frame_queue s) = true ->
     exists s', step (CaptureGrab (Some item)) s = Some s' /\
                frame_queue s' = frame_queue s /\
                enqueued s' = enqueued s /\
                capture s' = CTest) /\
  (forall item, capture s = CPut item ->
     exists s', step CapturePut s = Some s' /\
                frame_queue s' = (frame_queue s ++ [item])%list /\
                capture s' = CTest).
Proof.
  intros Hrun. destruct (run_ok evs s Hrun) as ([Hlen Hput] & _).
  split; [exact Hlen|]. split.
  - intros item Hc Hfull. eexists. unfold step. rewrite Hc, Hfull.
    split; [reflexivity|]. repeat split.
  - intros item Hc. specialize (Hput item Hc).
    assert (Hfull : full (frame_queue s) = false) by (apply Nat.leb_gt; exact Hput).
    eexists. unfold step. rewrite Hc, Hfull. split; [reflexivity|]. repeat split.
Qed.

(** C2, as the code has it. [save_frames] returns only from a test
    that finds the stop event set and the queue empty. Once it has
    returned, every frame enqueued before the stop event was set has
    been taken from the queue, and was either written or discarded
    unwritten (by the drain loop of [stop_capture], or by a write that
    failed). The frames written are a subsequence of the frames
    enqueued, in the same order. Nothing is said about a wait that
    times out. *)
Theorem writer_returns_after_stop_with_queue_taken
    (evs : list (event Pixels)) (s : state) :
  run evs started = Some s ->
  (forall s', step SaveTest s = Some s' -> save s' = SReturned ->
              stop_event s = true /\ frame_queue s = []) /\
  (save s = SReturned ->
     stop_event s = true /\
     exists l, enqueued_at_stop s = Some l /\
               forall f, f ∈ l -> f ∈ written s \/ f ∈ discarded s) /\
  sublist (written s) (enqueued s).
Proof.
  intros Hrun. destruct (run_ok evs s Hrun) as (_ & Hfifo & _ & Hdrained).
  split; [|split; [exact Hdrained|]].
  - intros s' Hstep Hret. unfold step in Hstep.
    destruct (capture s), (save s), (stopper s); try discriminate Hstep;
      injection Hstep as <-; cbn [save set_save] in Hret;
      (destruct (stop_event s && empty (frame_queue s)) eqn:E; [|discriminate Hret]);
      apply andb_true_iff in E as [Hstop Hempty];
      apply bool_decide_eq_true in Hempty; auto.
  - destruct Hfifo as (taken & E & Hsub & _). rewrite E. now apply sublist_inserts_r.
Qed.

End WithPixels.

(** Thirty frames fill the queue. The thirty-first is grabbed with
    the queue full and is dropped; the thirtieth was grabbed with room
    left, and its [put] goes through. *)
Lemma queue_bounded_full_queue_drops_witness :
  (run (Examples.burst 30 ++ [CaptureTest])%list (@started nat)
     = Some Examples.full_queue_at_body /\
   capture Examples.full_queue_at_body = CBody /\
   full (frame_queue Examples.full_queue_at_body) = true /\
   (length (frame_queue Examples.full_queue_at_body) <= maxsize)%nat /\
   exists s', step (CaptureGrab (Some (Examples.burst_frame 30))) Examples.full_queue_at_body
                = Some s' /\
              frame_queue s' = frame_queue Examples.full_queue_at_body /\
              enqueued s' = enqueued Examples.full_queue_at_body /\
              capture s' = CTest) /\
  (run (Examples.burst 29
          ++ [CaptureTest; CaptureGrab (Some (Examples.burst_frame 29))])%list
       (@started nat)
     = Some Examples.room_found /\
   capture Examples.room_found = CPut (Examples.burst_frame 29) /\
   exists s', step CapturePut Examples.room_found = Some s' /\
              frame_queue s'
                = (frame_queue Examples.room_found ++ [Examples.burst_frame 29])%list /\
              capture s' = CTest).
Proof.
  assert (Hfull : run (Examples.burst 30 ++ [CaptureTest])%list (@started nat)
                  = Some Examples.full_queue_at_body) by (vm_compute; reflexivity).
  assert (Hroom : run (Examples.burst 29
                         ++ [CaptureTest; CaptureGrab (Some (Examples.burst_frame 29))])%list
                      (@started nat)
                  = Some Examples.room_found) by (vm_compute; reflexivity).
  split.
  - destruct (queue_bounded_full_queue_drops nat _ Examples.full_queue_at_body Hfull)
      as (Hlen & Hdrop & _).
    split; [exact Hfull|]. split; [reflexivity|]. split; [reflexivity|].
    split; [exact Hlen|].
    apply Hdrop; reflexivity.
  - destruct (queue_bounded_full_queue_drops nat _ Examples.room_found Hroom)
      as (_ & _ & Hput).
    split; [exact Hroom|]. split; [reflexivity|].
    apply Hput; reflexivity.
Defined.

(** One frame is enqueued, taken and written; then the session stops. *)
Lemma writer_returns_after_stop_with_queue_taken_witness :
  run Examples.write_then_stop (@started nat) = Some Examples.written_and_stopped /\
  (forall s', step SaveTest Examples.written_and_stopped = Some s' -> save s' = SReturned ->
              stop_event Examples.written_and_stopped = true /\
              frame_queue Examples.written_and_stopped = []) /\
  (save Examples.written_and_stopped = SReturned ->
     stop_event Examples.written_and_stopped = true /\
     exists l, enqueued_at_stop Examples.written_and_stopped = Some l /\
               forall f, f ∈ l -> f ∈ written Examples.written_and_stopped
                                  \/ f ∈ discarded Examples.written_and_stopped) /\
  sublist (written Examples.written_and_stopped) (enqueued Examples.written_and_stopped).
Proof.
  split; [reflexivity|].
  apply (writer_returns_after_stop_with_queue_taken nat Examples.write_then_stop
           Examples.written_and_stopped).
  reflexivity.
Defined.

(** C2 as stated fails. A frame is enqueued; [stop_capture] sets the
    event, waits for the producer, and its drain loop takes the frame
    from the queue before the writer does; the writer then finds the
    event set and the queue empty and returns. The frame was enqueued
    before cancellation and is never written. *)
Lemma frame_enqueued_before_stop_not_written_counterexample :
  run Examples.stop_drains_queue (@started nat) = Some Examples.drained_unwritten /\
  save Examples.drained_unwritten = SReturned /\
  enqueued_at_stop Examples.drained_unwritten = Some [(7%nat, 0.05%Q)] /\
  ((7%nat, 0.05%Q) ∉ written Examples.drained_unwritten) /\
  saved Examples.drained_unwritten = [].
Proof.
  split; [reflexivity|]. split; [reflexivity|]. split; [reflexivity|].
  split; [|reflexivity]. cbn. apply not_elem_of_nil.
Qed.

End CaptureFacts.


(** ** Frame names *)

Module FrameNameFacts.
Import FrameName.

(** Splitting leaves a text without the separator in one piece. *)
Lemma split_chars_none (sep : ascii) (l : list ascii) :
  sep ∉ l -> Py.split_chars sep l = [l].
Proof.
  induction l as [|c l IH]; intros Hno; [reflexivity|].
  apply not_elem_of_cons in Hno as [Hne Hno]. cbn [Py.split_chars].
  destruct (Ascii.eqb_spec c sep) as [->|_]; [congruence|].
  now rewrite IH.
Qed.

Lemma split_chars_cons (sep : ascii) (l : list ascii) :
  exists piece pieces, Py.split_chars sep l = piece :: pieces.
Proof.
  destruct l as [|c l]; [now exists [], []|]. cbn [Py.split_chars].
  destruct (Ascii.eqb c sep); [eauto|].
  destruct (Py.split_chars sep l); eauto.
Qed.

(** The pieces of [l1 + sep + l2] are those of [l1], then those of [l2]. *)
Lemma split_chars_app (sep : ascii) (l1 l2 : list ascii) :
  Py.split_chars sep (l1 ++ sep :: l2)
    = (Py.split_chars sep l1 ++ Py.split_chars sep l2)%list.
Proof.
  induction l1 as [|c l1 IH].
  - cbn [app Py.split_chars]. now rewrite Ascii.eqb_refl.
  - cbn [app Py.split_chars]. rewrite IH. destruct (Ascii.eqb c sep); [reflexivity|].
    destruct (split_chars_cons sep l1) as (piece & pieces & ->). reflexivity.
Qed.

Lemma chars_of_list (l : list ascii) : Py.chars (string_of_list_ascii l) = l.
Proof. apply list_ascii_of_string_of_list_ascii. Qed.

Lemma last_pieces (pieces : list (list ascii)) :
  List.last (map string_of_list_ascii pieces) "" = string_of_list_ascii (List.last pieces []).
Proof.
  induction pieces as [|p ps IH]; [reflexivity|].
  destruct ps; [reflexivity|]. exact IH.
Qed.

(** *** Decimal digits *)

Lemma digits_of_uint (d : Decimal.uint) :
  Forall is_digit (Py.chars (NilEmpty.string_of_uint d)).
Proof.
  unfold Py.chars.
  induction d; cbn [NilEmpty.string_of_uint list_ascii_of_string];
    [constructor | (apply Forall_cons; split; [unfold is_digit; vm_compute; lia | exact IHd]) ..].
Qed.

Lemma to_uint_not_nil (n : N) : N.to_uint n <> Decimal.Nil.
Proof.
  intros E. pose proof (DecimalN.Unsigned.of_to n) as H. rewrite E in H.
  cbn in H. subst n. discriminate E.
Qed.

Lemma str_of_N_nil_empty (n : N) : str_of_N n = NilEmpty.string_of_uint (N.to_uint n).
Proof.
  unfold str_of_N, NilZero.string_of_uint.
  pose proof (to_uint_not_nil n). destruct (N.to_uint n); congruence.
Qed.

Lemma digits_of_N (n : N) : Forall is_digit (Py.chars (str_of_N n)).
Proof. rewrite str_of_N_nil_empty. apply digits_of_uint. Qed.

Lemma str_of_N_not_empty (n : N) : str_of_N n <> "".
Proof.
  rewrite str_of_N_nil_empty. pose proof (to_uint_not_nil n).
  destruct (N.to_uint n); cbn; congruence.
Qed.

Lemma digits_of_pad3 (s : string) :
  Forall is_digit (Py.chars s) -> Forall is_digit (Py.chars (pad3 s)).
Proof.
  intros Hs. unfold pad3.
  assert (H0 : is_digit "0") by (unfold is_digit; vm_compute; lia).
  destruct (String.length s) as [|[|[|n]]]; try exact Hs; cbn; repeat (constructor; [exact H0|]);
    exact Hs.
Qed.

Lemma not_digit_absent (c : ascii) (l : list ascii) :
  ~ is_digit c -> Forall is_digit l -> c ∉ l.
Proof.
  intros Hc Hl Hin. rewrite Forall_forall in Hl. exact (Hc (Hl c Hin)).
Qed.

Lemma digits_value_str_of_N (n : N) : digits_value (str_of_N n) = Some n.
Proof.
  unfold digits_value. pose proof (str_of_N_not_empty n) as Hne.
  destruct (str_of_N n) eqn:Es; [congruence|].
  rewrite <- Es, str_of_N_nil_empty, NilEmpty.usu. cbn [option_map].
  now rewrite DecimalN.Unsigned.of_to.
Qed.

Lemma is_digit_b_true (c : ascii) : is_digit c -> is_digit_b c = true.
Proof.
  unfold is_digit, is_digit_b. intros [H1 H2].
  apply andb_true_iff. split; apply Nat.leb_le; assumption.
Qed.

Lemma digit_not_space (c : ascii) : is_digit c -> is_space c = false.
Proof.
  unfold is_digit, is_space. intros Hc. apply bool_decide_eq_false.
  rewrite !elem_of_cons, elem_of_nil. lia.
Qed.

Lemma lstrip_digits (l : list ascii) : Forall is_digit l -> lstrip l = l.
Proof.
  destruct 1 as [|c l Hc _]; [reflexivity|].
  cbn [lstrip]. now rewrite digit_not_space.
Qed.

Lemma strip_digits (l : list ascii) : Forall is_digit l -> strip l = l.
Proof.
  intros Hl. unfold strip. rewrite (lstrip_digits l Hl).
  rewrite lstrip_digits by now apply Forall_reverse.
  apply reverse_involutive.
Qed.

Lemma digit_not (c other : ascii) : is_digit c -> ~ is_digit other -> Ascii.eqb c other = false.
Proof.
  intros Hc Ho. destruct (Ascii.eqb_spec c other) as [->|]; [contradiction | reflexivity].
Qed.

Lemma without_underscores_digits (l : list ascii) :
  Forall is_digit l ->
  forall prev, prev <> Some "_"%char -> without_underscores prev l = Some l.
Proof.
  induction 1 as [|c l Hc _ IH]; intros prev Hprev; cbn [without_underscores].
  - now rewrite bool_decide_false.
  - rewrite (digit_not c "_" Hc) by (unfold is_digit; vm_compute; lia).
    rewrite bool_decide_false by exact Hprev. cbn [andb].
    rewrite IH; [reflexivity|].
    intros [= ->]. revert Hc. unfold is_digit. vm_compute. lia.
Qed.

Lemma split_exponent_digits (l : list ascii) :
  Forall is_digit l -> split_exponent l = (l, None).
Proof.
  induction 1 as [|c l Hc _ IH]; [reflexivity|]. cbn [split_exponent].
  rewrite (digit_not c "e" Hc), (digit_not c "E" Hc)
    by (unfold is_digit; vm_compute; lia).
  cbn [orb]. now rewrite IH.
Qed.

Lemma lower_digits (l : list ascii) : Forall is_digit l -> map Py.lower_char l = l.
Proof.
  induction 1 as [|c l Hc _ IH]; [reflexivity|]. cbn [map]. rewrite IH. f_equal.
  unfold Py.lower_char, is_digit in *.
  replace (65 <=? nat_of_ascii c)%nat with false by (symmetry; apply Nat.leb_gt; lia).
  reflexivity.
Qed.

(** Some texts [float] accepts besides plain digits, and some it
    refuses. *)
Lemma float_accepted_texts :
  float "1e3" = Some (Finite 1000) /\
  float " 12" = Some (Finite 12) /\
  float "1_000" = Some (Finite 1000) /\
  float "+.5" = Some (Finite (5 # 10)) /\
  float "inf" = Some (Infinity false) /\
  float "-Infinity" = Some (Infinity true) /\
  float "nan" = Some NaN /\
  float "" = None /\
  float "." = None /\
  float "e3" = None /\
  float "1__0" = None /\
  float "1 2" = None /\
  float "0x10" = None.
Proof. repeat split; vm_compute; reflexivity. Qed.

(** The timestamp expression on names that are not frame names. *)
Lemma timestamp_of_other_names :
  timestamp_of_path "temp_photo/shot_1e3.jpg" = Some (Finite 1000) /\
  timestamp_of_path "temp_photo/shot_inf.jpg" = Some (Infinity false) /\
  timestamp_of_path "temp_photo/picture.jpg" = None /\
  timestamp_of_path "temp_photo/shot_one.jpg" = None.
Proof. repeat split; vm_compute; reflexivity. Qed.

(** [float] of the decimal text of a natural number is that number. *)
Lemma float_str_of_N (n : N) : float (str_of_N n) = Some (Finite (inject_Z (Z.of_N n))).
Proof.
  assert (Hu : unsigned_float (str_of_N n) = Some (inject_Z (Z.of_N n))).
  { unfold unsigned_float, Py.split.
    rewrite split_chars_none.
    - cbn [map]. rewrite string_of_list_ascii_of_string, digits_value_str_of_N.
      reflexivity.
    - apply not_digit_absent; [unfold is_digit; vm_compute; lia | apply digits_of_N]. }
  pose proof (digits_of_N n) as Hd. pose proof (str_of_N_not_empty n) as Hne.
  unfold float. rewrite without_underscores_digits by (exact Hd || discriminate).
  rewrite strip_digits by exact Hd.
  assert (Hdec : decimal (Py.chars (str_of_N n)) = Some (inject_Z (Z.of_N n))).
  { unfold decimal. rewrite split_exponent_digits by exact Hd.
    unfold Py.chars. now rewrite string_of_list_ascii_of_string, Hu. }
  assert (Hword : forall w, ~ Forall is_digit (Py.chars w) ->
                            map Py.lower_char (Py.chars (str_of_N n)) <> Py.chars w).
  { intros w Hw E. rewrite lower_digits in E by exact Hd. apply Hw. now rewrite <- E. }
  assert (Hi : ~ is_digit "i") by (unfold is_digit; vm_compute; lia).
  assert (Hn : ~ is_digit "n") by (unfold is_digit; vm_compute; lia).
  destruct (Py.chars (str_of_N n)) as [|c l] eqn:Es.
  { destruct (str_of_N n); [congruence | discriminate Es]. }
  pose proof Hd as Hd'. apply Forall_cons in Hd' as [Hc _].
  unfold signed.
  assert (Esign : match c :: l with
                  | "-"%char :: body => (true, body)
                  | "+"%char :: body => (false, body)
                  | _ => (false, c :: l)
                  end = (false, c :: l)).
  { destruct (Ascii.eqb_spec c "-") as [->|Hm];
      [exfalso; revert Hc; unfold is_digit; vm_compute; lia|].
    destruct (Ascii.eqb_spec c "+") as [->|Hp];
      [exfalso; revert Hc; unfold is_digit; vm_compute; lia|].
    destruct c as [[] [] [] [] [] [] [] []]; try reflexivity; congruence. }
  rewrite Esign.
  rewrite bool_decide_false.
  - rewrite bool_decide_false.
    + now rewrite Hdec.
    + apply Hword. intros H. apply Forall_cons in H as [H _]. exact (Hn H).
  - intros [E|E]; revert E; apply Hword; intros H; apply Forall_cons in H as [H _];
      exact (Hi H).
Qed.

(** What [add_recordings] reads back from a frame path: the digits
    before the first dot of the name, that is the whole seconds. *)
Lemma timestamp_of_frame_path (folder : string) (secs : N) (frac : list ascii) :
  Forall is_digit frac ->
  timestamp_of_path
    (folder ++ "/" ++ "frame_" ++ str_of_N secs ++ "." ++ string_of_list_ascii frac ++ ".jpg")
  = Some (Finite (inject_Z (Z.of_N secs))).
Proof.
  intros Hfrac.
  pose proof (digits_of_N secs) as Hsecs.
  set (D := Py.chars (str_of_N secs)) in *.
  set (rest := (D ++ "."%char :: frac ++ Py.chars ".jpg")%list).
  set (name := (Py.chars "frame" ++ "_"%char :: rest)%list).
  assert (Hpath : Py.chars (folder ++ "/" ++ "frame_" ++ str_of_N secs ++ "."
                            ++ string_of_list_ascii frac ++ ".jpg")
                  = (Py.chars folder ++ "/"%char :: name)%list).
  { unfold name, rest, D. rewrite !HasherFacts.chars_append, chars_of_list. reflexivity. }
  assert (Hno : forall c, ~ is_digit c -> c ∉ Py.chars "frame" -> c ∉ Py.chars ".jpg" ->
                          c <> "."%char -> c ∉ rest).
  { intros c Hc _ Hj Hdot. unfold rest.
    rewrite elem_of_app, elem_of_cons, elem_of_app.
    intros [Hin|[Hin|[Hin|Hin]]]; try contradiction.
    - exact (not_digit_absent c D Hc Hsecs Hin).
    - exact (not_digit_absent c frac Hc Hfrac Hin). }
  assert (Hslash : "/"%char ∉ name).
  { unfold name. rewrite elem_of_app, elem_of_cons.
    intros [Hin|[Hin|Hin]]; [vm_compute in Hin; set_solver | discriminate |].
    revert Hin. apply Hno; [unfold is_digit; vm_compute; lia | | | discriminate];
      vm_compute; set_solver. }
  assert (Hunder : "_"%char ∉ rest).
  { apply Hno; [unfold is_digit; vm_compute; lia | | | discriminate];
      vm_compute; set_solver. }
  unfold timestamp_of_path, Py.split. rewrite Hpath.
  rewrite last_pieces, split_chars_app, (split_chars_none "/" name Hslash).
  rewrite List.last_last, chars_of_list. unfold name.
  rewrite split_chars_app, (split_chars_none "_" rest Hunder).
  rewrite (split_chars_none "_" (Py.chars "frame")) by (vm_compute; set_solver).
  cbn [app map lookup list_lookup]. rewrite chars_of_list. unfold rest.
  rewrite split_chars_app, (split_chars_none "." D).
  - cbn [app map List.hd]. unfold D. rewrite string_of_list_ascii_of_string.
    apply float_str_of_N.
  - apply not_digit_absent; [unfold is_digit; vm_compute; lia | exact Hsecs].
Qed.

Lemma append_assoc (s1 s2 s3 : string) : ((s1 ++ s2) ++ s3 = s1 ++ s2 ++ s3)%string.
Proof.
  induction s1 as [|c s1 IH]; [reflexivity|].
  change (String c ((s1 ++ s2) ++ s3) = String c (s1 ++ s2 ++ s3))%string. now f_equal.
Qed.

(** For every session-relative timestamp [0 <= t], the name written by
    [save_frames] is read back by [add_recordings] as the whole seconds
    of [t] rounded to the millisecond: the fraction is dropped with the
    extension by [split('.')[0]]. *)
Lemma timestamp_of_frame_filename (folder : string) (t : Q) :
  (0 <= t)%Q ->
  timestamp_of_path (folder ++ "/" ++ frame_filename t)
  = Some (Finite (inject_Z (Z.of_N (round_half_even (Qabs t * 1000) / 1000)))).
Proof.
  intros Ht. unfold frame_filename, format_3f.
  destruct (Qlt_le_dec t 0) as [Hneg|_]; [exfalso; exact (Qlt_not_le _ _ Hneg Ht)|].
  set (ms := round_half_even (Qabs t * 1000)).
  rewrite <- (string_of_list_ascii_of_string (pad3 (str_of_N (ms mod 1000)))).
  change ("" ++ ?x)%string with x. rewrite !append_assoc.
  apply (timestamp_of_frame_path folder (ms / 1000)).
  apply digits_of_pad3, digits_of_N.
Qed.

(** C3, at the timestamp 12.345 s. [save_frames] writes
    [frame_12.345.jpg]; from that name [add_recordings] computes the
    timestamp 12.0: the milliseconds are lost, the round trip fails. *)
Theorem timestamp_round_trip_loses_milliseconds :
  frame_filename (12345 # 1000) = "frame_12.345.jpg" /\
  timestamp_of_path ("temp_photo/" ++ frame_filename (12345 # 1000))
    = Some (Finite (12 # 1)) /\
  ~ (12 # 1 == 12345 # 1000)%Q.
Proof.
  split; [reflexivity|]. split; [vm_compute; reflexivity|].
  intros H. vm_compute in H. discriminate H.
Qed.

End FrameNameFacts.

(** ** The deduplication cycle of the session *)

Module SessionFacts.
Import Session.

Section WithStorage.

Variable store : collaborator.
Variable isfile : string -> bool.

Lemma os_remove_spec (path : string) (folder folder' : list string) :
  os_remove path folder = Some folder' ->
  forall p, p ∈ folder' <-> p ∈ folder /\ p <> path.
Proof.
  unfold os_remove. destruct (bool_decide (path ∈ folder)); [|discriminate].
  intros [= <-] p. rewrite list_elem_of_filter. tauto.
Qed.

(** A loop that reaches its end has removed exactly the files of
    [source], one by one, each right after it was added. *)
Lemma add_loop_returns (source folder added folder' added' : list string) :
  add_loop store isfile source folder added = (folder', Some added') ->
  added' = (added ++ source)%list /\
  forall p, p ∈ folder' <-> p ∈ folder /\ p ∉ source.
Proof.
  revert folder added. induction source as [|path rest IH]; intros folder added Hloop.
  - cbn in Hloop. injection Hloop as <- <-. rewrite app_nil_r. split; [reflexivity|].
    intros p. rewrite elem_of_nil. tauto.
  - cbn [add_loop] in Hloop.
    destruct (bool_decide (path ∈ folder) && isfile path); [|discriminate].
    destruct (FrameName.timestamp_of_path path); [|discriminate].
    destruct (add_raises store path); [discriminate|].
    destruct (os_remove path folder) as [folder1|] eqn:Hrm; [|discriminate].
    destruct (IH folder1 (added ++ [path])%list Hloop) as [-> Hin].
    rewrite <- app_assoc. split; [reflexivity|].
    intros p. rewrite Hin, (os_remove_spec path folder folder1 Hrm), not_elem_of_cons.
    tauto.
Qed.

(** Whatever happens, the loop removes nothing but files of [source]. *)
Lemma add_loop_keeps_others (source folder added : list string) (p : string) :
  p ∈ folder -> p ∉ source -> p ∈ (add_loop store isfile source folder added).1.
Proof.
  revert folder added. induction source as [|path rest IH]; intros folder added Hin Hno.
  - exact Hin.
  - apply not_elem_of_cons in Hno as [Hne Hno]. cbn [add_loop].
    destruct (bool_decide (path ∈ folder) && isfile path); [|exact Hin].
    destruct (FrameName.timestamp_of_path path); [|exact Hin].
    destruct (add_raises store path); [exact Hin|].
    destruct (os_remove path folder) as [folder1|] eqn:Hrm; [|exact Hin].
    apply IH; [|exact Hno].
    apply (os_remove_spec path folder folder1 Hrm). auto.
Qed.

Variable slot : string -> nat.

(** [list(representatives)] lists every member of the set, once. *)
Lemma list_of_set_members (s : gset string) (p : string) :
  p ∈ list_of_set slot s <-> p ∈ s.
Proof.
  unfold list_of_set. rewrite merge_sort_Permutation. apply elem_of_elements.
Qed.

Lemma list_of_set_NoDup (s : gset string) : NoDup (list_of_set slot s).
Proof.
  unfold list_of_set. rewrite merge_sort_Permutation. apply NoDup_elements.
Qed.

Lemma cleaned_spec (output_folder p : string) :
  cleaned isfile output_folder p = false <->
  ~ (parent p = output_folder /\ isfile p = true /\ is_jpg p = true).
Proof.
  unfold cleaned. rewrite !andb_false_iff, bool_decide_eq_false.
  destruct (isfile p), (is_jpg p); intuition congruence.
Qed.

Variable open_grey_resized : string -> Z -> Z -> option (list (list Z)).
Variable image_size : string -> option (Z * Z).
Variable randbelow : list string -> nat.

(** C1, as the code has it. In a cycle that found representatives:
    when the hand-off returns, with or without failed objects, the
    files of the representatives are gone, and so is every regular
    file that lies directly in the output folder and has a name ending
    in [.jpg], the frames written during the pass included; entries of
    sub-folders and other entries stay. The failed objects are
    representatives, whose files the hand-off has removed. Only when
    the hand-off raises does the clean-up not run, and then every
    entry that is not a representative is still in the folder. *)
Theorem cycle_deletes_unless_hand_off_raises
    (output_folder : string) (self self1 self' : Dedup.ImageDeduplicator)
    (folder arrived folder' : list string)
    (reps : gset string) (stats : Dedup.Statistics) (out : outcome) :
  Dedup.deduplicate open_grey_resized image_size randbelow folder "highest_res" self
    = Some (self1, (reps, stats)) ->
  reps <> ∅ ->
  dedup_cycle store isfile slot open_grey_resized image_size randbelow
    output_folder self folder arrived
    = (self', folder', out) ->
  match out with
  | Returned failed =>
      (forall p, p ∈ folder' <->
         (p ∈ folder /\ (p ∉ reps) \/ p ∈ arrived) /\
         ~ (parent p = output_folder /\ isfile p = true /\ is_jpg p = true)) /\
      (forall p, p ∈ failed ->
         p ∈ reps /\ rejects store p = true /\ (p ∈ folder' -> p ∈ arrived))
  | Raised =>
      forall p, p ∈ (folder ++ arrived)%list -> p ∉ reps -> p ∈ folder'
  end.
Proof.
  intros Hdedup Hne Hcycle. unfold dedup_cycle in Hcycle. rewrite Hdedup in Hcycle.
  rewrite bool_decide_true in Hcycle by exact Hne.
  unfold add_recordings in Hcycle.
  destruct (add_loop store isfile (list_of_set slot reps) folder [])
    as [folder1 [added|]] eqn:Hloop.
  - destruct (add_loop_returns _ _ _ _ _ Hloop) as [-> Hin]. cbn [app] in Hcycle.
    destruct (exit_raises store).
    + injection Hcycle as <- <- <-. intros p Hp Hrep.
      rewrite elem_of_app in *. destruct Hp as [Hp|Hp]; [left | now right].
      apply Hin. split; [exact Hp|]. now rewrite list_of_set_members.
    + injection Hcycle as <- <- <-.
      assert (Hleft : forall p, p ∈ clean_up isfile output_folder (folder1 ++ arrived)
                <-> (p ∈ folder /\ (p ∉ reps) \/ p ∈ arrived) /\
                    ~ (parent p = output_folder /\ isfile p = true /\ is_jpg p = true)).
      { intros p. unfold clean_up.
        rewrite list_elem_of_filter, cleaned_spec, elem_of_app, Hin, list_of_set_members.
        tauto. }
      split; [exact Hleft|].
      intros p Hp. apply list_elem_of_filter in Hp as [Hrej Hp].
      apply list_of_set_members in Hp. split; [exact Hp|]. split; [exact Hrej|].
      rewrite Hleft. tauto.
  - injection Hcycle as <- <- <-. intros p Hp Hrep.
    rewrite elem_of_app in *. destruct Hp as [Hp|Hp]; [left | now right].
    pose proof (add_loop_keeps_others (list_of_set slot reps) folder [] p Hp) as Hkeep.
    rewrite Hloop in Hkeep. apply Hkeep. now rewrite list_of_set_members.
Qed.

End WithStorage.

Import Examples.

(** The folder holds three identical frames and a fourth in a
    sub-folder; a frame arrives during the pass; the collaborator
    rejects every object. The hand-off returns with a failed object,
    and the cycle leaves the frame of the sub-folder only: the frame
    that arrived is removed although no pass has looked at it. *)
Lemma cycle_deletes_unless_hand_off_raises_witness :
  exists self1 stats,
    Dedup.deduplicate same_frames three_sizes no_random
      [frame_a; frame_b; frame_c; kept_frame] "highest_res" (Dedup.init 10)
      = Some (self1, ({[frame_b]}, stats)) /\
    ({[frame_b]} : gset string) <> ∅ /\
    dedup_cycle rejecting_store all_files one_slot same_frames three_sizes no_random
      "temp_photo" (Dedup.init 10) [frame_a; frame_b; frame_c; kept_frame] [frame_d]
      = (self1, [kept_frame], Returned [frame_b]) /\
    (forall p, p ∈ [kept_frame] <->
       (p ∈ [frame_a; frame_b; frame_c; kept_frame] /\ (p ∉ ({[frame_b]} : gset string))
        \/ p ∈ [frame_d]) /\
       ~ (parent p = "temp_photo" /\ all_files p = true /\ is_jpg p = true)) /\
    (forall p, p ∈ [frame_b] ->
       p ∈ ({[frame_b]} : gset string) /\ rejects rejecting_store p = true /\
       (p ∈ [kept_frame] -> p ∈ [frame_d])).
Proof.
  eexists _, _. split; [vm_compute; reflexivity|].
  split; [apply non_empty_singleton_L|].
  split; [vm_compute; reflexivity|].
  refine (cycle_deletes_unless_hand_off_raises rejecting_store all_files one_slot
            same_frames three_sizes no_random "temp_photo" (Dedup.init 10) _ _
            [frame_a; frame_b; frame_c; kept_frame] [frame_d] [kept_frame]
            {[frame_b]} _ (Returned [frame_b]) _ _ _).
  - vm_compute; reflexivity.
  - apply non_empty_singleton_L.
  - vm_compute; reflexivity.
Defined.

(** C1 as stated fails. The collaborator rejects the only object of the
    batch, so the hand-off is not confirmed; the representative was
    removed when it was added to the batch, and the clean-up removes the
    two other frames: nothing is left for a retry. *)
Lemma unconfirmed_hand_off_deletes_counterexample :
  exists self',
    dedup_cycle rejecting_store all_files one_slot same_frames three_sizes no_random
      "temp_photo" (Dedup.init 10) [frame_a; frame_b; frame_c] []
      = (self', [], Returned [frame_b]) /\
    Dedup.representatives self' = {[frame_b]} /\
    rejects rejecting_store frame_b = true /\
    frame_a ∉ Dedup.representatives self'.
Proof.
  eexists. split; [vm_compute; reflexivity|].
  split; [vm_compute; reflexivity|]. split; [reflexivity|].
  vm_compute. set_solver.
Qed.

End SessionFacts.

(** ** The deduplicator as a whole: directory, partition, statistics *)

Module DeduplicatorFacts.
Import Dedup.

(** *** The dict of hashes *)

Lemma dict_set_keys (d : list (string * string)) (key value : string) :
  (dict_set d key value).*1 = if bool_decide (key ∈ d.*1) then d.*1 else (d.*1 ++ [key])%list.
Proof.
  induction d as [|[k v] d IH]; [reflexivity|].
  cbn [dict_set]. rewrite fmap_cons. cbn [fst].
  destruct (decide (k = key)) as [->|Hne].
  - rewrite bool_decide_true by reflexivity.
    rewrite (bool_decide_true (key ∈ key :: d.*1)) by left. reflexivity.
  - rewrite (bool_decide_false (k = key)) by exact Hne. rewrite fmap_cons, IH. cbn [fst].
    destruct (decide (key ∈ d.*1)) as [Hin|Hout].
    + rewrite !bool_decide_true; [reflexivity | now right | exact Hin].
    + rewrite !bool_decide_false; [reflexivity | | exact Hout].
      rewrite elem_of_cons. intros [?|?]; congruence.
Qed.

Lemma dict_set_NoDup (d : list (string * string)) (key value : string) :
  NoDup d.*1 -> NoDup (dict_set d key value).*1.
Proof.
  intros Hnd. rewrite dict_set_keys. case_bool_decide as Hin; [exact Hnd|].
  apply NoDup_app. split; [exact Hnd|]. split; [|apply NoDup_singleton].
  intros x Hx Hk. apply list_elem_of_singleton in Hk. now subst.
Qed.

Lemma dict_set_entries (d : list (string * string)) (key value p h : string) :
  (p, h) ∈ dict_set d key value -> (p, h) ∈ d \/ (p = key /\ h = value).
Proof.
  induction d as [|[k v] d IH]; cbn [dict_set].
  - intros Hin. apply list_elem_of_singleton in Hin. inversion Hin. auto.
  - case_bool_decide as Hk.
    + subst k. rewrite !elem_of_cons. intros [Heq|Hin]; [inversion Heq; auto | auto].
    + rewrite !elem_of_cons. intros [Heq|Hin]; [auto|]. destruct (IH Hin); auto.
Qed.

(** *** The groups of a dict *)

(** What the inner loop admits: paths not processed before, each once,
    each within the threshold of the seed hash; they become processed. *)
Lemma scan_group_added (T : Z) (hash1 : string) (items : list (string * string))
    (processed : gset string) (current_group : list string) :
  exists added,
    scan_group T hash1 items processed current_group
      = ((current_group ++ added)%list, list_to_set added ∪ processed) /\
    NoDup added /\
    forall q, q ∈ added ->
      (q ∉ processed) /\ exists hq, (q, hq) ∈ items /\ hamming_distance hash1 hq <= T.
Proof.
  revert processed current_group.
  induction items as [|[path2 hash2] rest IH]; intros processed current_group.
  - exists []. cbn. rewrite app_nil_r. split; [f_equal; set_solver|].
    split; [constructor|]. intros q Hq. now apply elem_of_nil in Hq.
  - cbn [scan_group].
    destruct (bool_decide (path2 ∉ processed) && (hamming_distance hash1 hash2 <=? T))
      eqn:Etest.
    + apply andb_true_iff in Etest as [Hnew Hle].
      apply bool_decide_eq_true in Hnew. apply Z.leb_le in Hle.
      destruct (IH ({[path2]} ∪ processed) (current_group ++ [path2])%list)
        as (added & E & Hnd & Hadded).
      exists (path2 :: added). rewrite E, <- app_assoc. split.
      * cbn [app list_to_set]. f_equal. set_solver.
      * split.
        -- apply NoDup_cons. split; [|exact Hnd].
           intros Hin. destruct (Hadded path2 Hin) as [Hno _]. set_solver.
        -- intros q Hq. apply elem_of_cons in Hq as [->|Hq].
           ++ split; [exact Hnew|]. exists hash2. split; [left | exact Hle].
           ++ destruct (Hadded q Hq) as (Hno & hq & Hin & Hd).
              split; [set_solver|]. exists hq. split; [now right | exact Hd].
    + destruct (IH processed current_group) as (added & E & Hnd & Hadded).
      exists added. split; [exact E|]. split; [exact Hnd|].
      intros q Hq. destruct (Hadded q Hq) as (Hno & hq & Hin & Hd).
      split; [exact Hno|]. exists hq. split; [now right | exact Hd].
Qed.

Lemma group_loop_groups_ok (T : Z) (all : list (string * string)) :
  forall (items pre : list (string * string)) (processed : gset string)
         (groups : list (list string)),
    all = (pre ++ items)%list ->
    (0 <= T -> forall p, p ∈ pre.*1 -> p ∈ processed) ->
    groups_ok T all processed groups ->
    exists processed',
      groups_ok T all processed' (group_loop T all items processed groups) /\
      (0 <= T -> forall p, p ∈ all.*1 -> p ∈ processed').
Proof.
  induction items as [|[path1 hash1] rest IH]; intros pre processed groups Hall Hdone Hok.
  - exists processed. split; [exact Hok|]. rewrite Hall, app_nil_r. exact Hdone.
  - assert (Hall' : all = ((pre ++ [(path1, hash1)]) ++ rest)%list)
      by now rewrite <- app_assoc.
    assert (Hin1 : (path1, hash1) ∈ all).
    { rewrite Hall, elem_of_app. right. left. }
    cbn [group_loop]. case_bool_decide as Hold.
    + apply (IH (pre ++ [(path1, hash1)])%list); [exact Hall' | | exact Hok].
      intros HT p. rewrite fmap_app, elem_of_app. cbn. rewrite list_elem_of_singleton.
      intros [Hp| ->]; auto.
    + destruct (scan_group_added T hash1 all processed []) as (added & E & Hnd & Hadded).
      assert (Hseed : 0 <= T -> exists more, added = path1 :: more).
      { intros HT.
        destruct (GroupFacts.scan_group_seed_first (fun _ _ _ => None) (fun _ => None)
                    (fun _ => 0%nat) T path1 hash1 pre rest processed HT
                    (Hdone HT) Hold) as (more & Ehead & _).
        rewrite <- Hall, E in Ehead. cbn in Ehead. eauto. }
      rewrite E. cbn [app].
      destruct Hok as (Hseeded & Hndg & Hproc).
      destruct added as [|first more].
      * apply (IH (pre ++ [(path1, hash1)])%list); [exact Hall' | |].
        -- intros HT. destruct (Hseed HT) as [? ?]. discriminate.
        -- split; [exact Hseeded|]. split; [exact Hndg|].
           intros p. rewrite <- Hproc. cbn. set_solver.
      * assert (HT : 0 <= T).
        { destruct (Hadded first) as (_ & hq & _ & Hd); [left|].
          pose proof (HammingFacts.hamming_distance_nonneg hash1 hq). lia. }
        destruct (Hseed HT) as (more' & Emore). injection Emore as -> <-.
        apply (IH (pre ++ [(path1, hash1)])%list); [exact Hall' | |].
        -- intros _ p. rewrite fmap_app, elem_of_app. cbn. rewrite list_elem_of_singleton.
           intros [Hp| ->]; [|set_solver].
           rewrite elem_of_union. right. now apply Hdone.
        -- split; [|split].
           ++ apply Forall_app. split; [exact Hseeded|]. constructor; [|constructor].
              exists path1, more, hash1. split; [reflexivity|]. split; [exact Hin1|].
              intros m Hm. destruct (Hadded m Hm) as (_ & hm & ? & ?). eauto.
           ++ rewrite join_app. cbn. rewrite app_nil_r. apply NoDup_app.
              split; [exact Hndg|]. split; [|exact Hnd].
              intros x Hx Hadd. destruct (Hadded x Hadd) as [Hno _].
              apply Hno, Hproc, Hx.
           ++ intros p. rewrite join_app. cbn. rewrite app_nil_r, elem_of_app, <- Hproc.
              set_solver.
Qed.

Lemma grouping_ok (all : list (string * string)) (T : Z) :
  exists processed,
    groups_ok T all processed (group_loop T all all ∅ []) /\
    (0 <= T -> forall p, p ∈ all.*1 -> p ∈ processed).
Proof.
  apply (group_loop_groups_ok T all all []); [reflexivity | |].
  - intros _ p Hp. now apply elem_of_nil in Hp.
  - split; [constructor|]. split; [constructor|]. intros p. cbn. set_solver.
Qed.

(** The groups of any dict: non-empty, disjoint, made of keys; with a
    threshold that is not negative every key is in a group. *)
Lemma grouped (all : list (string * string)) (T : Z) :
  let groups := group_loop T all all ∅ [] in
  Forall (fun g => g <> []) groups /\
  NoDup (mjoin groups) /\
  (forall p, p ∈ mjoin groups -> p ∈ all.*1) /\
  (0 <= T -> forall p, p ∈ all.*1 -> p ∈ mjoin groups).
Proof.
  cbn zeta. destruct (grouping_ok all T) as (P & (Hseeded & Hnd & Hproc) & Hall).
  split; [|split; [exact Hnd|split]].
  - eapply Forall_impl; [exact Hseeded|]. intros g (seed & rest & ? & -> & _). discriminate.
  - intros p Hp. apply list_elem_of_join in Hp as (g & Hpg & Hg).
    rewrite Forall_forall in Hseeded.
    destruct (Hseeded g Hg) as (seed & rest & hsd & _ & _ & Hm).
    destruct (Hm p Hpg) as (hm & Hin & _). now apply (list_elem_of_fmap_2 fst) in Hin.
  - intros HT p Hp. apply Hproc, (Hall HT), Hp.
Qed.

(** The members of a path within disjoint groups: the rest of its
    group, or nothing when no group holds it. *)
Lemma members_in_spec (groups : list (list string)) (p : string) :
  NoDup (mjoin groups) ->
  (forall g, g ∈ groups -> p ∈ g ->
     (p ∉ members_in groups p) /\ p :: members_in groups p ≡ₚ g) /\
  ((forall g, g ∈ groups -> p ∉ g) -> members_in groups p = []).
Proof.
  induction groups as [|g0 groups IH]; intros Hnd.
  { split; [|reflexivity]. intros g Hg. now apply elem_of_nil in Hg. }
  change (NoDup (g0 ++ mjoin groups)%list) in Hnd.
  apply NoDup_app in Hnd as (Hnd0 & Hdisj & Hndr).
  destruct (IH Hndr) as [IHin IHout]. cbn [members_in]. split.
  - intros g Hg Hpg. apply elem_of_cons in Hg as [->|Hg].
    + rewrite bool_decide_true by exact Hpg. split.
      * rewrite list_elem_of_filter. tauto.
      * clear -Hnd0 Hpg. induction g0 as [|x g0 IH]; [now apply elem_of_nil in Hpg|].
        apply NoDup_cons in Hnd0 as [Hx Hnd0]. rewrite filter_cons.
        apply elem_of_cons in Hpg as [->|Hpg].
        -- rewrite decide_False by tauto. apply Permutation_cons; [reflexivity|].
           clear IH Hnd0. induction g0 as [|y g0 IH]; [reflexivity|].
           apply not_elem_of_cons in Hx as [Hne Hx]. rewrite filter_cons.
           rewrite decide_True by congruence. now rewrite IH.
        -- assert (x <> p) by (intros ->; contradiction).
           rewrite decide_True by assumption.
           rewrite Permutation_swap. apply Permutation_cons; [reflexivity|]. now apply IH.
    + rewrite bool_decide_false; [now apply IHin|].
      intros Hin. apply (Hdisj p Hin). apply list_elem_of_join. eauto.
  - intros Hno. rewrite bool_decide_false by (apply Hno; left).
    apply IHout. intros g Hg. apply Hno. now right.
Qed.

(** *** Distances and sizes *)

Lemma differ_triangle (a b c : list ascii) :
  length a = length b -> length b = length c ->
  Py.sum (map differ (zip a c))
    <= Py.sum (map differ (zip a b)) + Py.sum (map differ (zip b c)).
Proof.
  revert b c. induction a as [|x a IH]; intros b c Hab Hbc.
  { destruct b; [|discriminate Hab]. destruct c; [|discriminate Hbc]. cbn. lia. }
  destruct b as [|y b]; [discriminate Hab|]. destruct c as [|z c]; [discriminate Hbc|].
  cbn [zip zip_with map Py.sum foldr].
  injection Hab as Hab. injection Hbc as Hbc. specialize (IH b c Hab Hbc).
  unfold Py.sum in IH.
  assert (differ (x, z) <= differ (x, y) + differ (y, z)); [|lia].
  unfold differ, Py.int_of_bool. cbn [fst snd].
  repeat case_bool_decide; try lia. congruence.
Qed.

Lemma differ_sum_bounded (l : list (ascii * ascii)) :
  Py.sum (map differ l) <= Z.of_nat (length l).
Proof.
  induction l as [|p l IH]; [cbn; lia|].
  cbn [map Py.sum foldr length]. unfold Py.sum in IH.
  assert (differ p <= 1); [|lia].
  unfold differ, Py.int_of_bool. case_bool_decide; lia.
Qed.

Lemma nonempty_groups_length (groups : list (list string)) :
  Forall (fun g => g <> []) groups -> (length groups <= length (mjoin groups))%nat.
Proof.
  induction 1 as [|g groups Hg _ IH]; [cbn; lia|].
  change (mjoin (g :: groups)) with (g ++ mjoin groups)%list.
  rewrite length_app. destruct g; [congruence | cbn [length]; lia].
Qed.

Lemma sum_len_join (groups : list (list string)) :
  Py.sum (map len groups) = len (mjoin groups).
Proof.
  induction groups as [|g groups IH]; [reflexivity|].
  change (mjoin (g :: groups)) with (g ++ mjoin groups)%list.
  cbn [map Py.sum foldr]. unfold Py.sum in IH. rewrite IH. unfold len.
  rewrite length_app. lia.
Qed.

Lemma largest_bounds (sizes : list Z) :
  Forall (fun k => k <= foldr Z.max 0 sizes) sizes.
Proof.
  induction sizes as [|k sizes IH]; constructor; cbn [foldr]; [lia|].
  eapply Forall_impl; [exact IH|]. cbn. intros; lia.
Qed.

Lemma largest_attained (sizes : list Z) :
  Forall (fun k => 0 < k) sizes -> sizes <> [] -> foldr Z.max 0 sizes ∈ sizes.
Proof.
  induction 1 as [|k sizes Hk Hpos IH]; [congruence|]. intros _. cbn [foldr].
  destruct sizes as [|k' sizes].
  - cbn. rewrite Z.max_l by lia. left.
  - destruct (Z.max_spec k (foldr Z.max 0 (k' :: sizes))) as [[_ ->]|[_ ->]].
    + right. now apply IH.
    + left.
Qed.

Lemma count_size_lookup (dist : gmap Z Z) (x k : Z) :
  count_size dist x !! k
    = if bool_decide (x = k) then Some (default 0 (dist !! k) + 1) else dist !! k.
Proof.
  unfold count_size. case_bool_decide as E.
  - subst. now rewrite lookup_insert_eq.
  - now rewrite lookup_insert_ne.
Qed.

Lemma histogram_lookup (sizes : list Z) (dist : gmap Z Z) (k : Z) :
  foldl count_size dist sizes !! k
    = match length (filter (fun x => x = k) sizes) with
      | O => dist !! k
      | S n => Some (default 0 (dist !! k) + Z.of_nat (S n))
      end.
Proof.
  revert dist. induction sizes as [|x sizes IH]; intros dist; [reflexivity|].
  cbn [foldl]. rewrite IH, filter_cons, count_size_lookup.
  destruct (decide (x = k)) as [->|Hne].
  - rewrite bool_decide_true by reflexivity. cbn [length default].
    destruct (length (filter (fun x => x = k) sizes)) as [|n];
      cbn [default]; unfold id; apply (f_equal Some);
      generalize (default 0 (dist !! k)); intros d; lia.
  - rewrite bool_decide_false by exact Hne. reflexivity.
Qed.

(** *** A directory *)

Section WithFiles.

Variable open_grey_resized : string -> Z -> Z -> option (list (list Z)).
Variable image_size : string -> option (Z * Z).
Variable randbelow : list string -> nat.

Abbreviation calculate_dhash := (calculate_dhash open_grey_resized).
Abbreviation readable := (readable open_grey_resized).
Abbreviation process_paths := (process_paths open_grey_resized).
Abbreviation process_directory := (process_directory open_grey_resized).
Abbreviation recorded_ok := (recorded_ok open_grey_resized).
Abbreviation deduplicate := (deduplicate open_grey_resized image_size randbelow).

Lemma process_paths_any (listing seen : list string) (acc : list (string * string)) :
  recorded_ok seen acc ->
  (forall p, p ∈ seen -> readable p -> p ∈ acc.*1) ->
  recorded_ok (seen ++ listing) (process_paths listing acc) /\
  (forall p, p ∈ (seen ++ listing)%list -> readable p -> p ∈ (process_paths listing acc).*1).
Proof.
  revert seen acc. induction listing as [|path rest IH]; intros seen acc Hok Hall.
  - rewrite app_nil_r. auto.
  - assert (Hsnoc : (seen ++ path :: rest)%list = ((seen ++ [path]) ++ rest)%list)
      by now rewrite <- app_assoc.
    rewrite Hsnoc.
    assert (Hskip : ~ readable path ->
              recorded_ok ((seen ++ [path]) ++ rest) (process_paths rest acc) /\
              (forall p, p ∈ ((seen ++ [path]) ++ rest)%list -> readable p ->
                         p ∈ (process_paths rest acc).*1)).
    { intros Hnot. apply IH.
      - destruct Hok as [Hnd Hent]. split; [exact Hnd|].
        intros p h Hin. destruct (Hent p h Hin) as (? & ? & ?).
        rewrite elem_of_app. auto.
      - intros p Hp Hr. apply elem_of_app in Hp as [Hp|Hp]; [auto|].
        apply list_elem_of_singleton in Hp. subst. contradiction. }
    cbn [Dedup.process_paths].
    case_bool_decide as Hext; [|apply Hskip; intros [? _]; contradiction].
    destruct (calculate_dhash path 8) as [h|] eqn:Hh;
      [|apply Hskip; intros (_ & h' & ? & _); congruence].
    case_bool_decide as Hne;
      [|apply Hskip; intros (_ & h' & E & Hn); rewrite Hh in E; injection E as <-;
        first [exact (Hn Hne) | apply Hne; exact Hn]].
    assert (Hread : readable path) by (split; [exact Hext | exists h; auto]).
    apply IH.
    + destruct Hok as [Hnd Hent]. split; [now apply dict_set_NoDup|].
      intros p h' Hin. apply dict_set_entries in Hin as [Hin|[-> ->]].
      * destruct (Hent p h' Hin) as (? & ? & ?). rewrite elem_of_app. auto.
      * rewrite elem_of_app, list_elem_of_singleton. auto.
    + intros p Hp Hr. rewrite dict_set_keys. case_bool_decide as Hin.
      * apply elem_of_app in Hp as [Hp|Hp]; [auto|].
        apply list_elem_of_singleton in Hp. now subst.
      * rewrite elem_of_app, list_elem_of_singleton.
        apply elem_of_app in Hp as [Hp|Hp]; [left; auto|].
        apply list_elem_of_singleton in Hp. auto.
Qed.

Lemma process_paths_recorded (listing : list string) :
  recorded_ok listing (process_paths listing []) /\
  (forall p, p ∈ listing -> readable p -> p ∈ (process_paths listing []).*1).
Proof.
  apply (process_paths_any listing [] []).
  - split; [constructor|]. intros p h Hin. now apply elem_of_nil in Hin.
  - intros p Hp. now apply elem_of_nil in Hp.
Qed.

(** X1. [process_directory] records exactly the listed paths that are
    readable images: each once, whatever the listing repeats, with the
    hash of its file, which is never the empty string. What the object
    held before is forgotten. *)
Theorem process_directory_records_readable_images
    (listing : list string) (self : ImageDeduplicator) :
  let hashes := image_hashes (process_directory listing self) in
  NoDup hashes.*1 /\
  (forall p, p ∈ hashes.*1 <-> p ∈ listing /\ readable p) /\
  (forall p h, (p, h) ∈ hashes -> calculate_dhash p 8 = Some h /\ h <> "").
Proof.
  cbn [Dedup.process_directory image_hashes].
  destruct (process_paths_recorded listing) as [[Hnd Hent] Hall].
  split; [exact Hnd|]. split.
  - intros p. split.
    + intros Hp. apply list_elem_of_fmap in Hp as ([p' h] & -> & Hin).
      destruct (Hent p' h Hin) as (? & ? & ?). auto.
    + intros [Hp Hr]. auto.
  - intros p h Hin. destruct (Hent p h Hin) as (_ & (_ & h' & E & Hne) & E').
    split; [exact E'|]. congruence.
Qed.

(** X2. The groups never overlap and never hold a path that was not
    recorded, and no group is empty. With a threshold that is not
    negative they are a partition of the recorded images: every image
    is in exactly one group. *)
Theorem groups_partition_recorded_images (listing : list string) (self : ImageDeduplicator) :
  let self1 := group_similar_images (process_directory listing self) in
  Forall (fun g => g <> []) (groups self1) /\
  NoDup (mjoin (groups self1)) /\
  (forall p, p ∈ mjoin (groups self1) -> p ∈ (image_hashes self1).*1) /\
  (0 <= threshold self -> mjoin (groups self1) ≡ₚ (image_hashes self1).*1).
Proof.
  cbn [group_similar_images Dedup.process_directory groups image_hashes threshold].
  destruct (grouped (process_paths listing []) (threshold self)) as (Hne & Hnd & Hsub & Hall).
  split; [exact Hne|]. split; [exact Hnd|]. split; [exact Hsub|].
  intros HT. apply NoDup_Permutation; [exact Hnd | apply process_paths_recorded |].
  intros p. split; [apply Hsub | apply (Hall HT)].
Qed.

(** X3. Every group starts with its seed, a recorded image, and every
    member of the group is within the threshold of the seed. *)
Theorem group_members_are_close_to_seed
    (listing : list string) (self : ImageDeduplicator) (g : list string) :
  let self1 := group_similar_images (process_directory listing self) in
  g ∈ groups self1 ->
  exists seed rest hs,
    g = seed :: rest /\ (seed, hs) ∈ image_hashes self1 /\
    forall m, m ∈ g ->
      exists hm, (m, hm) ∈ image_hashes self1 /\
                 hamming_distance hs hm <= threshold self.
Proof.
  cbn [group_similar_images Dedup.process_directory groups image_hashes threshold].
  intros Hg.
  destruct (grouping_ok (process_paths listing []) (threshold self))
    as (P & (Hseeded & _) & _).
  rewrite Forall_forall in Hseeded. exact (Hseeded g Hg).
Qed.

(** X4. Members of one group need not be within the threshold of each
    other, only of the seed. When all recorded hashes have one length,
    two images of one group are at most twice the threshold apart. *)
Theorem group_diameter_at_most_twice_threshold
    (listing : list string) (self : ImageDeduplicator) (n : nat)
    (g : list string) (m1 m2 h1 h2 : string) :
  let self1 := group_similar_images (process_directory listing self) in
  (forall p h, (p, h) ∈ image_hashes self1 -> String.length h = n) ->
  g ∈ groups self1 -> m1 ∈ g -> m2 ∈ g ->
  (m1, h1) ∈ image_hashes self1 -> (m2, h2) ∈ image_hashes self1 ->
  hamming_distance h1 h2 <= 2 * threshold self.
Proof.
  cbn [group_similar_images Dedup.process_directory groups image_hashes threshold].
  intros Hlen Hg Hm1 Hm2 Hin1 Hin2.
  destruct (grouping_ok (process_paths listing []) (threshold self))
    as (P & (Hseeded & _) & _).
  rewrite Forall_forall in Hseeded.
  destruct (Hseeded g Hg) as (seed & rest & hs & _ & Hs & Hclose).
  destruct (process_paths_recorded listing) as [[Hnd _] _].
  destruct (Hclose m1 Hm1) as (k1 & Hk1 & Hd1).
  destruct (Hclose m2 Hm2) as (k2 & Hk2 & Hd2).
  rewrite (GroupFacts.assoc_unique _ m1 k1 h1 Hnd Hk1 Hin1) in Hd1.
  rewrite (GroupFacts.assoc_unique _ m2 k2 h2 Hnd Hk2 Hin2) in Hd2.
  assert (Htri : hamming_distance h1 h2
                 <= hamming_distance h1 hs + hamming_distance hs h2).
  { unfold hamming_distance. apply differ_triangle;
      rewrite !HammingFacts.chars_length;
      rewrite ?(Hlen _ _ Hin1), ?(Hlen _ _ Hin2), ?(Hlen _ _ Hs); reflexivity. }
  rewrite (HammingFacts.hamming_distance_sym h1 hs) in Htri. lia.
Qed.

(** *** Representatives and statistics *)

Lemma select_loop_one_per_group (method : string) (groups : list (list string))
    (reps0 : gset string) :
  Forall (fun g => g <> []) groups ->
  NoDup (mjoin groups) ->
  (forall p, p ∈ mjoin groups -> p ∉ reps0) ->
  exists reps,
    select_loop image_size randbelow method groups reps0 = Some reps /\
    size reps = (size reps0 + length groups)%nat /\
    (forall r, r ∈ reps -> r ∈ reps0 \/ r ∈ mjoin groups) /\
    (forall r, r ∈ reps0 -> r ∈ reps) /\
    (forall g, g ∈ groups -> exists r, r ∈ reps /\ r ∈ g).
Proof.
  intros Hne. revert reps0. induction Hne as [|g groups Hg Hne IH]; intros reps0 Hnd Hfresh.
  - exists reps0. cbn. split; [reflexivity|]. split; [lia|]. split; [auto|]. split; [auto|].
    intros g Hin. now apply elem_of_nil in Hin.
  - cbn [select_loop].
    destruct (GroupFacts.select_one_member image_size randbelow method g Hg)
      as (r & Hr & Hrg).
    rewrite Hr. cbn [mjoin list_join] in Hnd, Hfresh.
    apply NoDup_app in Hnd as (Hndg & Hdisj & Hndr).
    destruct (IH ({[r]} ∪ reps0) Hndr) as (reps & E & Hsize & Hfrom & Hkeep & Hevery).
    { intros p Hp. rewrite not_elem_of_union, not_elem_of_singleton. split.
      - intros ->. exact (Hdisj r Hrg Hp).
      - apply Hfresh. rewrite elem_of_app. now right. }
    exists reps. split; [exact E|]. split; [|split; [|split]].
    + rewrite Hsize, size_union, size_singleton; [cbn [length]; lia|].
      apply disjoint_singleton_l, Hfresh.
      rewrite elem_of_app. now left.
    + intros x Hx. change (mjoin (g :: groups)) with (g ++ mjoin groups)%list.
      rewrite elem_of_app.
      destruct (Hfrom x Hx) as [Hin|Hin]; [|auto].
      apply elem_of_union in Hin as [Hin|Hin]; [|auto].
      apply elem_of_singleton in Hin. subst. auto.
    + intros x Hx. apply Hkeep. set_solver.
    + intros g' Hg'. apply elem_of_cons in Hg' as [->|Hg']; [|auto].
      exists r. split; [apply Hkeep; set_solver | exact Hrg].
Qed.

(** The selection over the groups of a directory goes through: no
    group is empty, so no policy raises. *)
Lemma deduplicate_selects (listing : list string) (method : string)
    (self : ImageDeduplicator) :
  let self1 := group_similar_images (process_directory listing self) in
  exists reps,
    select_loop image_size randbelow method (groups self1) ∅ = Some reps /\
    size reps = length (groups self1) /\
    (forall r, r ∈ reps -> exists g, g ∈ groups self1 /\ r ∈ g) /\
    (forall g, g ∈ groups self1 -> exists r, r ∈ reps /\ r ∈ g).
Proof.
  cbn [group_similar_images Dedup.process_directory groups image_hashes threshold].
  destruct (grouped (process_paths listing []) (threshold self)) as (Hne & Hnd & _).
  destruct (select_loop_one_per_group method _ ∅ Hne Hnd)
    as (reps & E & Hsize & Hfrom & _ & Hevery).
  { intros p _. set_solver. }
  exists reps. split; [exact E|]. rewrite size_empty in Hsize. split; [exact Hsize|].
  split; [|exact Hevery].
  intros r Hr. destruct (Hfrom r Hr) as [Hin|Hin]; [set_solver|].
  apply list_elem_of_join in Hin as (g & ? & ?). eauto.
Qed.

(** What a call of [deduplicate] that returned has left in the object. *)
Lemma deduplicate_returned (listing : list string) (method : string)
    (self self' : ImageDeduplicator) (reps : gset string) (stats : Statistics) :
  deduplicate listing method self = Some (self', (reps, stats)) ->
  let self1 := group_similar_images (process_directory listing self) in
  select_loop image_size randbelow method (groups self1) ∅ = Some reps /\
  threshold self' = threshold self /\
  image_hashes self' = image_hashes self1 /\
  groups self' = groups self1 /\
  representatives self' = reps /\
  stats = get_group_statistics self'.
Proof.
  unfold Dedup.deduplicate, select_representatives. cbn zeta.
  destruct (select_loop _ _ _ _ _) as [reps'|]; [|discriminate].
  intros [= <- <- <-]. repeat split.
Qed.

(** X5. [deduplicate] never raises, whatever the directory, the policy and
    the threshold. It returns the set it has stored, with exactly one
    representative per group, taken from that group, and the count of
    duplicates is the number of images less the number of groups. *)
Theorem deduplicate_returns_one_representative_per_group
    (listing : list string) (method : string) (self : ImageDeduplicator) :
  exists self' stats,
    deduplicate listing method self = Some (self', (representatives self', stats)) /\
    stats = get_group_statistics self' /\
    size (representatives self') = length (groups self') /\
    (forall r, r ∈ representatives self' ->
       exists g, g ∈ groups self' /\ r ∈ g) /\
    (forall g, g ∈ groups self' -> exists r, r ∈ representatives self' /\ r ∈ g) /\
    total_duplicates stats = total_images stats - unique_groups stats /\
    0 <= total_duplicates stats.
Proof.
  destruct (deduplicate_selects listing method self) as (reps & E & Hsize & Hfrom & Hevery).
  cbn zeta in E, Hsize, Hfrom, Hevery.
  unfold Dedup.deduplicate, select_representatives. rewrite E.
  eexists _, _. split; [reflexivity|].
  cbn [groups representatives image_hashes]. split; [reflexivity|].
  split; [exact Hsize|]. split; [exact Hfrom|]. split; [exact Hevery|].
  cbn [get_group_statistics total_duplicates total_images unique_groups
       groups representatives image_hashes].
  rewrite Hsize. unfold len. split; [reflexivity|].
  cbn [group_similar_images Dedup.process_directory groups image_hashes threshold].
  destruct (grouped (process_paths listing []) (threshold self)) as (Hne & Hnd & Hsub & _).
  pose proof (nonempty_groups_length _ Hne) as Hle.
  assert (Hsm : mjoin (group_loop (threshold self) (process_paths listing [])
                         (process_paths listing []) ∅ [])
                ⊆+ (process_paths listing []).*1).
  { apply NoDup_submseteq; [exact Hnd | exact Hsub]. }
  apply submseteq_length in Hsm. rewrite length_fmap in Hsm. lia.
Qed.

(** X6. With a negative threshold no image is within the threshold of
    itself: [deduplicate] forms no group, returns no representative,
    and counts every recorded image as a duplicate. *)
Theorem negative_threshold_gives_no_group
    (listing : list string) (method : string) (self : ImageDeduplicator) :
  threshold self < 0 ->
  exists self' stats,
    deduplicate listing method self = Some (self', (∅, stats)) /\
    groups self' = [] /\
    unique_groups stats = 0 /\
    largest_group_size stats = 0 /\
    total_duplicates stats = total_images stats /\
    total_images stats = len (image_hashes (process_directory listing self)).
Proof.
  intros HT. unfold Dedup.deduplicate, select_representatives.
  cbn [group_similar_images Dedup.process_directory groups image_hashes threshold].
  rewrite (GroupFacts.group_loop_negative _ _ _ _ _ HT). cbn [select_loop].
  eexists _, _. split; [reflexivity|]. split; [reflexivity|].
  cbn [get_group_statistics unique_groups largest_group_size total_duplicates
       total_images groups representatives image_hashes map foldr].
  rewrite size_empty. repeat split. lia.
Qed.

(** X7. After [deduplicate], a representative together with its
    [get_group_members] is one whole group, the representative itself
    left out of the members; for a path that was not recorded the
    members are the empty list. *)
Theorem group_members_complete_the_group
    (listing : list string) (method : string) (self self' : ImageDeduplicator)
    (reps : gset string) (stats : Statistics) :
  deduplicate listing method self = Some (self', (reps, stats)) ->
  (forall r, r ∈ reps ->
     exists g, g ∈ groups self' /\
               (r ∉ get_group_members self' r) /\
               r :: get_group_members self' r ≡ₚ g) /\
  (forall p, p ∉ (image_hashes self').*1 -> get_group_members self' p = []).
Proof.
  intros Hded.
  destruct (deduplicate_returned _ _ _ _ _ _ Hded) as (E & _ & Ehashes & Egroups & _).
  destruct (deduplicate_selects listing method self) as (reps' & E' & _ & Hfrom & _).
  cbn zeta in E, E', Ehashes, Egroups, Hfrom. rewrite E in E'. injection E' as <-.
  pose proof (grouped (process_paths listing []) (threshold self)) as (_ & Hnd & Hsub & _).
  unfold get_group_members. rewrite Egroups, Ehashes.
  cbn [group_similar_images Dedup.process_directory groups image_hashes threshold] in *.
  split.
  - intros r Hr. destruct (Hfrom r Hr) as (g & Hg & Hrg). exists g. split; [exact Hg|].
    destruct (members_in_spec _ r Hnd) as [Hin _]. exact (Hin g Hg Hrg).
  - intros p Hp. destruct (members_in_spec _ p Hnd) as [_ Hno]. apply Hno.
    intros g Hg Hpg. apply Hp, Hsub, list_elem_of_join. eauto.
Qed.

(** X8. In the statistics [deduplicate] returns with a threshold that is
    not negative, the group sizes add up to the number of images, every
    size is at least one, and [largest_group_size] bounds every size
    and is the size of some group. *)
Theorem group_sizes_add_up
    (listing : list string) (method : string) (self self' : ImageDeduplicator)
    (reps : gset string) (stats : Statistics) :
  deduplicate listing method self = Some (self', (reps, stats)) ->
  0 <= threshold self ->
  Py.sum (group_sizes stats) = total_images stats /\
  Forall (fun k => 1 <= k <= largest_group_size stats) (group_sizes stats) /\
  (group_sizes stats <> [] -> largest_group_size stats ∈ group_sizes stats).
Proof.
  intros Hded HT.
  destruct (deduplicate_returned _ _ _ _ _ _ Hded) as (_ & _ & Ehashes & Egroups & _ & ->).
  cbn zeta in Ehashes, Egroups.
  cbn [get_group_statistics group_sizes total_images largest_group_size].
  rewrite Egroups, Ehashes.
  cbn [group_similar_images Dedup.process_directory groups image_hashes threshold].
  destruct (grouped (process_paths listing []) (threshold self)) as (Hne & Hnd & Hsub & Hall).
  set (hs := process_paths listing []) in *.
  set (gs := group_loop (threshold self) hs hs ∅ []) in *.
  assert (Hperm : mjoin gs ≡ₚ hs.*1).
  { apply NoDup_Permutation; [exact Hnd | apply process_paths_recorded |].
    intros p. split; [apply Hsub | apply (Hall HT)]. }
  assert (Hpos : Forall (fun k => 0 < k) (map len gs)).
  { apply Forall_fmap. eapply Forall_impl; [exact Hne|].
    intros g Hg. cbn. unfold len. destruct g; [congruence | cbn [length]; lia]. }
  split; [|split].
  - rewrite sum_len_join. unfold len. f_equal.
    apply Permutation_length in Hperm. now rewrite length_fmap in Hperm.
  - pose proof (largest_bounds (map len gs)) as Hb.
    rewrite Forall_forall in *. intros k Hk. specialize (Hb k Hk). specialize (Hpos k Hk).
    lia.
  - now apply largest_attained.
Qed.

End WithFiles.

(** X9. [size_distribution] maps every size that occurs to the number of
    groups of that size, and holds no other key. *)
Theorem size_distribution_counts_groups (self : ImageDeduplicator) (k : Z) :
  size_distribution (get_group_statistics self) !! k
    = match length (filter (fun g => len g = k) (groups self)) with
      | O => None
      | S n => Some (Z.of_nat (S n))
      end.
Proof.
  cbn [get_group_statistics size_distribution]. rewrite histogram_lookup, lookup_empty.
  assert (E : length (filter (fun x => x = k) (map len (groups self)))
              = length (filter (fun g => len g = k) (groups self))).
  { induction (groups self) as [|g gs IH]; [reflexivity|].
    cbn [map]. rewrite !filter_cons.
    destruct (decide (len g = k)); cbn [length]; now rewrite IH. }
  rewrite E. destruct (length (filter _ (groups self))); [reflexivity|].
  cbn [default]. f_equal.
Qed.

(** *** Hashes *)

(** X10. The distance is symmetric, lies between zero and the length of the
    shorter hash, and is zero between a hash and itself. *)
Theorem hamming_distance_symmetric_and_bounded (hash1 hash2 : string) :
  hamming_distance hash1 hash2 = hamming_distance hash2 hash1 /\
  0 <= hamming_distance hash1 hash2
    <= Z.of_nat (Nat.min (String.length hash1) (String.length hash2)) /\
  hamming_distance hash1 hash1 = 0.
Proof.
  split; [apply HammingFacts.hamming_distance_sym|].
  split; [|apply HammingFacts.hamming_distance_self].
  split; [apply HammingFacts.hamming_distance_nonneg|].
  unfold hamming_distance.
  etransitivity; [apply differ_sum_bounded|].
  rewrite length_zip_with, !HammingFacts.chars_length. lia.
Qed.

(** X11. Whatever the shape of the grid, the hash has one character per
    pair of horizontal neighbours, and every character is 0 or 1. *)
Theorem dhash_is_a_bit_string (pixels : list (list Z)) :
  String.length (dhash_of_pixels pixels)
    = sum_list (map (fun row => (length row - 1)%nat) pixels) /\
  Forall (fun c => c = "0"%char \/ c = "1"%char) (Py.chars (dhash_of_pixels pixels)).
Proof.
  unfold dhash_of_pixels. split.
  - rewrite <- HammingFacts.chars_length, HasherFacts.chars_join_bits, length_map, length_join.
    f_equal. rewrite <- list_fmap_compose. apply list_fmap_ext. intros _ row _. cbn.
    unfold diff_row. rewrite length_zip_with, removelast_firstn_len, length_take.
    change (tail row) with (tl row). rewrite length_tl. lia.
  - rewrite HasherFacts.chars_join_bits. apply Forall_fmap, Forall_true.
    intros []; cbn; auto.
Qed.

(** *** The three frames *)

Import Examples.

(** With threshold 10 the three frames fall into two groups: the first
    two frames, and the third. *)
Lemma three_frames_hashes :
  image_hashes (group_similar_images
                  (process_directory three_frames [frame_a; frame_b; frame_c] (init 10)))
  = [(frame_a, dhash_of_pixels grid_a); (frame_b, dhash_of_pixels grid_b);
     (frame_c, dhash_of_pixels grid_c)].
Proof. vm_compute. reflexivity. Qed.

Lemma three_frames_groups :
  groups (group_similar_images
            (process_directory three_frames [frame_a; frame_b; frame_c] (init 10)))
  = [[frame_a; frame_b]; [frame_c]].
Proof. vm_compute. reflexivity. Qed.

Lemma three_frames_deduplicated :
  exists self' stats,
    deduplicate three_frames three_sizes no_random
      [frame_a; frame_b; frame_c] "highest_res" (init 10)
    = Some (self', (list_to_set [frame_b; frame_c], stats)).
Proof. eexists _, _. vm_compute. reflexivity. Qed.

Lemma group_members_are_close_to_seed_witness :
  [frame_a; frame_b]
    ∈ groups (group_similar_images
                (process_directory three_frames [frame_a; frame_b; frame_c] (init 10))) /\
  exists seed rest hs,
    [frame_a; frame_b] = seed :: rest /\
    (seed, hs) ∈ image_hashes (group_similar_images
                   (process_directory three_frames [frame_a; frame_b; frame_c] (init 10))) /\
    forall m, m ∈ [frame_a; frame_b] ->
      exists hm,
        (m, hm) ∈ image_hashes (group_similar_images
                     (process_directory three_frames [frame_a; frame_b; frame_c] (init 10))) /\
        hamming_distance hs hm <= threshold (init 10).
Proof.
  assert (Hg : [frame_a; frame_b]
                 ∈ groups (group_similar_images
                             (process_directory three_frames
                                [frame_a; frame_b; frame_c] (init 10))))
    by (rewrite three_frames_groups; left).
  split; [exact Hg|].
  exact (group_members_are_close_to_seed three_frames [frame_a; frame_b; frame_c]
           (init 10) [frame_a; frame_b] Hg).
Defined.

Lemma three_frames_hash_length (p h : string) :
  (p, h) ∈ image_hashes (group_similar_images
              (process_directory three_frames [frame_a; frame_b; frame_c] (init 10))) ->
  String.length h = 64%nat.
Proof.
  rewrite three_frames_hashes, !elem_of_cons, elem_of_nil.
  intros [E|[E|[E|[]]]]; injection E as -> ->; vm_compute; reflexivity.
Qed.

(** The first two frames are in one group, 8 apart. *)
Lemma group_diameter_at_most_twice_threshold_witness :
  hamming_distance (dhash_of_pixels grid_a) (dhash_of_pixels grid_b)
    <= 2 * threshold (init 10).
Proof.
  apply (group_diameter_at_most_twice_threshold three_frames
           [frame_a; frame_b; frame_c] (init 10) 64 [frame_a; frame_b] frame_a frame_b).
  - exact three_frames_hash_length.
  - rewrite three_frames_groups. left.
  - left.
  - right. left.
  - rewrite three_frames_hashes. left.
  - rewrite three_frames_hashes. right. left.
Defined.

Lemma negative_threshold_gives_no_group_witness :
  threshold (init (-1)) < 0 /\
  exists self' stats,
    deduplicate three_frames three_sizes no_random
      [frame_a; frame_b; frame_c] "highest_res" (init (-1)) = Some (self', (∅, stats)) /\
    groups self' = [] /\
    unique_groups stats = 0 /\
    largest_group_size stats = 0 /\
    total_duplicates stats = total_images stats /\
    total_images stats
      = len (image_hashes (process_directory three_frames
                             [frame_a; frame_b; frame_c] (init (-1)))).
Proof.
  split; [reflexivity|].
  apply (negative_threshold_gives_no_group three_frames three_sizes no_random
           [frame_a; frame_b; frame_c] "highest_res" (init (-1))).
  reflexivity.
Defined.

(** The representatives are the second frame, which has more pixels
    than the first, and the third. *)
Lemma group_members_complete_the_group_witness :
  exists self' stats,
    deduplicate three_frames three_sizes no_random
      [frame_a; frame_b; frame_c] "highest_res" (init 10)
    = Some (self', (list_to_set [frame_b; frame_c], stats)) /\
    (forall r, r ∈ (list_to_set [frame_b; frame_c] : gset string) ->
       exists g, g ∈ groups self' /\
                 (r ∉ get_group_members self' r) /\
                 r :: get_group_members self' r ≡ₚ g) /\
    (forall p, p ∉ (image_hashes self').*1 -> get_group_members self' p = []).
Proof.
  destruct three_frames_deduplicated as (self' & stats & E).
  exists self', stats. split; [exact E|].
  exact (group_members_complete_the_group three_frames three_sizes no_random
           [frame_a; frame_b; frame_c] "highest_res" (init 10) self'
           (list_to_set [frame_b; frame_c]) stats E).
Defined.

Lemma group_sizes_add_up_witness :
  0 <= threshold (init 10) /\
  exists self' stats,
    deduplicate three_frames three_sizes no_random
      [frame_a; frame_b; frame_c] "highest_res" (init 10)
    = Some (self', (list_to_set [frame_b; frame_c], stats)) /\
    Py.sum (group_sizes stats) = total_images stats /\
    Forall (fun k => 1 <= k <= largest_group_size stats) (group_sizes stats) /\
    (group_sizes stats <> [] -> largest_group_size stats ∈ group_sizes stats).
Proof.
  assert (HT : 0 <= threshold (init 10)) by (cbn; lia).
  split; [exact HT|].
  destruct three_frames_deduplicated as (self' & stats & E).
  exists self', stats. split; [exact E|].
  exact (group_sizes_add_up three_frames three_sizes no_random
           [frame_a; frame_b; frame_c] "highest_res" (init 10) self'
           (list_to_set [frame_b; frame_c]) stats E HT).
Defined.

End DeduplicatorFacts.

(** ** Frame files: what the writer names, the other stages accept *)

Module FrameFileFacts.
Import FrameName.

Lemma rfind_from_absent (c : ascii) (l : list ascii) (i : nat) (found : option nat) :
  c ∉ l -> Py.rfind_from c l i found = found.
Proof.
  revert i found. induction l as [|x l IH]; intros i found Hno; [reflexivity|].
  apply not_elem_of_cons in Hno as [Hne Hno]. cbn [Py.rfind_from].
  rewrite IH by exact Hno. destruct (Ascii.eqb_spec x c); [congruence | reflexivity].
Qed.

Lemma rfind_from_last (c : ascii) (l1 l2 : list ascii) (i : nat) (found : option nat) :
  c ∉ l2 -> Py.rfind_from c (l1 ++ c :: l2) i found = Some (i + length l1)%nat.
Proof.
  intros Hno. revert i found. induction l1 as [|x l1 IH]; intros i found.
  - cbn [app Py.rfind_from length]. rewrite Ascii.eqb_refl, rfind_from_absent by exact Hno.
    f_equal. lia.
  - cbn [app Py.rfind_from length]. rewrite IH. f_equal. lia.
Qed.

(** A file name [body + ".jpg"] in a folder passes both extension
    tests: the one of [process_directory] and the one of the clean-up. *)
Lemma jpg_name_passes_filters (folder : string) (body : list ascii) :
  "/"%char ∉ body -> body <> [] ->
  let path := folder ++ "/" ++ string_of_list_ascii body ++ ".jpg" in
  Dedup.path_suffix path = ".jpg" /\ Session.is_jpg path = true.
Proof.
  intros Hslash Hne path.
  set (name := (body ++ Py.chars ".jpg")%list).
  assert (Hname : List.last (Py.split "/" path) "" = string_of_list_ascii name).
  { unfold path, Py.split.
    rewrite !HasherFacts.chars_append, FrameNameFacts.chars_of_list.
    change (Py.chars "/" ++ ?l)%list with ("/"%char :: l). fold name.
    rewrite FrameNameFacts.last_pieces, FrameNameFacts.split_chars_app.
    rewrite (FrameNameFacts.split_chars_none "/" name).
    - now rewrite List.last_last.
    - unfold name. rewrite elem_of_app. intros [?|Hin]; [contradiction|].
      vm_compute in Hin. set_solver. }
  split.
  - unfold Dedup.path_suffix. rewrite Hname. unfold Py.rfind.
    rewrite FrameNameFacts.chars_of_list. unfold name.
    change (Py.chars ".jpg") with ("."%char :: Py.chars "jpg").
    rewrite rfind_from_last by (vm_compute; set_solver).
    rewrite <- HammingFacts.chars_length, FrameNameFacts.chars_of_list, length_app.
    cbn [Nat.add length Py.chars list_ascii_of_string].
    assert (0 < length body)%nat by (destruct body; [congruence | cbn; lia]).
    replace (0 <? length body)%nat with true by (symmetry; apply Nat.ltb_lt; lia).
    replace (length body <? length body + 4 - 1)%nat with true
      by (symmetry; apply Nat.ltb_lt; lia).
    cbn [andb]. rewrite drop_app_length. reflexivity.
  - unfold Session.is_jpg, Py.endswith. rewrite Hname. apply bool_decide_eq_true.
    rewrite <- !HammingFacts.chars_length, FrameNameFacts.chars_of_list. unfold name.
    rewrite length_app. cbn [length Py.chars list_ascii_of_string].
    replace (length body + 4 - 4)%nat with (length body) by lia.
    now rewrite drop_app_length.
Qed.

Lemma format_3f_no_slash (t : Q) : "/"%char ∉ Py.chars (format_3f t).
Proof.
  unfold format_3f.
  assert (Hd : forall n, "/"%char ∉ Py.chars (str_of_N n)).
  { intros n. apply FrameNameFacts.not_digit_absent;
      [unfold is_digit; vm_compute; lia | apply FrameNameFacts.digits_of_N]. }
  assert (Hp : forall n, "/"%char ∉ Py.chars (pad3 (str_of_N n))).
  { intros n. apply FrameNameFacts.not_digit_absent;
      [unfold is_digit; vm_compute; lia
      | apply FrameNameFacts.digits_of_pad3, FrameNameFacts.digits_of_N]. }
  rewrite !HasherFacts.chars_append, !elem_of_app.
  intros [Hin|[Hin|[Hin|Hin]]].
  - destruct (Qlt_le_dec t 0); vm_compute in Hin; set_solver.
  - exact (Hd _ Hin).
  - vm_compute in Hin; set_solver.
  - exact (Hp _ Hin).
Qed.

(** X12. Every file [save_frames] writes, whatever the timestamp, has the
    extension [process_directory] looks for and the ending the clean-up
    of the cycle removes. *)
Theorem frame_files_pass_extension_filters (folder : string) (t : Q) :
  let path := folder ++ "/" ++ frame_filename t in
  Py.lower (Dedup.path_suffix path) ∈ Dedup.valid_extensions /\
  Session.is_jpg path = true.
Proof.
  intros path.
  assert (E : frame_filename t
              = string_of_list_ascii (Py.chars ("frame_" ++ format_3f t)) ++ ".jpg").
  { unfold frame_filename. rewrite string_of_list_ascii_of_string.
    now rewrite FrameNameFacts.append_assoc. }
  destruct (jpg_name_passes_filters folder (Py.chars ("frame_" ++ format_3f t)))
    as [Hs Hj].
  - rewrite HasherFacts.chars_append, elem_of_app. intros [Hin|Hin].
    + vm_compute in Hin. set_solver.
    + exact (format_3f_no_slash t Hin).
  - rewrite HasherFacts.chars_append. discriminate.
  - cbn zeta in Hs, Hj. rewrite <- E in Hs, Hj. fold path in Hs, Hj.
    split; [|exact Hj]. rewrite Hs. vm_compute. left.
Qed.

(** Rounding moves a value by at most one half. *)
Lemma round_half_even_near (q : Q) :
  0 <= Qnum q ->
  2 * Z.of_N (round_half_even q) * Zpos (Qden q) - 2 * Qnum q <= Zpos (Qden q) /\
  2 * Qnum q - 2 * Z.of_N (round_half_even q) * Zpos (Qden q) <= Zpos (Qden q).
Proof.
  intros Hq. unfold round_half_even.
  set (n := Z.to_N (Qnum q)). set (d := Npos (Qden q)).
  assert (Hn : Z.of_N n = Qnum q) by (unfold n; lia).
  assert (Hd : Z.of_N d = Zpos (Qden q)) by reflexivity.
  pose proof (N.div_mod' n d) as Hdiv.
  assert (Hmod : (n mod d < d)%N) by (apply N.mod_lt; discriminate).
  apply (f_equal Z.of_N) in Hdiv. rewrite N2Z.inj_add, N2Z.inj_mul in Hdiv.
  rewrite <- Hn, <- Hd.
  set (fl := (n / d)%N) in *. set (r := (n mod d)%N) in *.
  assert (Hcases : forall k : N, k = fl \/ k = (fl + 1)%N ->
            (k = fl -> (2 * r <= d)%N) -> (k = (fl + 1)%N -> (d <= 2 * r)%N) ->
            2 * Z.of_N k * Z.of_N d - 2 * Z.of_N n <= Z.of_N d /\
            2 * Z.of_N n - 2 * Z.of_N k * Z.of_N d <= Z.of_N d).
  { intros k [-> | ->] Hlo Hhi.
    - specialize (Hlo eq_refl). split; nia.
    - specialize (Hhi eq_refl). rewrite N2Z.inj_add. split; nia. }
  destruct (N.compare_spec (2 * r) d) as [E|E|E].
  - destruct (N.even fl); apply Hcases; auto; intros _; lia.
  - apply Hcases; [now left | intros _; lia | lia].
  - apply Hcases; [now right | lia | intros _; lia].
Qed.

(** X13. The timestamp [add_recordings] stores for a frame [save_frames]
    wrote at [0 <= t] is a whole number of seconds: the milliseconds of
    the name are dropped. It lies between [t - 0.9995] and
    [t + 0.0005], so frames up to a second apart get one timestamp. *)
Theorem frame_timestamp_read_back_in_whole_seconds (folder : string) (t : Q) :
  (0 <= t)%Q ->
  exists secs : N,
    timestamp_of_path (folder ++ "/" ++ frame_filename t)
      = Some (Finite (inject_Z (Z.of_N secs))) /\
    (t - (9995 # 10000) <= inject_Z (Z.of_N secs))%Q /\
    (inject_Z (Z.of_N secs) <= t + (5 # 10000))%Q.
Proof.
  intros Ht. exists (round_half_even (Qabs t * 1000) / 1000)%N.
  split; [now apply FrameNameFacts.timestamp_of_frame_filename|].
  destruct t as [n d]. unfold Qle in Ht. cbn in Ht.
  assert (Hn : 0 <= n) by lia.
  destruct (round_half_even_near (Qabs (n # d) * 1000)) as [Hup Hdown].
  { cbn. lia. }
  set (ms := round_half_even (Qabs (n # d) * 1000)) in *.
  cbn [Qabs Qmult Qnum Qden] in Hup, Hdown.
  rewrite Z.abs_eq in Hup, Hdown by exact Hn.
  rewrite Pos.mul_1_r in Hup, Hdown.
  pose proof (N.div_mod' ms 1000) as Hdiv.
  assert (Hmod : (ms mod 1000 < 1000)%N) by (apply N.mod_lt; discriminate).
  set (secs := (ms / 1000)%N) in *. set (m := (ms mod 1000)%N) in *.
  clearbody secs m ms.
  assert (Hlo : 1000 * Z.of_N secs <= Z.of_N ms) by lia.
  assert (Hhi : Z.of_N ms <= 1000 * Z.of_N secs + 999) by lia.
  unfold Qle, Qminus, Qplus, Qopp, inject_Z. cbn [Qnum Qden].
  split; nia.
Qed.

(** The name written at 12.345 s is read back as a whole number of
    seconds. *)
Lemma frame_timestamp_read_back_in_whole_seconds_witness :
  (0 <= 12345 # 1000)%Q /\
  exists secs : N,
    timestamp_of_path ("temp_photo" ++ "/" ++ frame_filename (12345 # 1000))
      = Some (Finite (inject_Z (Z.of_N secs))) /\
    ((12345 # 1000) - (9995 # 10000) <= inject_Z (Z.of_N secs))%Q /\
    (inject_Z (Z.of_N secs) <= (12345 # 1000) + (5 # 10000))%Q.
Proof.
  split; [discriminate|].
  apply (frame_timestamp_read_back_in_whole_seconds "temp_photo" (12345 # 1000)).
  discriminate.
Defined.

End FrameFileFacts.

(** ** The capture pipeline: frames accounted for, and how it can stall *)

Module PipelineFacts.
Import Capture.

(** Case analysis on one step. *)
Ltac step_inv H :=
  unfold Capture.step in H;
  repeat match type of H with
         | context [match ?x with _ => _ end] => destruct x eqn:?
         | context [if ?b then _ else _] => destruct b eqn:?
         end;
  try discriminate H;
  injection H as <-.

Section WithPixels.

Variable Pixels : Type.

Abbreviation state := (state Pixels).
Abbreviation started := (@started Pixels).

Lemma step_conserved (ev : event Pixels) (s s' : state) :
  conserved s -> step ev s = Some s' -> conserved s'.
Proof.
  unfold conserved. intros Hc Hstep.
  step_inv Hstep;
    cbn [frame_queue enqueued written discarded set_capture set_save set_stopper];
    repeat match goal with
           | H : frame_queue _ = _ |- _ => rewrite H in *; clear H
           end;
    try exact Hc; rewrite Hc; clear; solve_Permutation.
Qed.

(** X14. Whatever the schedule, the frames enqueued are, counted with
    repetitions, the frames written, the frames discarded and the
    frames still in the queue: no frame is lost from the account, none
    is written or discarded twice, and nothing is written that was not
    enqueued. *)
Theorem enqueued_frames_are_written_discarded_or_queued
    (evs : list (event Pixels)) (s : state) :
  run evs started = Some s ->
  enqueued s ≡ₚ (written s ++ discarded s ++ frame_queue s)%list /\
  length (saved s) = (length (enqueued s) - length (discarded s) - length (frame_queue s))%nat.
Proof.
  intros Hrun.
  assert (Hc : conserved s).
  { revert Hrun. apply (CaptureFacts.run_invariant Pixels conserved).
    - exact step_conserved.
    - unfold conserved. cbn. reflexivity. }
  split; [exact Hc|]. unfold saved. rewrite length_map.
  apply Permutation_length in Hc. rewrite !length_app in Hc. lia.
Qed.

Lemma step_late_ok (ev : event Pixels) (s s' : state) :
  stop_ok s -> late_ok s -> step ev s = Some s' -> late_ok s'.
Proof.
  intros (Hidle & _ & _) Hlate Hstep. unfold late_ok in *.
  step_inv Hstep;
    cbn [capture enqueued enqueued_at_stop set_capture set_save set_stopper];
    intros l0 Hl0;
    try (destruct (Hlate l0 Hl0) as (extra & E & [->|[[f0 ->] [Hc|Hc]]]);
         first [ congruence
               | exists []; split; [exact E | now left]
               | exists [f0]; split; [exact E|]; right; split;
                 [eauto | first [now left | now right | congruence]] ]; fail).
  - (* the loop test with the event unset: no stop was recorded *)
    destruct (Hidle eq_refl). congruence.
  - (* put: nothing was enqueued since the stop event *)
    destruct (Hlate l0 Hl0) as (extra & E & [->|[_ [Hc|Hc]]]); try congruence.
    exists [item]. split; [rewrite E; now rewrite app_nil_r|]. right. eauto.
  - (* stop_capture sets the event *)
    injection Hl0 as <-. exists []. split; [now rewrite app_nil_r | now left].
Qed.

(** X15. Once [stop_capture] has set the stop event, the producer enqueues
    at most one more frame, whatever the schedule: what is enqueued is
    what was enqueued at that moment followed by at most one frame. *)
Theorem at_most_one_frame_enqueued_after_stop
    (evs : list (event Pixels)) (s : state) (l : list (Frame Pixels)) :
  run evs started = Some s ->
  enqueued_at_stop s = Some l ->
  exists extra, enqueued s = (l ++ extra)%list /\ (length extra <= 1)%nat.
Proof.
  intros Hrun Hl.
  assert (Hinv : stop_ok s /\ late_ok s).
  { revert Hrun. apply (CaptureFacts.run_invariant Pixels (fun s => stop_ok s /\ late_ok s)).
    - intros ev s0 s1 [Hs Hlate] Hstep. split.
      + exact (CaptureFacts.step_stop_ok Pixels ev s0 s1 Hs Hstep).
      + exact (step_late_ok ev s0 s1 Hs Hlate Hstep).
    - split; [apply CaptureFacts.started_ok | discriminate]. }
  destruct Hinv as [_ Hlate]. destruct (Hlate l Hl) as (extra & E & Hextra).
  exists extra. split; [exact E|].
  destruct Hextra as [->|[[f ->] _]]; cbn; lia.
Qed.

Lemma step_joined_ok (ev : event Pixels) (s s' : state) :
  joined_ok s -> step ev s = Some s' -> joined_ok s'.
Proof.
  unfold joined_ok. intros Hj Hstep.
  step_inv Hstep;
    cbn [capture stopper set_capture set_save set_stopper];
    unfold thread_alive_capture in *;
    destruct (stopper s) eqn:Ex; destruct (capture s) eqn:Ec;
    first [exact I | reflexivity | congruence].
Qed.

(** The producer has returned, the queue is empty and [stop_capture]
    is in the [get] of its drain loop: no step changes that. *)
Lemma step_drain_waits (ev : event Pixels) (s s' : state) :
  capture s = CReturned /\ stopper s = XDrainGet /\ frame_queue s = [] ->
  step ev s = Some s' ->
  capture s' = CReturned /\ stopper s' = XDrainGet /\ frame_queue s' = [].
Proof.
  intros (Hc & Hx & Hq) Hstep.
  step_inv Hstep;
    cbn [capture stopper frame_queue set_capture set_save set_stopper];
    try congruence; auto.
Qed.

(** X16. [stop_capture] can wait for ever. Its drain loop tests
    [empty()] and then calls [get()] without a timeout; in any session,
    when the writer takes the last frame in between, the call is in
    [get] with the queue empty and the producer already joined. From
    then on no schedule fills the queue or lets the call go on: it
    stays in [get], and its step is never enabled. *)
Theorem stop_capture_waits_for_ever_on_emptied_queue
    (evs more : list (event Pixels)) (s s' : state) :
  run evs started = Some s ->
  stopper s = XDrainGet ->
  frame_queue s = [] ->
  run more s = Some s' ->
  stopper s' = XDrainGet /\ frame_queue s' = [] /\ step StopDrainGet s' = None.
Proof.
  intros Hrun Hx Hq Hmore.
  assert (Hj : joined_ok s).
  { revert Hrun. apply (CaptureFacts.run_invariant Pixels joined_ok).
    - exact step_joined_ok.
    - exact I. }
  unfold joined_ok in Hj. rewrite Hx in Hj.
  assert (Hw : capture s' = CReturned /\ stopper s' = XDrainGet /\ frame_queue s' = []).
  { revert Hmore.
    apply (CaptureFacts.run_invariant Pixels
             (fun s => capture s = CReturned /\ stopper s = XDrainGet /\ frame_queue s = []));
      [exact step_drain_waits | auto]. }
  destruct Hw as (Hc' & Hx' & Hq'). split; [exact Hx'|]. split; [exact Hq'|].
  unfold step. rewrite Hc', Hx', Hq'. destruct (save s'); reflexivity.
Qed.

(** The writer thread has ended with an exception: no step restarts it
    or writes a file. *)
Lemma step_writer_ended (e : exn) (w : list (Frame Pixels)) (ev : event Pixels)
    (s s' : state) :
  save s = SRaised e /\ written s = w -> step ev s = Some s' ->
  save s' = SRaised e /\ written s' = w.
Proof.
  intros (Hs & Hw) Hstep.
  step_inv Hstep; cbn [save written set_capture set_save set_stopper];
    try congruence; auto.
Qed.

(** X17. The first wait of the writer that times out, and the first write
    that fails, end the writer thread with [AttributeError], in any
    state and before or after the stop event: whatever is scheduled
    afterwards, the thread stays dead and no further frame is written. *)
Theorem writer_thread_ends_at_first_timeout_or_failed_write
    (ev : event Pixels) (evs : list (event Pixels)) (s s' : state) :
  ev = SaveTimeout \/ ev = SaveGet false ->
  run (ev :: evs) s = Some s' ->
  save s' = SRaised AttributeError /\
  thread_alive_save s' = false /\
  written s' = written s.
Proof.
  intros Hev Hrun. cbn [Capture.run] in Hrun.
  destruct (step ev s) as [s1|] eqn:Hstep; [|discriminate].
  assert (H1 : save s1 = SRaised AttributeError /\ written s1 = written s).
  { destruct Hev as [-> | ->]; step_inv Hstep;
      cbn [save written set_save];
      match goal with
      | H : save_frames_handlers _ = _ |- _ =>
          rewrite CaptureFacts.save_frames_handlers_raise in H; inversion H; subst
      end; auto. }
  assert (H2 : save s' = SRaised AttributeError /\ written s' = written s).
  { revert Hrun.
    apply (CaptureFacts.run_invariant Pixels
             (fun s0 => save s0 = SRaised AttributeError /\ written s0 = written s));
      [apply step_writer_ended | exact H1]. }
  destruct H2 as [Hs Hw]. split; [exact Hs|]. split; [|exact Hw].
  unfold thread_alive_save. now rewrite Hs.
Qed.

End WithPixels.

Import Examples.

(** The frame written in the session of [write_then_stop]. *)
Lemma enqueued_frames_are_written_discarded_or_queued_witness :
  run write_then_stop (@started nat) = Some written_and_stopped /\
  enqueued written_and_stopped
    ≡ₚ (written written_and_stopped ++ discarded written_and_stopped
        ++ frame_queue written_and_stopped)%list /\
  length (saved written_and_stopped)
    = (length (enqueued written_and_stopped) - length (discarded written_and_stopped)
       - length (frame_queue written_and_stopped))%nat.
Proof.
  split; [reflexivity|].
  apply (enqueued_frames_are_written_discarded_or_queued nat write_then_stop
           written_and_stopped).
  reflexivity.
Defined.

(** A frame grabbed before the stop event and enqueued after it. *)
Lemma at_most_one_frame_enqueued_after_stop_witness :
  run put_after_stop (@started nat) = Some enqueued_after_stop /\
  enqueued_at_stop enqueued_after_stop = Some [] /\
  exists extra,
    enqueued enqueued_after_stop = ([] ++ extra)%list /\ (length extra <= 1)%nat.
Proof.
  split; [reflexivity|]. split; [reflexivity|].
  apply (at_most_one_frame_enqueued_after_stop nat put_after_stop enqueued_after_stop []);
    reflexivity.
Defined.

(** The writer takes the only frame between the test and the [get] of
    the drain loop, then returns; [stop_capture] still waits. *)
Lemma stop_capture_waits_for_ever_on_emptied_queue_witness :
  run writer_empties_queue_under_drain (@started nat) = Some drain_waits /\
  stopper drain_waits = XDrainGet /\
  frame_queue drain_waits = [] /\
  run [SaveTest] drain_waits = Some drain_waits_writer_returned /\
  stopper drain_waits_writer_returned = XDrainGet /\
  frame_queue drain_waits_writer_returned = [] /\
  step StopDrainGet drain_waits_writer_returned = None.
Proof.
  split; [reflexivity|]. split; [reflexivity|]. split; [reflexivity|].
  split; [reflexivity|].
  apply (stop_capture_waits_for_ever_on_emptied_queue nat
           writer_empties_queue_under_drain [SaveTest] drain_waits
           drain_waits_writer_returned); reflexivity.
Defined.

(** The first wait of a session times out; the frame the producer
    enqueues afterwards is never taken. *)
Lemma writer_thread_ends_at_first_timeout_or_failed_write_witness :
  (@SaveTimeout nat = SaveTimeout \/ @SaveTimeout nat = SaveGet false) /\
  run (SaveTimeout :: [CaptureTest; CaptureGrab (Some (7%nat, 0.05%Q)); CapturePut])
    writer_waiting = Some frame_without_writer /\
  save frame_without_writer = SRaised AttributeError /\
  thread_alive_save frame_without_writer = false /\
  written frame_without_writer = written writer_waiting.
Proof.
  split; [now left|]. split; [reflexivity|].
  apply (writer_thread_ends_at_first_timeout_or_failed_write nat SaveTimeout
           [CaptureTest; CaptureGrab (Some (7%nat, 0.05%Q)); CapturePut]
           writer_waiting frame_without_writer).
  - now left.
  - reflexivity.
Defined.

End PipelineFacts.

(** ** The hand-off and the cycle: what is removed, and when *)

Module HandOffFacts.
Import Session.

Section WithStorage.

Variable store : collaborator.
Variable isfile : string -> bool.

(** The steps of the loop on one path that goes through. *)
Lemma add_loop_step (path : string) (rest folder added : list string) :
  path ∈ folder -> isfile path = true ->
  is_Some (FrameName.timestamp_of_path path) -> add_raises store path = false ->
  add_loop store isfile (path :: rest) folder added
    = add_loop store isfile rest (filter (fun p => p ≠ path) folder) (added ++ [path]).
Proof.
  intros Hin Hf [t Ht] Hr. cbn [add_loop]. unfold os_remove.
  rewrite bool_decide_true by exact Hin. now rewrite Hf, Ht, Hr.
Qed.

(** The loop stops at a path that does not go through. *)
Lemma add_loop_stops (path : string) (rest folder added : list string) :
  path ∉ folder \/ isfile path = false
    \/ FrameName.timestamp_of_path path = None \/ add_raises store path = true ->
  add_loop store isfile (path :: rest) folder added = (folder, None).
Proof.
  intros Hfail. cbn [add_loop].
  destruct (bool_decide (path ∈ folder)) eqn:Hin; [|reflexivity].
  destruct (isfile path) eqn:Hf; [|reflexivity]. cbn [andb].
  destruct (FrameName.timestamp_of_path path) eqn:Ht; [|reflexivity].
  destruct (add_raises store path) eqn:Hr; [reflexivity|].
  apply bool_decide_eq_true in Hin.
  destruct Hfail as [?|[?|[?|?]]]; [contradiction | discriminate ..].
Qed.

(** A loop that has gone past its first path. *)
Lemma add_loop_went_on (path : string) (rest folder added : list string)
    (folder' added' : list string) :
  add_loop store isfile (path :: rest) folder added = (folder', Some added') ->
  path ∈ folder /\ isfile path = true /\
  is_Some (FrameName.timestamp_of_path path) /\ add_raises store path = false.
Proof.
  cbn [add_loop]. case_bool_decide as Hin; [|discriminate].
  destruct (isfile path); [|discriminate]. cbn [andb].
  destruct (FrameName.timestamp_of_path path) as [t|]; [|discriminate].
  destruct (add_raises store path); [discriminate|]. eauto.
Qed.

Lemma add_loop_sublist (source folder added : list string) :
  (add_loop store isfile source folder added).1 `sublist_of` folder.
Proof.
  revert folder added. induction source as [|path rest IH]; intros folder added;
    [reflexivity|].
  destruct (decide (path ∈ folder /\ isfile path = true /\
                    is_Some (FrameName.timestamp_of_path path) /\
                    add_raises store path = false)) as [(H1 & H2 & H3 & H4)|Hno].
  - rewrite add_loop_step by assumption.
    etransitivity; [apply IH | apply sublist_filter].
  - rewrite add_loop_stops; [reflexivity|].
    destruct (decide (path ∈ folder)); [|auto].
    destruct (isfile path); [|auto].
    destruct (FrameName.timestamp_of_path path) eqn:Ht; [|auto].
    destruct (add_raises store path); [auto|].
    exfalso. apply Hno. eauto.
Qed.

Lemma add_loop_source_present (source folder added folder' added' : list string) :
  add_loop store isfile source folder added = (folder', Some added') ->
  NoDup source /\
  forall p, p ∈ source ->
    p ∈ folder /\ isfile p = true /\
    is_Some (FrameName.timestamp_of_path p) /\ add_raises store p = false.
Proof.
  revert folder added. induction source as [|path rest IH]; intros folder added Hloop.
  - split; [constructor|]. intros p Hp. now apply elem_of_nil in Hp.
  - destruct (add_loop_went_on _ _ _ _ _ _ Hloop) as (H1 & H2 & H3 & H4).
    rewrite add_loop_step in Hloop by assumption.
    destruct (IH _ _ Hloop) as [Hnd Hall].
    split.
    + apply NoDup_cons. split; [|exact Hnd].
      intros Hp. destruct (Hall path Hp) as [Hp1 _].
      apply list_elem_of_filter in Hp1. tauto.
    + intros p Hp. apply elem_of_cons in Hp as [->|Hp]; [auto|].
      destruct (Hall p Hp) as (Hp1 & ? & ? & ?).
      apply list_elem_of_filter in Hp1. tauto.
Qed.

Lemma filter_not_in_nil (folder : list string) :
  filter (fun q => q ∉ @nil string) folder = folder.
Proof.
  induction folder as [|x folder IH]; [reflexivity|].
  rewrite filter_cons. rewrite decide_True by apply not_elem_of_nil. now f_equal.
Qed.

Lemma add_loop_returns_filter (source folder added folder' added' : list string) :
  add_loop store isfile source folder added = (folder', Some added') ->
  folder' = filter (fun p => p ∉ source) folder.
Proof.
  revert folder added. induction source as [|path rest IH]; intros folder added Hloop.
  - cbn in Hloop. injection Hloop as <- _. now rewrite filter_not_in_nil.
  - destruct (add_loop_went_on _ _ _ _ _ _ Hloop) as (H1 & H2 & H3 & H4).
    rewrite add_loop_step in Hloop by assumption.
    rewrite (IH _ _ Hloop), list_filter_filter.
    apply list_filter_iff. intros x. rewrite not_elem_of_cons. tauto.
Qed.

(** X18. [add_recordings] returns only for a source of distinct paths
    that are all regular files of the folder and carry a timestamp
    [float] accepts; it has then removed exactly the files of
    [source], whether the storage kept the objects or not, and the
    failed objects it logs are the rejected ones. *)
Theorem add_recordings_returned_removes_source
    (source folder folder' failed : list string) :
  add_recordings store isfile source folder = (folder', Returned failed) ->
  folder' = filter (fun p => p ∉ source) folder /\
  failed = filter (fun p => rejects store p = true) source /\
  NoDup source /\
  forall p, p ∈ source ->
    p ∈ folder /\ isfile p = true /\ is_Some (FrameName.timestamp_of_path p).
Proof.
  unfold add_recordings.
  destruct (add_loop store isfile source folder []) as [folder1 [added|]] eqn:Hloop;
    [|discriminate].
  destruct (exit_raises store); [discriminate|].
  intros [= <- <-].
  destruct (SessionFacts.add_loop_returns store isfile _ _ _ _ _ Hloop) as [-> _].
  destruct (add_loop_source_present _ _ _ _ _ Hloop) as [Hnd Hall].
  cbn [app]. split; [|split; [reflexivity|split; [exact Hnd|]]].
  - exact (add_loop_returns_filter _ _ _ _ _ Hloop).
  - intros p Hp. destruct (Hall p Hp) as (? & ? & ? & _). auto.
Qed.

(** The loop over a prefix that goes through: its files are removed,
    and the loop goes on with the rest. *)
Lemma add_loop_prefix (pre rest folder added : list string) :
  NoDup pre ->
  (forall q, q ∈ pre ->
     q ∈ folder /\ isfile q = true /\
     is_Some (FrameName.timestamp_of_path q) /\ add_raises store q = false) ->
  add_loop store isfile (pre ++ rest) folder added
    = add_loop store isfile rest (filter (fun q => q ∉ pre) folder) (added ++ pre).
Proof.
  revert folder added. induction pre as [|q pre IH]; intros folder added Hnd Hall.
  - cbn [app]. now rewrite app_nil_r, filter_not_in_nil.
  - apply NoDup_cons in Hnd as [Hq Hnd].
    destruct (Hall q) as (Hin & Hf & Ht & Hr); [left|].
    cbn [app]. rewrite add_loop_step by assumption.
    rewrite IH.
    + rewrite list_filter_filter, <- app_assoc. cbn [app]. f_equal.
      apply list_filter_iff. intros x. rewrite not_elem_of_cons. tauto.
    + exact Hnd.
    + intros q' Hq'. destruct (Hall q') as (Hin' & ? & ? & ?); [now right|].
      split; [|auto]. rewrite list_elem_of_filter. split; [|exact Hin'].
      intros ->. contradiction.
Qed.

(** X19. The hand-off is not atomic. When it raises at one object (a
    file that is missing or is a directory, a name without a timestamp
    [float] accepts, or a failure of the storage), the files of the
    objects added before it are already removed and stay removed, and
    the later files are untouched. *)
Theorem add_recordings_raise_keeps_earlier_removals
    (pre post folder : list string) (path : string) :
  NoDup pre ->
  (forall q, q ∈ pre ->
     q ∈ folder /\ isfile q = true /\
     is_Some (FrameName.timestamp_of_path q) /\ add_raises store q = false) ->
  path ∉ filter (fun q => q ∉ pre) folder
    \/ isfile path = false
    \/ FrameName.timestamp_of_path path = None
    \/ add_raises store path = true ->
  add_recordings store isfile (pre ++ path :: post) folder
    = (filter (fun q => q ∉ pre) folder, Raised).
Proof.
  intros Hnd Hall Hfail. unfold add_recordings.
  rewrite (add_loop_prefix pre (path :: post) folder [] Hnd Hall).
  now rewrite add_loop_stops.
Qed.

Variable slot : string -> nat.
Variable open_grey_resized : string -> Z -> Z -> option (list (list Z)).
Variable image_size : string -> option (Z * Z).
Variable randbelow : list string -> nat.

(** X20. A cycle removes entries and never adds or reorders one,
    however it ends: what is left is a sublist of the folder scanned
    followed by what arrived during the pass. *)
Theorem dedup_cycle_only_removes
    (output_folder : string) (self : Dedup.ImageDeduplicator)
    (folder arrived : list string) :
  (dedup_cycle store isfile slot open_grey_resized image_size randbelow
     output_folder self folder arrived).1.2
    `sublist_of` (folder ++ arrived)%list.
Proof.
  unfold dedup_cycle.
  destruct (Dedup.deduplicate _ _ _ _ _ _) as [[self' [reps stats]]|]; [|reflexivity].
  case_bool_decide; [|reflexivity].
  unfold add_recordings.
  pose proof (add_loop_sublist (list_of_set slot reps) folder []) as Hsub.
  assert (Hkeep : forall folder1, folder1 `sublist_of` folder ->
                    (folder1 ++ arrived)%list `sublist_of` (folder ++ arrived)%list).
  { intros folder1 H1. now apply sublist_app. }
  destruct (add_loop store isfile (list_of_set slot reps) folder []) as [folder1 [added|]];
    cbn [fst snd] in *; [|now apply Hkeep].
  destruct (exit_raises store); cbn [fst snd]; [now apply Hkeep|].
  etransitivity; [apply sublist_filter | now apply Hkeep].
Qed.

(** X21. With no readable image in the folder the cycle finds no
    representative: it hands nothing over and removes nothing, not
    even files whose name ends in [.jpg]. *)
Theorem dedup_cycle_without_images_changes_nothing
    (output_folder : string) (self : Dedup.ImageDeduplicator)
    (folder arrived : list string) :
  (forall p, p ∈ folder -> ~ Dedup.readable open_grey_resized p) ->
  exists self',
    dedup_cycle store isfile slot open_grey_resized image_size randbelow
      output_folder self folder arrived
      = (self', (folder ++ arrived)%list, Returned []) /\
    Dedup.representatives self' = ∅ /\ Dedup.groups self' = [].
Proof.
  intros Hnone.
  destruct (DeduplicatorFacts.process_paths_recorded open_grey_resized folder)
    as [[_ Hent] _].
  assert (E : Dedup.process_paths open_grey_resized folder [] = []).
  { destruct (Dedup.process_paths open_grey_resized folder []) as [|[p h] l]; [reflexivity|].
    destruct (Hent p h) as (Hp & Hr & _); [left|]. destruct (Hnone p Hp Hr). }
  unfold dedup_cycle, Dedup.deduplicate, Dedup.select_representatives.
  cbn [Dedup.group_similar_images Dedup.process_directory Dedup.groups
       Dedup.threshold Dedup.image_hashes].
  rewrite E. cbn [Dedup.group_loop Dedup.select_loop Dedup.representatives].
  rewrite bool_decide_false by (intros H; now apply H).
  eexists. split; [reflexivity|]. split; reflexivity.
Qed.

(** X22. When every image of the folder is a regular file with a
    timestamp [float] accepts in its name and the storage raises
    nothing, the cycle returns: the representatives are entries of the
    folder, pairwise distinct, so the hand-off goes through all of
    them in the order the set lists them, and the clean-up follows on
    what is left and what arrived. *)
Theorem cycle_returns_when_storage_raises_nothing
    (output_folder : string) (self : Dedup.ImageDeduplicator)
    (folder arrived : list string) :
  (forall p, p ∈ folder -> Dedup.readable open_grey_resized p ->
             isfile p = true /\ is_Some (FrameName.timestamp_of_path p)) ->
  (forall p, p ∈ folder -> add_raises store p = false) ->
  exit_raises store = false ->
  exists self',
    dedup_cycle store isfile slot open_grey_resized image_size randbelow
      output_folder self folder arrived
      = (self',
         if bool_decide (Dedup.representatives self' ≠ ∅)
         then clean_up isfile output_folder
                (filter (fun p => p ∉ Dedup.representatives self') folder ++ arrived)
         else (folder ++ arrived)%list,
         Returned (filter (fun p => rejects store p = true)
                     (list_of_set slot (Dedup.representatives self')))).
Proof.
  intros Hts Hadd Hexit.
  destruct (DeduplicatorFacts.deduplicate_selects open_grey_resized image_size randbelow
              folder "highest_res" self) as (reps & E & _ & Hfrom & _).
  cbn zeta in E, Hfrom.
  assert (Hrep : forall r, r ∈ reps -> r ∈ folder /\ Dedup.readable open_grey_resized r).
  { intros r Hr. destruct (Hfrom r Hr) as (g & Hg & Hrg).
    destruct (DeduplicatorFacts.grouped
                (Dedup.process_paths open_grey_resized folder []) (Dedup.threshold self))
      as (_ & _ & Hsub & _).
    destruct (DeduplicatorFacts.process_paths_recorded open_grey_resized folder)
      as [[_ Hent] _].
    assert (Hkey : r ∈ (Dedup.process_paths open_grey_resized folder []).*1).
    { apply Hsub, list_elem_of_join. eauto. }
    apply list_elem_of_fmap in Hkey as ([r' h] & -> & Hin).
    destruct (Hent r' h Hin) as (? & ? & _). auto. }
  exists {| Dedup.threshold := Dedup.threshold self;
            Dedup.image_hashes := Dedup.process_paths open_grey_resized folder [];
            Dedup.groups :=
              Dedup.groups (Dedup.group_similar_images
                              (Dedup.process_directory open_grey_resized folder self));
            Dedup.representatives := reps |}.
  unfold dedup_cycle, Dedup.deduplicate, Dedup.select_representatives. rewrite E.
  cbn [Dedup.representatives]. case_bool_decide as Hne.
  - unfold add_recordings.
    rewrite <- (app_nil_r (list_of_set slot reps)) at 1.
    rewrite (add_loop_prefix (list_of_set slot reps) [] folder []).
    + cbn [add_loop app]. rewrite Hexit.
      assert (Hleft : filter (fun q => q ∉ list_of_set slot reps) folder
                      = filter (fun p => p ∉ reps) folder).
      { apply list_filter_iff. intros p.
        now rewrite (SessionFacts.list_of_set_members slot). }
      now rewrite Hleft.
    + apply SessionFacts.list_of_set_NoDup.
    + intros q Hq. apply SessionFacts.list_of_set_members in Hq.
      destruct (Hrep q Hq) as [Hin Hr]. destruct (Hts q Hin Hr). auto.
  - subst reps. reflexivity.
Qed.

End WithStorage.

Import Examples.

(** One frame out of three is handed over, and rejected. *)
Lemma add_recordings_returned_removes_source_witness :
  add_recordings rejecting_store all_files [frame_b] [frame_a; frame_b; frame_c]
    = ([frame_a; frame_c], Returned [frame_b]) /\
  [frame_a; frame_c] = filter (fun p => p ∉ [frame_b]) [frame_a; frame_b; frame_c] /\
  [frame_b] = filter (fun p => rejects rejecting_store p = true) [frame_b] /\
  NoDup [frame_b] /\
  forall p, p ∈ [frame_b] ->
    p ∈ [frame_a; frame_b; frame_c] /\ all_files p = true
    /\ is_Some (FrameName.timestamp_of_path p).
Proof.
  split; [vm_compute; reflexivity|].
  apply (add_recordings_returned_removes_source rejecting_store all_files [frame_b]
           [frame_a; frame_b; frame_c] [frame_a; frame_c] [frame_b]).
  vm_compute; reflexivity.
Defined.

(** The second path of the source has no timestamp in its name: the
    first frame is gone, the third is still there. *)
Lemma add_recordings_raise_keeps_earlier_removals_witness :
  NoDup [frame_a] /\
  (forall q, q ∈ [frame_a] ->
     q ∈ [frame_a; picture; frame_c]
     /\ all_files q = true
     /\ is_Some (FrameName.timestamp_of_path q)
     /\ add_raises rejecting_store q = false) /\
  (picture ∉ filter (fun q => q ∉ [frame_a]) [frame_a; picture; frame_c]
   \/ all_files picture = false
   \/ FrameName.timestamp_of_path picture = None
   \/ add_raises rejecting_store picture = true) /\
  add_recordings rejecting_store all_files ([frame_a] ++ picture :: [frame_c])
    [frame_a; picture; frame_c]
    = (filter (fun q => q ∉ [frame_a]) [frame_a; picture; frame_c], Raised).
Proof.
  assert (Hnd : NoDup [frame_a]) by apply NoDup_singleton.
  assert (Hall : forall q, q ∈ [frame_a] ->
            q ∈ [frame_a; picture; frame_c]
            /\ all_files q = true
            /\ is_Some (FrameName.timestamp_of_path q)
            /\ add_raises rejecting_store q = false).
  { intros q Hq. apply list_elem_of_singleton in Hq. subst q.
    split; [left|]. split; [reflexivity|]. split; [|reflexivity].
    vm_compute. eexists. reflexivity. }
  assert (Hfail : picture ∉ filter (fun q => q ∉ [frame_a]) [frame_a; picture; frame_c]
                  \/ all_files picture = false
                  \/ FrameName.timestamp_of_path picture = None
                  \/ add_raises rejecting_store picture = true).
  { right. right. left. vm_compute. reflexivity. }
  split; [exact Hnd|]. split; [exact Hall|]. split; [exact Hfail|].
  exact (add_recordings_raise_keeps_earlier_removals rejecting_store all_files
           [frame_a] [frame_c] [frame_a; picture; frame_c] picture Hnd Hall Hfail).
Defined.

Lemma not_an_image (p : string) : p ∈ [notes] -> ~ Dedup.readable three_frames p.
Proof.
  intros Hp [Hext _]. apply list_elem_of_singleton in Hp. subst p.
  assert (E : bool_decide (Py.lower (Dedup.path_suffix notes) ∈ Dedup.valid_extensions)
              = false) by (vm_compute; reflexivity).
  apply bool_decide_eq_false in E. contradiction.
Qed.

(** A folder that holds a text file only; a frame arrives during the
    pass and stays. *)
Lemma dedup_cycle_without_images_changes_nothing_witness :
  (forall p, p ∈ [notes] -> ~ Dedup.readable three_frames p) /\
  exists self',
    dedup_cycle rejecting_store all_files one_slot three_frames three_sizes no_random
      "temp_photo" (Dedup.init 10) [notes] [frame_d]
      = (self', ([notes] ++ [frame_d])%list, Returned []) /\
    Dedup.representatives self' = ∅ /\ Dedup.groups self' = [].
Proof.
  split; [exact not_an_image|].
  apply (dedup_cycle_without_images_changes_nothing rejecting_store all_files one_slot
           three_frames three_sizes no_random "temp_photo" (Dedup.init 10) [notes] [frame_d]).
  exact not_an_image.
Defined.

Lemma frames_are_files_with_timestamps (p : string) :
  p ∈ [frame_a; frame_b; frame_c; kept_frame] ->
  all_files p = true /\ is_Some (FrameName.timestamp_of_path p).
Proof.
  intros Hp. split; [reflexivity|]. rewrite !elem_of_cons, elem_of_nil in Hp.
  destruct Hp as [-> | [-> | [-> | [-> | []]]]]; vm_compute; eexists; reflexivity.
Qed.

(** Three frames and a fourth in a sub-folder, all with the same
    content, a frame that arrives during the pass, and a storage that
    raises nothing. *)
Lemma cycle_returns_when_storage_raises_nothing_witness :
  (forall p, p ∈ [frame_a; frame_b; frame_c; kept_frame] -> Dedup.readable same_frames p ->
             all_files p = true /\ is_Some (FrameName.timestamp_of_path p)) /\
  (forall p, p ∈ [frame_a; frame_b; frame_c; kept_frame] ->
             add_raises rejecting_store p = false) /\
  exit_raises rejecting_store = false /\
  exists self',
    dedup_cycle rejecting_store all_files one_slot same_frames three_sizes no_random
      "temp_photo" (Dedup.init 10) [frame_a; frame_b; frame_c; kept_frame] [frame_d]
      = (self',
         if bool_decide (Dedup.representatives self' ≠ ∅)
         then clean_up all_files "temp_photo"
                (filter (fun p => p ∉ Dedup.representatives self')
                        [frame_a; frame_b; frame_c; kept_frame] ++ [frame_d])
         else ([frame_a; frame_b; frame_c; kept_frame] ++ [frame_d])%list,
         Returned (filter (fun p => rejects rejecting_store p = true)
                     (list_of_set one_slot (Dedup.representatives self')))).
Proof.
  split; [intros p Hp _; now apply frames_are_files_with_timestamps|].
  split; [reflexivity|]. split; [reflexivity|].
  apply (cycle_returns_when_storage_raises_nothing rejecting_store all_files one_slot
           same_frames three_sizes no_random "temp_photo" (Dedup.init 10)
           [frame_a; frame_b; frame_c; kept_frame] [frame_d]).
  - intros p Hp _. now apply frames_are_files_with_timestamps.
  - reflexivity.
  - reflexivity.
Defined.

End HandOffFacts.

(** ** The conversation with the model *)

Module ChatFacts.
Import Chat.

(** *** References and objects *)

Lemma resolve_app (objects : list Message) (l1 l2 : list nat) :
  resolve objects (l1 ++ l2) = (resolve objects l1 ++ resolve objects l2)%list.
Proof. unfold resolve. apply omap_app. Qed.

(** Objects created later do not change what earlier references
    stand for. *)
Lemma resolve_grow (objects more : list Message) (references : list nat) :
  Forall (fun r => (r < length objects)%nat) references ->
  resolve (objects ++ more) references = resolve objects references.
Proof.
  induction 1 as [|r references Hr _ IH]; [reflexivity|].
  unfold resolve in *. cbn [omap list_omap]. rewrite IH.
  now rewrite lookup_app_l by exact Hr.
Qed.

Lemma resolve_all (objects : list Message) (references : list nat) :
  Forall (fun r => (r < length objects)%nat) references ->
  length (resolve objects references) = length references.
Proof.
  induction 1 as [|r references Hr _ IH]; [reflexivity|].
  unfold resolve in *. cbn [omap list_omap].
  destruct (lookup_lt_is_Some_2 objects r Hr) as [m Hm]. rewrite Hm.
  cbn [length]. now rewrite IH.
Qed.

Lemma refs_ok_init : refs_ok init.
Proof. split; [constructor | discriminate]. Qed.

(** The images of a query all go to the message under way, which is
    the newest object. *)
Lemma images_appended (objects : list Message) (r : string) (images : list string) :
  forall (parts : list part) (self : LLMMessageBuilder),
    heap self = (objects ++ [{| role := r; content := parts |}])%list ->
    let self' := foldl (fun s image_base64 => add_image_base64 (length objects) image_base64 s)
                       self images in
    heap self'
      = (objects
         ++ [{| role := r;
                content := parts ++ map (fun b => ImageUrl (image_url b)) images |}])%list /\
    messages self' = messages self /\
    model self' = model self /\
    current_message self' = current_message self.
Proof.
  induction images as [|b images IH]; intros parts self Hheap.
  - cbn. now rewrite app_nil_r.
  - cbn [foldl map].
    destruct (IH (parts ++ [ImageUrl (image_url b)])%list
                 (add_image_base64 (length objects) b self)) as (Hh & Hm & Hmo & Hc).
    + unfold add_image_base64, append_content. cbn [heap]. rewrite Hheap.
      rewrite alter_app_r_alt by lia. rewrite Nat.sub_diag. reflexivity.
    + cbn zeta. rewrite Hh, Hm, Hmo, Hc, <- app_assoc. repeat split.
Qed.

(** One call of [query] on a builder whose references are sound. *)
Lemma query_spec (near_text : string -> string + list string)
    (create : string -> list (string * api_content) -> Z -> reply)
    (question : string) (self : LLMMessageBuilder) :
  refs_ok self ->
  let self' := (query near_text create question self).1 in
  let out := (query near_text create question self).2 in
  let history := get_conversation_history self in
  refs_ok self' /\ model self' = model self /\
  match near_text question with
  | inl e =>
      get_conversation_history self' = history /\
      out = "Error processing query: " ++ e
  | inr images =>
      let user := user_message question images in
      match create (model self) (map to_dict (history ++ [user])) 500 with
      | Answer answer =>
          get_conversation_history self' = (history ++ [user; assistant_message answer])%list /\
          out = answer
      | CreateRaises e =>
          get_conversation_history self' = (history ++ [user])%list /\
          out = "Error processing query: " ++ "Error sending message to API: " ++ e
      | NoChoice =>
          get_conversation_history self' = (history ++ [user])%list /\
          out = "Error processing query: " ++ "Error sending message to API: "
                ++ "list index out of range"
      end
  end.
Proof.
  intros [Hrefs Hcur]. unfold query, create_message, add_text.
  set (n := length (heap self)).
  set (self2 := append_content n (Text question) _).
  assert (Hheap2 : heap self2
                   = (heap self ++ [{| role := "user"; content := [Text question] |}])%list).
  { unfold self2, append_content. cbn [heap]. unfold n.
    rewrite alter_app_r_alt by lia. now rewrite Nat.sub_diag. }
  assert (Hgrow : forall more, Forall (fun r => (r < length (heap self ++ more))%nat)
                                      (messages self)).
  { intros more. eapply Forall_impl; [exact Hrefs|]. cbn. intros r Hr.
    rewrite length_app. lia. }
  destruct (near_text question) as [e|images].
  - cbn zeta. cbn [fst snd]. split; [|split; [first [exact Hmo | reflexivity]|]].
    + split.
      * cbn [messages self2 append_content]. rewrite Hheap2. apply Hgrow.
      * intros current [= <-]. rewrite Hheap2, length_app. cbn. lia.
    + split; [|reflexivity]. unfold get_conversation_history.
      cbn [messages self2 append_content]. rewrite Hheap2. now apply resolve_grow.
  - destruct (images_appended (heap self) "user" images [Text question] self2 Hheap2)
      as (Hh3 & Hm3 & Hmo3 & Hc3).
    fold n in Hh3, Hm3, Hmo3, Hc3. cbn zeta in Hh3, Hm3, Hmo3, Hc3.
    set (self3 := foldl _ self2 images) in *.
    cbn [app] in Hh3. fold (user_message question images) in Hh3.
    set (user := user_message question images) in *.
    assert (Hm : messages self3 = messages self) by (rewrite Hm3; reflexivity).
    assert (Hmo : model self3 = model self) by (rewrite Hmo3; reflexivity).
    assert (Hc : current_message self3 = Some n) by (rewrite Hc3; reflexivity).
    assert (Hhist : resolve (heap self3) (messages self3 ++ [n])
                    = (get_conversation_history self ++ [user])%list).
    { rewrite resolve_app, Hh3, Hm, resolve_grow by exact Hrefs.
      unfold resolve at 2. cbn [omap list_omap].
      rewrite lookup_app_r by (unfold n; lia). unfold n. rewrite Nat.sub_diag.
      reflexivity. }
    assert (Hapi : get_messages_for_api (add_message n self3)
                   = map to_dict (get_conversation_history self ++ [user])).
    { unfold get_messages_for_api, get_conversation_history, add_message.
      cbn [heap messages]. now rewrite Hhist. }
    unfold send. rewrite Hc. cbn zeta. rewrite Hapi.
    change (model (add_message n self3)) with (model self3). rewrite Hmo.
    assert (Hlen3 : length (heap self3) = S n).
    { rewrite Hh3, length_app. cbn. unfold n. lia. }
    assert (Hold : forall more later,
              Forall (fun r => (r < S n + length more)%nat) later ->
              Forall (fun r => (r < length (heap self3 ++ more))%nat)
                     (messages self3 ++ later)).
    { intros more later Hlater. apply Forall_app. split.
      - rewrite Hm. eapply Forall_impl; [exact Hrefs|]. cbn. intros r Hr.
        rewrite length_app, Hlen3. unfold n. lia.
      - eapply Forall_impl; [exact Hlater|]. cbn. intros r Hr.
        rewrite length_app, Hlen3. lia. }
    assert (Hn : forall k, Forall (fun r => (r < S n + k)%nat) [n])
      by (intros k; constructor; [lia | constructor]).
    destruct (create (model self) (map to_dict (get_conversation_history self ++ [user])) 500)
      as [e| |answer]; cbn [fst snd str]; unfold add_message;
      cbn [heap messages model current_message].
    + split; [|split; [first [exact Hmo | reflexivity]|]].
      * split; cbn [heap messages current_message].
        -- rewrite <- (app_nil_r (heap self3)). now apply Hold.
        -- intros current Hcurrent. rewrite Hc in Hcurrent. injection Hcurrent as <-.
           rewrite Hlen3. lia.
      * split; [|reflexivity]. unfold get_conversation_history.
        cbn [heap messages]. exact Hhist.
    + split; [|split; [first [exact Hmo | reflexivity]|]].
      * split; cbn [heap messages current_message].
        -- now apply Hold.
        -- intros current Hcurrent. rewrite Hc in Hcurrent. injection Hcurrent as <-.
           rewrite length_app, Hlen3. lia.
      * split; [|reflexivity]. unfold get_conversation_history.
        cbn [heap messages].
        rewrite resolve_grow; [exact Hhist|].
        rewrite <- (app_nil_r (heap self3)). now apply Hold.
    + unfold add_text, append_content. cbn [heap messages model current_message].
      rewrite alter_app_r_alt by lia. rewrite Nat.sub_diag.
      cbn [alter list_alter role content app].
      split; [|split; [first [exact Hmo | reflexivity]|]].
      * split; cbn [heap messages current_message]; [|discriminate].
        rewrite <- app_assoc. apply Hold. rewrite Hlen3.
        cbn [app length]. constructor; [lia|]. constructor; [lia|]. constructor.
      * split; [|reflexivity]. unfold get_conversation_history.
        cbn [heap messages]. rewrite resolve_app.
        rewrite resolve_grow by (rewrite <- (app_nil_r (heap self3)); now apply Hold).
        rewrite Hhist. unfold resolve. cbn [omap list_omap].
        rewrite lookup_app_r by lia. rewrite Nat.sub_diag. cbn.
        rewrite <- app_assoc. reflexivity.
Qed.

(** *** A session of questions *)

Lemma queries_snoc (calls : list call) (c : call) (self : LLMMessageBuilder) :
  queries (calls ++ [c]) self
  = (let before := queries calls self in
     let after := query (near_text c) (create c) (question c) before.1 in
     (after.1, (before.2 ++ [after.2])%list)).
Proof.
  unfold queries. rewrite foldl_snoc. cbn zeta.
  destruct (query (near_text c) (create c) (question c) _). reflexivity.
Qed.

Lemma queries_refs_ok (calls : list call) :
  refs_ok (queries calls init).1 /\ model (queries calls init).1 = "gpt-4o".
Proof.
  induction calls as [|c calls IH] using rev_ind.
  - split; [exact refs_ok_init | reflexivity].
  - rewrite queries_snoc. cbn zeta. cbn [fst]. destruct IH as [Hrefs Hmodel].
    destruct (query_spec (near_text c) (create c) (question c) _ Hrefs) as (H1 & H2 & _).
    cbn zeta in H1, H2. split; [exact H1 | congruence].
Qed.

(** X23. One more question after any session. When the search raises, the
    conversation is as before. Otherwise the question, with the images
    found, is added to the conversation and the whole conversation is
    sent; the answer is added and returned, or, when the service
    fails, the question stays in the conversation without an answer
    and the text of the error is returned. *)
Theorem query_adds_question_and_answer (earlier : list call) (c : call) :
  let self := (queries earlier init).1 in
  let history := get_conversation_history self in
  let after := query (near_text c) (create c) (question c) self in
  match near_text c (question c) with
  | inl e =>
      get_conversation_history after.1 = history /\
      after.2 = "Error processing query: " ++ e
  | inr images =>
      let user := user_message (question c) images in
      match create c "gpt-4o" (map to_dict (history ++ [user])) 500 with
      | Answer answer =>
          get_conversation_history after.1
            = (history ++ [user; assistant_message answer])%list /\
          after.2 = answer
      | CreateRaises e =>
          get_conversation_history after.1 = (history ++ [user])%list /\
          after.2 = "Error processing query: " ++ "Error sending message to API: " ++ e
      | NoChoice =>
          get_conversation_history after.1 = (history ++ [user])%list /\
          after.2 = "Error processing query: " ++ "Error sending message to API: "
                    ++ "list index out of range"
      end
  end.
Proof.
  cbn zeta. destruct (queries_refs_ok earlier) as [Hrefs Hmodel].
  destruct (query_spec (near_text c) (create c) (question c) _ Hrefs) as (_ & _ & Hspec).
  cbn zeta in Hspec. rewrite Hmodel in Hspec. exact Hspec.
Qed.

Lemma user_message_shaped (question : string) (images : list string) :
  user_shaped (user_message question images).
Proof.
  split; [reflexivity|]. exists question, (map image_url images).
  cbn. now rewrite map_map.
Qed.

Lemma well_formed_user (after_user : bool) (history : list Message) (u : Message) :
  user_shaped u -> well_formed after_user history ->
  well_formed after_user (history ++ [u]).
Proof.
  intros Hu. revert after_user. induction history as [|m history IH]; intros after_user H.
  - left. split; [exact Hu | exact I].
  - cbn [app well_formed] in *. destruct H as [[Hm H]|(Hb & Hm & H)].
    + left. auto.
    + right. auto.
Qed.

Lemma well_formed_user_assistant (after_user : bool) (history : list Message)
    (u a : Message) :
  user_shaped u -> assistant_shaped a -> well_formed after_user history ->
  well_formed after_user (history ++ [u; a]).
Proof.
  intros Hu Ha. revert after_user.
  induction history as [|m history IH]; intros after_user H.
  - left. split; [exact Hu|]. right. split; [reflexivity|]. split; [exact Ha | exact I].
  - cbn [app well_formed] in *. destruct H as [[Hm H]|(Hb & Hm & H)].
    + left. auto.
    + right. auto.
Qed.

(** X24. Whatever the questions and whatever the two services do, the
    conversation that [query] builds keeps its shape: it never starts
    with an assistant message, an assistant message is one text and
    comes right after a user message, a user message is a question
    followed by images; it holds at most two messages per question,
    and every question gets a string back. *)
Theorem conversation_keeps_its_shape (calls : list call) :
  let after := queries calls init in
  well_formed false (get_conversation_history after.1) /\
  (length (get_conversation_history after.1) <= 2 * length calls)%nat /\
  length after.2 = length calls.
Proof.
  cbn zeta. induction calls as [|c calls IH] using rev_ind.
  - cbn. repeat split; lia.
  - destruct IH as (Hwf & Hlen & Hans).
    destruct (queries_refs_ok calls) as [Hrefs _].
    destruct (query_spec (near_text c) (create c) (question c) _ Hrefs) as (_ & _ & Hspec).
    cbn zeta in Hspec. rewrite queries_snoc. cbn zeta. cbn [fst snd].
    rewrite !length_app. cbn [length].
    split; [|split; [|lia]].
    + destruct (near_text c (question c)) as [e|images].
      * destruct Hspec as [-> _]. exact Hwf.
      * destruct (create c _ _ 500); destruct Hspec as [-> _].
        -- apply well_formed_user; [apply user_message_shaped | exact Hwf].
        -- apply well_formed_user; [apply user_message_shaped | exact Hwf].
        -- apply well_formed_user_assistant;
             [apply user_message_shaped | | exact Hwf].
           split; [reflexivity|]. eexists. reflexivity.
    + destruct (near_text c (question c)) as [e|images].
      * destruct Hspec as [-> _]. lia.
      * destruct (create c _ _ 500); destruct Hspec as [-> _];
          rewrite length_app; cbn [length]; lia.
Qed.

(** *** Sending a message *)

(** X25. A message whose [send] fails is already in the conversation and
    is still the current message: sending it again puts it in the
    conversation a second time, and the service receives it twice.
    After a [send] that returned there is no current message, and a
    further [send] raises [ValueError] and changes nothing. *)
Theorem failed_send_is_repeated_by_the_retry
    (create1 create2 create3 : string -> list (string * api_content) -> Z -> reply)
    (max_tokens : Z) (self : LLMMessageBuilder) (current : nat) (m : Message)
    (e answer : string) :
  refs_ok self ->
  current_message self = Some current ->
  heap self !! current = Some m ->
  create1 (model self) (get_messages_for_api self ++ [to_dict m])%list max_tokens
    = CreateRaises e ->
  create2 (model self) (get_messages_for_api self ++ [to_dict m; to_dict m])%list max_tokens
    = Answer answer ->
  let first := send create1 max_tokens true self in
  let second := send create2 max_tokens true first.1 in
  first.2 = Raise (Exception ("Error sending message to API: " ++ e)) /\
  current_message first.1 = Some current /\
  get_conversation_history first.1 = (get_conversation_history self ++ [m])%list /\
  second.2 = Return answer /\
  current_message second.1 = None /\
  get_conversation_history second.1
    = (get_conversation_history self ++ [m; m; assistant_message answer])%list /\
  send create3 max_tokens true second.1
    = (second.1, Raise (ValueError "No current message to send")).
Proof.
  intros [Hrefs _] Hcur Hm H1 H2.
  assert (Hlt : (current < length (heap self))%nat) by (eapply lookup_lt_Some; exact Hm).
  assert (Hhist1 : resolve (heap self) (messages self ++ [current])
                   = (get_conversation_history self ++ [m])%list).
  { rewrite resolve_app. unfold resolve at 2. cbn [omap list_omap]. now rewrite Hm. }
  assert (Hapi1 : get_messages_for_api (add_message current self)
                  = (get_messages_for_api self ++ [to_dict m])%list).
  { unfold get_messages_for_api, get_conversation_history at 1, add_message.
    cbn [heap messages]. rewrite Hhist1, map_app. reflexivity. }
  assert (E1 : send create1 max_tokens true self
               = (add_message current self,
                  Raise (Exception ("Error sending message to API: " ++ e)))).
  { unfold send. rewrite Hcur. cbn zeta. rewrite Hapi1.
    change (model (add_message current self)) with (model self). now rewrite H1. }
  cbn zeta. rewrite E1. cbn [fst snd].
  split; [reflexivity|]. split; [exact Hcur|].
  split; [exact Hhist1|].
  set (self1 := add_message current self).
  assert (Hhist2 : resolve (heap self1) (messages self1 ++ [current])
                   = (get_conversation_history self ++ [m; m])%list).
  { unfold self1, add_message. cbn [heap messages].
    rewrite resolve_app, Hhist1. unfold resolve at 1. cbn [omap list_omap].
    rewrite Hm, <- app_assoc. reflexivity. }
  assert (Hapi2 : get_messages_for_api (add_message current self1)
                  = (get_messages_for_api self ++ [to_dict m; to_dict m])%list).
  { unfold get_messages_for_api.
    change (get_conversation_history (add_message current self1))
      with (resolve (heap self1) (messages self1 ++ [current])).
    rewrite Hhist2, map_app. reflexivity. }
  assert (E2 : exists self2,
             send create2 max_tokens true self1 = (self2, Return answer) /\
             current_message self2 = None /\
             get_conversation_history self2
               = (get_conversation_history self ++ [m; m; assistant_message answer])%list).
  { unfold send. change (current_message self1) with (current_message self).
    rewrite Hcur. cbn zeta. rewrite Hapi2.
    change (model (add_message current self1)) with (model self). rewrite H2.
    eexists. split; [reflexivity|]. split; [reflexivity|].
    unfold get_conversation_history at 1, add_text, append_content.
    cbn [heap messages].
    change (heap (add_message current self1)) with (heap self).
    change (messages (add_message current self1)) with (messages self1 ++ [current])%list.
    rewrite alter_app_r_alt by lia. rewrite Nat.sub_diag.
    cbn [alter list_alter role content app].
    rewrite resolve_app. rewrite resolve_grow.
    - change (heap self) with (heap self1) at 1.
      rewrite Hhist2. unfold resolve. cbn [omap list_omap].
      rewrite lookup_app_r by lia. rewrite Nat.sub_diag. cbn.
      rewrite <- app_assoc. reflexivity.
    - unfold self1, add_message. cbn [heap messages].
      apply Forall_app. split; [apply Forall_app; split; [exact Hrefs|]|];
        (constructor; [exact Hlt | constructor]). }
  destruct E2 as (self2 & E2 & Hnone & Hhist). rewrite E2. cbn [fst snd].
  split; [reflexivity|]. split; [exact Hnone|]. split; [exact Hhist|].
  unfold send. now rewrite Hnone.
Qed.

(** X26. [get_last_n_messages] returns the end of the conversation: at
    most [n] messages, all of them when the conversation is shorter,
    none when [n] is zero or negative. *)
Theorem get_last_n_messages_is_the_end (n : Z) (self : LLMMessageBuilder) :
  get_last_n_messages n self `suffix_of` messages self /\
  length (get_last_n_messages n self)
    = Nat.min (Z.to_nat n) (length (messages self)).
Proof.
  unfold get_last_n_messages. destruct (0 <? n) eqn:Hn.
  - split; [apply suffix_drop|]. rewrite length_drop. lia.
  - apply Z.ltb_ge in Hn. split; [apply suffix_nil|].
    replace (Z.to_nat n) with 0%nat by lia. reflexivity.
Qed.

Import ChatExamples.

(** A draft is sent while the service is down, then sent again. *)
Lemma failed_send_is_repeated_by_the_retry_witness :
  let m := {| role := "user"; content := [Text "hello"] |} in
  let first := send (fun _ _ _ => CreateRaises "Connection error.") 300 true drafting in
  let second := send (fun _ _ _ => Answer "hi") 300 true first.1 in
  first.2 = Raise (Exception ("Error sending message to API: " ++ "Connection error.")) /\
  current_message first.1 = Some 0%nat /\
  get_conversation_history first.1 = (get_conversation_history drafting ++ [m])%list /\
  second.2 = Return "hi" /\
  current_message second.1 = None /\
  get_conversation_history second.1
    = (get_conversation_history drafting ++ [m; m; assistant_message "hi"])%list /\
  send (fun _ _ _ => NoChoice) 300 true second.1
    = (second.1, Raise (ValueError "No current message to send")).
Proof.
  apply (failed_send_is_repeated_by_the_retry
           (fun _ _ _ => CreateRaises "Connection error.") (fun _ _ _ => Answer "hi")
           (fun _ _ _ => NoChoice) 300 drafting 0
           {| role := "user"; content := [Text "hello"] |} "Connection error." "hi").
  - split; [constructor|]. intros current [= <-]. cbn. lia.
  - reflexivity.
  - reflexivity.
  - reflexivity.
  - reflexivity.
Defined.

End ChatFacts.
